(** * Verification of the TDT4136 search kernels

    The development embeds the Python sources of the repository:

    - [csp_problems/csp.py]: the [CSP] class (constructor, [ac_3], [revise],
      [backtracking_search] and its helpers) and [alldiff];
    - [adversarial_search/halving_game.py], [bucket_game.py] and
      [tic_tac_toe.py]: the three [Game] classes and the module-level
      [max_value]/[min_value]/[max_value_ab]/[min_value_ab] searches.

    Python dictionaries are finite maps ([gmap]); the sets of allowed value
    pairs are finite sets ([gset]); a domain, which the code iterates over, is
    the list of its elements in iteration order, and since the code shrinks
    the domain sets in place, every variable carries the identity of the set
    it holds.  Exceptions are explicit. *)

From stdpp Require Import gmap strings list fin_maps.
From Stdlib Require Import ZArith Lia.

(* String literals are read as strings; the list and number notations keep
   their usual meaning. *)
Local Open Scope string_scope.
Local Open Scope nat_scope.
Local Open Scope list_scope.
Local Open Scope stdpp_scope.

(** ** Exceptions and the two effect monads *)

(** The exceptions the modelled code can raise.  [OutOfFuel] is not a Python
    exception: it is the answer of a fuel-bounded loop whose fuel ran out, and
    the termination lemmas show it is never produced. *)
Inductive exn :=
  | KeyError | AssertionError | UnboundLocalError | IndexError
  | RecursionError | OutOfFuel.

Inductive res (A : Type) :=
  | Ret (a : A)
  | Raise (e : exn).
Arguments Ret {A} a.
Arguments Raise {A} e.

#[global] Instance res_ret : MRet res := λ A a, Ret a.
#[global] Instance res_bind : MBind res := λ A B k m,
  match m with Ret a => k a | Raise e => Raise e end.

(** A computation that reads and writes a state [S] and may raise; the state
    survives a raise, as the mutations of a Python object do. *)
Definition M (S A : Type) : Type := S → S * res A.

#[global] Instance M_ret {S} : MRet (M S) := λ A a s, (s, Ret a).
#[global] Instance M_bind {S} : MBind (M S) := λ A B k m s,
  match m s with
  | (s', Ret a) => k a s'
  | (s', Raise e) => (s', Raise e)
  end.

Definition get {S} : M S S := λ s, (s, Ret s).
Definition modify {S} (f : S → S) : M S unit := λ s, (f s, Ret tt).
Definition raise {S A} (e : exn) : M S A := λ s, (s, Raise e).
Definition lift {S A} (r : res A) : M S A := λ s, (s, r).

(** [d[k]] on a Python dict. *)
Definition getitem `{Countable K} {V} (d : gmap K V) (k : K) : res V :=
  match d !! k with Some v => Ret v | None => Raise KeyError end.

(** ** csp.py *)

Module Csp.

(** The fields of a [CSP] object, in the order [__init__] sets them.
    [self.domains] is the dictionary of the caller, with the caller's set
    objects: [domains] gives the values of the set a variable holds and
    [domain_id] the identity of that set, so that two variables holding one
    set have the same [domain_id].  The code never rebinds an entry of
    [self.domains]; it only removes values from the sets. *)
Record CSP := mkCSP {
  variables : list string;
  domains : gmap string (list Z);
  domain_id : string → positive;
  backtrack_counter : nat;
  fail_counter : nat;
  binary_constraints : gmap (string * string) (gset (Z * Z))
}.

Definition set_domains (d : gmap string (list Z)) (self : CSP) : CSP :=
  mkCSP (variables self) d (domain_id self) (backtrack_counter self)
        (fail_counter self) (binary_constraints self).
Definition incr_backtrack_counter (self : CSP) : CSP :=
  mkCSP (variables self) (domains self) (domain_id self)
        (S (backtrack_counter self)) (fail_counter self) (binary_constraints self).
Definition incr_fail_counter (self : CSP) : CSP :=
  mkCSP (variables self) (domains self) (domain_id self)
        (backtrack_counter self) (S (fail_counter self)) (binary_constraints self).

(** *** [CSP.__init__] *)

(** The innermost loop: [for value2 in domains[variable2]: if value1 != value2:
    add (value1, value2) and (value2, value1)]. *)
Definition add_pairs (value1 : Z) (D2 : list Z) (acc : gset (Z * Z)) : gset (Z * Z) :=
  foldl (λ acc value2,
           if decide (value1 ≠ value2)
           then {[ (value2, value1) ]} ∪ ({[ (value1, value2) ]} ∪ acc)
           else acc) acc D2.

(** The loop over [domains[variable1]]; [domains[variable2]] is looked up once
    per iteration, so a missing [variable2] only raises when the first domain
    is not empty. *)
Fixpoint init_pairs (domains : gmap string (list Z)) (variable2 : string)
    (D1 : list Z) (acc : gset (Z * Z)) : res (gset (Z * Z)) :=
  match D1 with
  | [] => Ret acc
  | value1 :: D1 =>
      D2 ← getitem domains variable2;
      init_pairs domains variable2 D1 (add_pairs value1 D2 acc)
  end.

Fixpoint init_constraints (domains : gmap string (list Z))
    (edges : list (string * string))
    (bc : gmap (string * string) (gset (Z * Z)))
    : res (gmap (string * string) (gset (Z * Z))) :=
  match edges with
  | [] => Ret bc
  | (variable1, variable2) :: edges =>
      D1 ← getitem domains variable1;
      pairs ← init_pairs domains variable2 D1 ∅;
      init_constraints domains edges (<[(variable1, variable2) := pairs]> bc)
  end.

(** [self.domains = domains] keeps the dictionary it is given, copying neither
    it nor its sets: the values [domains] and the identities [ids] of the
    sets are stored as they are. *)
Definition init (variables : list string) (domains : gmap string (list Z))
    (ids : string → positive) (edges : list (string * string)) : res CSP :=
  bc ← init_constraints domains edges ∅;
  mret (mkCSP variables domains ids 0 0 bc).

(** *** [CSP.revise] and [CSP.ac_3] *)

(** [any((x, y) in self.binary_constraints.get((Xi, Xj), set()) for y in Dj)] *)
Definition supported (self : CSP) (Xi Xj : string) (x : Z) (Dj : list Z) : bool :=
  existsb (λ y, bool_decide ((x, y) ∈ default ∅ (binary_constraints self !! (Xi, Xj)))) Dj.

(** A set that loses [x]; the order of the other elements is kept. *)
Definition remove_value (x : Z) (D : list Z) : list Z :=
  filter (λ y, y ≠ x) D.

(** [self.domains[Xi].remove(x)] removes [x] from the set object itself:
    every variable that holds the set of [Xi] loses [x], and the other
    variables keep their values.  [remove] raises [KeyError] when [x] is not
    in the set, which [revise_loop] tests before it calls this. *)
Definition discard (self : CSP) (Xi : string) (x : Z) : gmap string (list Z) :=
  map_imap (λ var D,
              Some (if decide (domain_id self var = domain_id self Xi)
                    then remove_value x D else D)) (domains self).

(** The loop of [revise] over the copy [set(self.domains[Xi])].  Each round
    reads the current [self.domains[Xj]], which is the set being shrunk when
    [Xj] holds the set of [Xi]. *)
Fixpoint revise_loop (Xi Xj : string) (copy : list Z) (revised : bool) : M CSP bool :=
  match copy with
  | [] => mret revised
  | x :: copy =>
      self ← get;
      Dj ← lift (getitem (domains self) Xj);
      if supported self Xi Xj x Dj then revise_loop Xi Xj copy revised
      else
        Di ← lift (getitem (domains self) Xi);
        if decide (x ∈ Di) then
          modify (set_domains (discard self Xi x));;
          revise_loop Xi Xj copy true
        else raise KeyError
  end.

Definition revise (Xi Xj : string) : M CSP bool :=
  self ← get;
  copy ← lift (getitem (domains self) Xi);
  revise_loop Xi Xj copy false.

(** The arcs the queue starts with: the double loop over [self.variables]. *)
Definition initial_arcs (self : CSP) : list (string * string) :=
  Xi ← variables self;
  Xj ← variables self;
  if decide (is_Some (binary_constraints self !! (Xi, Xj))) then [(Xi, Xj)] else [].

(** The arcs put back after [Xi] was revised against [Xj]. *)
Definition arcs_to (self : CSP) (Xi Xj : string) : list (string * string) :=
  Xk ← variables self;
  if decide (Xk ≠ Xj ∧ is_Some (binary_constraints self !! (Xk, Xi)))
  then [(Xk, Xi)] else [].

(** The [while not queue.empty()] loop; the queue is first-in first-out. *)
Fixpoint ac_3_loop (fuel : nat) (queue : list (string * string)) : M CSP bool :=
  match fuel with
  | 0 => raise OutOfFuel
  | S fuel =>
      match queue with
      | [] => mret true
      | (Xi, Xj) :: queue =>
          revised ← revise Xi Xj;
          if revised : bool then
            self ← get;
            Di ← lift (getitem (domains self) Xi);
            if decide (length Di = 0) then mret false
            else ac_3_loop fuel (queue ++ arcs_to self Xi Xj)
          else ac_3_loop fuel queue
      end
  end.

(** Number of values left in all domains. *)
Definition total_size (d : gmap string (list Z)) : nat :=
  map_fold (λ _ D n, length D + n) 0 d.

(** A number of rounds the loop cannot exceed: every round takes an arc off
    the queue, and only a round that removes a value puts arcs back. *)
Definition ac_3_fuel (self : CSP) : nat :=
  S (length (initial_arcs self) + total_size (domains self) * length (variables self)).

Definition ac_3 : M CSP bool :=
  λ self, ac_3_loop (ac_3_fuel self) (initial_arcs self) self.

(** *** [CSP.backtracking_search] *)

Definition is_complete (self : CSP) (assignment : gmap string Z) : bool :=
  forallb (λ var, bool_decide (is_Some (assignment !! var))) (variables self).

(** Returns [None] (Python's implicit result) when every variable is assigned. *)
Definition select_unassigned_variable (self : CSP) (assignment : gmap string Z)
    : option string :=
  find (λ var, bool_decide (assignment !! var = None)) (variables self).

(** [self.domains[var]]; [var = None] is not a key of the dictionary. *)
Definition order_domain_values (self : CSP) (var : option string) : res (list Z) :=
  match var with
  | Some var => getitem (domains self) var
  | None => Raise KeyError
  end.

(** The test inside the loop of [is_consistent]. *)
Definition violates (self : CSP) (var : string) (value : Z)
    (neighbor : string) (neighbor_value : Z) : bool :=
  match binary_constraints self !! (var, neighbor) with
  | Some allowed => negb (bool_decide ((value, neighbor_value) ∈ allowed))
  | None => false
  end
  ||
  match binary_constraints self !! (neighbor, var) with
  | Some allowed => negb (bool_decide ((neighbor_value, value) ∈ allowed))
  | None => false
  end.

Definition is_consistent (self : CSP) (value : Z) (var : string)
    (assignment : gmap string Z) : bool :=
  forallb (λ neighbor,
             match assignment !! neighbor with
             | Some neighbor_value => negb (violates self var value neighbor neighbor_value)
             | None => true
             end) (variables self).

(** The state of a search: the instance and the one [assignment] dictionary
    that every call of [backtrack] shares and mutates. *)
Record search := mkSearch {
  self_ : CSP;
  assignment_ : gmap string Z
}.

Definition on_self (f : CSP → CSP) (s : search) : search :=
  mkSearch (f (self_ s)) (assignment_ s).
Definition on_assignment (f : gmap string Z → gmap string Z) (s : search) : search :=
  mkSearch (self_ s) (f (assignment_ s)).

(** [del assignment[var]] *)
Definition delitem (var : string) : M search unit :=
  s ← get;
  match assignment_ s !! var with
  | Some _ => modify (on_assignment (delete var))
  | None => raise KeyError
  end.

(** The [for value in ...] loop of [backtrack]; [rec] is the recursive call.
    The result is [true] when the call returns the shared dictionary and
    [false] when it returns [None]. *)
Fixpoint try_values (rec : M search bool) (var : string) (values : list Z)
    : M search bool :=
  match values with
  | [] => modify (on_self incr_fail_counter);; mret false
  | value :: values =>
      s ← get;
      if is_consistent (self_ s) value var (assignment_ s) then
        modify (on_assignment (<[var := value]>));;
        result ← rec;
        if result : bool then mret true
        else delitem var;; try_values rec var values
      else try_values rec var values
  end.

Fixpoint backtrack (fuel : nat) : M search bool :=
  match fuel with
  | 0 => raise RecursionError
  | S fuel =>
      modify (on_self incr_backtrack_counter);;
      s ← get;
      if is_complete (self_ s) (assignment_ s) then mret true
      else
        let var := select_unassigned_variable (self_ s) (assignment_ s) in
        values ← lift (order_domain_values (self_ s) var);
        match var with
        | Some var => try_values (backtrack fuel) var values
        | None => raise KeyError
        end
  end.

(** [backtrack({})], with room for one call per variable and the last call
    that finds the assignment complete. *)
Definition backtracking_search : M CSP (option (gmap string Z)) :=
  λ self,
    match backtrack (S (length (variables self))) (mkSearch self ∅) with
    | (s, Ret true) => (self_ s, Ret (Some (assignment_ s)))
    | (s, Ret false) => (self_ s, Ret None)
    | (s, Raise e) => (self_ s, Raise e)
    end.

(** *** [alldiff] *)

(** The comprehension
    [[(variables[i], variables[j]) for i in range(len(variables) - 1)
                                   for j in range(i + 1, len(variables))]].
    [range(len(variables) - 1)] is empty for the empty list. *)
Definition alldiff (variables : list string) : list (string * string) :=
  i ← seq 0 (length variables - 1);
  j ← seq (i + 1) (length variables - (i + 1));
  [(variables !!! i, variables !!! j)].

End Csp.


(** ** The adversarial-search scripts *)

Module Games.

(** The numbers a search handles: a utility, [float('-inf')] or [float('inf')]. *)
Inductive value :=
  | NegInf
  | Fin (z : Z)
  | PosInf.

(** [a < b] on Python numbers. *)
Definition value_ltb (a b : value) : bool :=
  match a, b with
  | NegInf, NegInf => false
  | NegInf, _ => true
  | Fin _, NegInf => false
  | Fin x, Fin y => bool_decide (x < y)%Z
  | Fin _, PosInf => true
  | PosInf, _ => false
  end.
Definition value_leb (a b : value) : bool := negb (value_ltb b a).
Arguments value_ltb : simpl never.
Arguments value_leb : simpl never.

(** [max(a, b)] and [min(a, b)]: the first argument unless the second is
    strictly better. *)
Definition value_max (a b : value) : value := if value_ltb a b then b else a.
Definition value_min (a b : value) : value := if value_ltb b a then b else a.

(** What the variable [move] of a search holds: [None], one of the two
    infinities it is initialised with, or an action. *)
Inductive move (Action : Type) :=
  | NoMove
  | InfMove (positive : bool)
  | Act (a : Action).
Arguments NoMove {Action}.
Arguments InfMove {Action} positive.
Arguments Act {Action} a.

(** The interface the three [Game] classes share.  [result] and [utility]
    contain assertions or index operations and may raise. *)
Record Game (State Action : Type) := mkGame {
  initial_state : State;
  to_move : State → Z;
  actions : State → list Action;
  result : State → Action → res State;
  is_terminal : State → bool;
  utility : State → Z → res Z
}.
Arguments initial_state {State Action} g.
Arguments to_move {State Action} g state.
Arguments actions {State Action} g state.
Arguments result {State Action} g state action.
Arguments is_terminal {State Action} g state.
Arguments utility {State Action} g state player.

Section Search.
Context {State Action : Type}.
Variable game : Game State Action.
(** The module-level variable [player], which the driver loop sets before
    each search and [max_value]/[min_value] read at the terminal states. *)
Variable player : Z.

(** The [for a in game.actions(state)] loop of [max_value]; [child] is the
    call of [min_value]. *)
Fixpoint max_loop (child : State → res (value * move Action)) (state : State)
    (acts : list Action) (v : value) (mv : move Action) : res (value * move Action) :=
  match acts with
  | [] => Ret (v, mv)
  | a :: acts =>
      next ← result game state a;
      r ← child next;
      if value_ltb v r.1 then max_loop child state acts r.1 (Act a)
      else max_loop child state acts v mv
  end.

Fixpoint min_loop (child : State → res (value * move Action)) (state : State)
    (acts : list Action) (v : value) (mv : move Action) : res (value * move Action) :=
  match acts with
  | [] => Ret (v, mv)
  | a :: acts =>
      next ← result game state a;
      r ← child next;
      if value_ltb r.1 v then min_loop child state acts r.1 (Act a)
      else min_loop child state acts v mv
  end.

(** [fuel] bounds the depth of the recursion. *)
Fixpoint max_value (fuel : nat) (state : State) : res (value * move Action) :=
  match fuel with
  | 0 => Raise RecursionError
  | S fuel =>
      if is_terminal game state then
        u ← utility game state player; Ret (Fin u, NoMove)
      else max_loop (min_value fuel) state (actions game state) NegInf (InfMove false)
  end
with min_value (fuel : nat) (state : State) : res (value * move Action) :=
  match fuel with
  | 0 => Raise RecursionError
  | S fuel =>
      if is_terminal game state then
        u ← utility game state player; Ret (Fin u, NoMove)
      else min_loop (max_value fuel) state (actions game state) PosInf (InfMove true)
  end.

Definition minimax_search (fuel : nat) (state : State) : res (move Action) :=
  r ← max_value fuel state; Ret r.2.

(** [return v, move] where [move] is only bound once an action improved [v]. *)
Definition return_bound (v : value) (mv : option (move Action))
    : res (value * move Action) :=
  match mv with
  | Some m => Ret (v, m)
  | None => Raise UnboundLocalError
  end.

Fixpoint max_loop_ab (child : State → value → value → res (value * move Action))
    (state : State) (acts : list Action) (v : value) (mv : option (move Action))
    (alpha beta : value) : res (value * move Action) :=
  match acts with
  | [] => return_bound v mv
  | a :: acts =>
      next ← result game state a;
      r ← child next alpha beta;
      let '(v, mv, alpha) :=
        if value_ltb v r.1 then (r.1, Some (Act a), value_max alpha r.1)
        else (v, mv, alpha) in
      if value_leb beta v then return_bound v mv
      else max_loop_ab child state acts v mv alpha beta
  end.

Fixpoint min_loop_ab (child : State → value → value → res (value * move Action))
    (state : State) (acts : list Action) (v : value) (mv : option (move Action))
    (alpha beta : value) : res (value * move Action) :=
  match acts with
  | [] => return_bound v mv
  | a :: acts =>
      next ← result game state a;
      r ← child next alpha beta;
      let '(v, mv, beta) :=
        if value_ltb r.1 v then (r.1, Some (Act a), value_min beta r.1)
        else (v, mv, beta) in
      if value_leb v alpha then return_bound v mv
      else min_loop_ab child state acts v mv alpha beta
  end.

Fixpoint max_value_ab (fuel : nat) (state : State) (alpha beta : value)
    : res (value * move Action) :=
  match fuel with
  | 0 => Raise RecursionError
  | S fuel =>
      if is_terminal game state then
        u ← utility game state player; Ret (Fin u, NoMove)
      else max_loop_ab (min_value_ab fuel) state (actions game state)
                       NegInf None alpha beta
  end
with min_value_ab (fuel : nat) (state : State) (alpha beta : value)
    : res (value * move Action) :=
  match fuel with
  | 0 => Raise RecursionError
  | S fuel =>
      if is_terminal game state then
        u ← utility game state player; Ret (Fin u, NoMove)
      else min_loop_ab (max_value_ab fuel) state (actions game state)
                       PosInf (Some (InfMove true)) alpha beta
  end.

Definition alpha_beta_search (fuel : nat) (state : State) : res (move Action) :=
  r ← max_value_ab fuel state NegInf PosInf; Ret r.2.

End Search.

(** [assert c] *)
Definition assert (c : bool) : res unit :=
  if c then Ret tt else Raise AssertionError.

(** *** halving_game.py *)

Module Halving.

Definition State : Type := Z * Z.
Definition Action : Type := string.

Definition to_move (state : State) : Z := state.1.
Definition actions (state : State) : list Action := ["--"; "/2"].
Definition result (state : State) (action : Action) : State :=
  if decide (action = "--")
  then ((to_move state + 1) `mod` 2, state.2 - 1)%Z
  else ((to_move state + 1) `mod` 2, state.2 `div` 2)%Z.
Definition is_terminal (state : State) : bool := bool_decide (state.2 = 0%Z).
Definition utility (state : State) (player : Z) : res Z :=
  assert (is_terminal state);;
  Ret (if decide (to_move state = player) then 1 else -1)%Z.

Definition game (N : Z) : Game State Action :=
  mkGame State Action (0%Z, N) to_move actions (λ s a, Ret (result s a))
         is_terminal utility.

(** The driver loop at the end of the file: it returns the actions printed
    and the state the loop ends in.  [rounds] bounds the iterations of the
    [while], [fuel] the recursion of each search. *)
Fixpoint play (N : Z) (fuel rounds : nat) (state : State) (played : list (move Action))
    : res (list (move Action) * State) :=
  match rounds with
  | 0 => Raise OutOfFuel
  | S rounds =>
      if is_terminal state then Ret (played, state)
      else
        let player := to_move state in
        action ← minimax_search (game N) player fuel state;
        match action with
        | NoMove => Raise AssertionError
        | Act a => play N fuel rounds (result state a) (played ++ [action])
        | InfMove _ =>
            (* a float is not equal to '--': the else branch of [result] *)
            play N fuel rounds ((to_move state + 1) `mod` 2, state.2 `div` 2)%Z
                 (played ++ [action])
        end
  end.

Definition main (N : Z) (fuel rounds : nat) : res (list (move Action) * State) :=
  play N fuel rounds (initial_state (game N)) [].

End Halving.

(** *** bucket_game.py *)

Module Bucket.

(** An entry of the list in a state: a bucket name or a number. *)
Inductive Action :=
  | Name (s : string)
  | Number (n : Z).

Definition State : Type := Z * list Action.

Definition to_move (state : State) : Z := state.1.
Definition actions (state : State) : list Action := state.2.
Definition next_player (state : State) : Z := ((to_move state + 1) `mod` 2)%Z.
Definition result (state : State) (action : Action) : res State :=
  match action with
  | Name "A" => Ret (next_player state, [Number (-50); Number 50])
  | Name "B" => Ret (next_player state, [Number 3; Number 1])
  | Name "C" => Ret (next_player state, [Number (-5); Number 15])
  | Name _ => Raise AssertionError
  | Number n => Ret (next_player state, [Number n])
  end.
Definition is_terminal (state : State) : bool :=
  bool_decide (length state.2 = 1).
Definition utility (state : State) (player : Z) : res Z :=
  assert (is_terminal state);;
  match state.2 with
  | Number n :: _ => Ret (if decide (player = to_move state) then n else - n)%Z
  | Name _ :: _ => Raise AssertionError
  | [] => Raise IndexError
  end.

Definition game : Game State Action :=
  mkGame State Action (0%Z, [Name "A"; Name "B"; Name "C"]) to_move actions
         result is_terminal utility.

End Bucket.

(** *** tic_tac_toe.py *)

Module TicTacToe.

(** A cell holds [None] or a player.  The board is always three rows of
    three cells: [initial_state] builds it so and [result] copies it. *)
Definition cell : Type := option Z.
Definition row : Type := cell * cell * cell.
Definition board : Type := row * row * row.
Definition State : Type := Z * board.
Definition Action : Type := Z * Z.

Definition get3 {A} (t : A * A * A) (i : nat) : A :=
  match i with 0 => t.1.1 | 1 => t.1.2 | _ => t.2 end.
Definition set3 {A} (t : A * A * A) (i : nat) (x : A) : A * A * A :=
  match i with
  | 0 => (x, t.1.2, t.2)
  | 1 => (t.1.1, x, t.2)
  | _ => (t.1.1, t.1.2, x)
  end.
Definition at_ (b : board) (r c : nat) : cell := get3 (get3 b r) c.

(** A Python index into a list of length three: negative indices count from
    the end, anything else out of range raises. *)
Definition index3 (i : Z) : res nat :=
  if decide (0 ≤ i < 3)%Z then Ret (Z.to_nat i)
  else if decide (-3 ≤ i < 0)%Z then Ret (Z.to_nat (i + 3))
  else Raise IndexError.

Definition range3 : list nat := [0; 1; 2].

Definition to_move (state : State) : Z := state.1.

Definition actions (state : State) : list Action :=
  r ← range3; c ← range3;
  if decide (at_ state.2 r c = None) then [(Z.of_nat r, Z.of_nat c)] else [].

Definition result (state : State) (action : Action) : res State :=
  r ← index3 action.1;
  c ← index3 action.2;
  Ret (((to_move state + 1) `mod` 2)%Z,
       set3 state.2 r (set3 (get3 state.2 r) c (Some (to_move state)))).

Definition is_winner (state : State) (player : Z) : bool :=
  existsb (λ r, forallb (λ c, bool_decide (at_ state.2 r c = Some player)) range3) range3
  || existsb (λ c, forallb (λ r, bool_decide (at_ state.2 r c = Some player)) range3) range3
  || forallb (λ i, bool_decide (at_ state.2 i i = Some player)) range3
  || forallb (λ i, bool_decide (at_ state.2 i (2 - i) = Some player)) range3.

Definition is_terminal (state : State) : bool :=
  if is_winner state ((to_move state + 1) `mod` 2)%Z then true
  else forallb (λ r, forallb (λ c, bool_decide (at_ state.2 r c ≠ None)) range3) range3.

Definition utility (state : State) (player : Z) : res Z :=
  assert (is_terminal state);;
  if is_winner state player then Ret 1%Z
  else if is_winner state ((player + 1) `mod` 2)%Z then Ret (-1)%Z
  else Ret 0%Z.

Definition empty_row : row := (None, None, None).
Definition game : Game State Action :=
  mkGame State Action (0%Z, (empty_row, empty_row, empty_row)) to_move actions
         result is_terminal utility.

End TicTacToe.

End Games.

Import Csp.
Import Games.

(** * Specifications

    The predicates the properties below are stated with. *)

(** ** Constraint satisfaction *)

(** A complete consistent assignment: it assigns the variables of the
    instance and nothing else, every value comes from the domain of its
    variable, and no two assigned values fail the test of [is_consistent]. *)
Definition is_solution (self : CSP) (a : gmap string Z) : Prop :=
  dom a = list_to_set (variables self) ∧
  (∀ var value, a !! var = Some value →
     ∃ D, domains self !! var = Some D ∧ value ∈ D) ∧
  (∀ X Y x y, a !! X = Some x → a !! Y = Some y → violates self X x Y y = false).

(** [(Xi, Xj)] is an arc of the instance: a key of [binary_constraints] made
    of two of its variables. *)
Definition arc (self : CSP) (a : string * string) : Prop :=
  a.1 ∈ variables self ∧ a.2 ∈ variables self ∧
  is_Some (binary_constraints self !! a).

(** One removal of [revise Xi Xj]: a value [x] with no partner in the current
    domain of [Xj] leaves the set of [Xi]. *)
Inductive prune (Xi Xj : string) (self : CSP) : CSP → Prop :=
  | prune_intro x Di Dj :
      domains self !! Xi = Some Di →
      domains self !! Xj = Some Dj →
      x ∈ Di →
      supported self Xi Xj x Dj = false →
      prune Xi Xj self (set_domains (discard self Xi x) self).

(** No two variables hold the same set: every variable that has a domain has
    a set object of its own. *)
Definition unshared (self : CSP) : Prop :=
  ∀ X Y, is_Some (domains self !! X) → is_Some (domains self !! Y) →
         domain_id self X = domain_id self Y → X = Y.

(** Variables that hold the same set have the same values.  This is so in
    every state the code can be in. *)
Definition coherent (self : CSP) : Prop :=
  ∀ X Y DX DY, domain_id self X = domain_id self Y →
               domains self !! X = Some DX → domains self !! Y = Some DY →
               DX = DY.

(** The instance differs only in its domains. *)
Definition same_frame (s s' : CSP) : Prop :=
  variables s' = variables s ∧
  binary_constraints s' = binary_constraints s ∧
  backtrack_counter s' = backtrack_counter s ∧
  fail_counter s' = fail_counter s.

(** A step of [ac_3]: a removal along some arc of the instance. *)
Definition ac_3_step (s s' : CSP) : Prop :=
  ∃ Xi Xj, arc s (Xi, Xj) ∧ prune Xi Xj s s'.

(** Every domain of [s'] is what is left of the domain [s] had for the same
    variable, in the same order, and no variable gained or lost its entry. *)
Definition shrinks (s s' : CSP) : Prop :=
  dom (domains s') = dom (domains s) ∧
  ∀ var D D', domains s !! var = Some D → domains s' !! var = Some D' →
              D' `sublist_of` D.

(** The instance of [s'] differs from the one of [s] in its counters only, and
    the counters did not decrease. *)
Definition search_frame (s s' : search) : Prop :=
  variables (self_ s') = variables (self_ s) ∧
  domains (self_ s') = domains (self_ s) ∧
  binary_constraints (self_ s') = binary_constraints (self_ s) ∧
  (backtrack_counter (self_ s) ≤ backtrack_counter (self_ s'))%nat ∧
  (fail_counter (self_ s) ≤ fail_counter (self_ s'))%nat.

(** Every variable of the instance has a domain. *)
Definition has_domains (self : CSP) : Prop :=
  Forall (λ var, is_Some (domains self !! var)) (variables self).

(** Every constraint joins two different variables. *)
Definition no_self_edge (self : CSP) : Prop :=
  map_Forall (λ (k : string * string) _, k.1 ≠ k.2) (binary_constraints self).

(** The fields a search reads. *)
Definition static_eq (c c' : CSP) : Prop :=
  variables c' = variables c ∧ domains c' = domains c ∧
  binary_constraints c' = binary_constraints c.

(** A consistent partial assignment of the instance. *)
Definition partial_ok (c : CSP) (a : gmap string Z) : Prop :=
  (∀ var value, a !! var = Some value →
     var ∈ variables c ∧ ∃ D, domains c !! var = Some D ∧ value ∈ D) ∧
  (∀ X Y x y, a !! X = Some x → a !! Y = Some y → violates c X x Y y = false).

(** How many entries of [variables] still lack a value. *)
Definition unassigned (c : CSP) (a : gmap string Z) : nat :=
  length (filter (λ var, a !! var = None) (variables c)).

(** What a call of [backtrack] answers, for the instance [c] and the
    assignment [a] it starts from. *)
Definition backtrack_post (c : CSP) (s : search) (out : search * res bool) : Prop :=
  match out with
  | (s', Ret true) =>
      assignment_ s ⊆ assignment_ s' ∧ is_solution c (assignment_ s')
  | (s', Ret false) =>
      assignment_ s' = assignment_ s ∧
      (∀ b, is_solution c b → ¬ assignment_ s ⊆ b) ∧
      (fail_counter (self_ s) < fail_counter (self_ s'))%nat
  | (_, Raise _) => False
  end.

(** The domain of [X], empty when [X] has none. *)
Definition dom_of (c : CSP) (X : string) : list Z := default [] (domains c !! X).

(** The pairs allowed on the key [(Xi, Xj)], none when the key is absent. *)
Definition allowed (c : CSP) (Xi Xj : string) : gset (Z * Z) :=
  default ∅ (binary_constraints c !! (Xi, Xj)).

(** Every value of [Xi] has a partner in the domain of [Xj]. *)
Definition arc_consistent (c : CSP) (a : string * string) : Prop :=
  ∀ x, x ∈ dom_of c a.1 → supported c a.1 a.2 x (dom_of c a.2) = true.

(** When a pair of variables carries a constraint in both orders, the two
    sets of allowed pairs mirror each other. *)
Definition sym_constraints (c : CSP) : Prop :=
  ∀ a b Sab Sba x y,
    binary_constraints c !! (a, b) = Some Sab →
    binary_constraints c !! (b, a) = Some Sba →
    (x, y) ∈ Sab → (y, x) ∈ Sba.

(** Every key of [binary_constraints] starts with a variable that has a
    domain. *)
Definition keys_have_domain (c : CSP) : Prop :=
  ∀ a b, is_Some (binary_constraints c !! (a, b)) → is_Some (domains c !! a).

(** An arc that is not waiting in the queue is consistent. *)
Definition queue_inv (queue : list (string * string)) (c : CSP) : Prop :=
  ∀ a, arc c a → a ∈ queue ∨ arc_consistent c a.

(** The pairs [__init__] allows between a domain [D1] and a domain [D2]:
    two different values, one from each, in either order. *)
Definition neq_pairs (D1 D2 : list Z) (p : Z * Z) : Prop :=
  p.1 ≠ p.2 ∧ ((p.1 ∈ D1 ∧ p.2 ∈ D2) ∨ (p.2 ∈ D1 ∧ p.1 ∈ D2)).

(** Every set of allowed pairs is the one the constructor computes from the
    domains [doms], and the first variable of every key has a domain. *)
Definition built_from (doms : gmap string (list Z))
    (bc : gmap (string * string) (gset (Z * Z))) : Prop :=
  ∀ a b pairs, bc !! (a, b) = Some pairs →
    is_Some (doms !! a) ∧
    ∀ x y, (x, y) ∈ pairs ↔
           neq_pairs (default [] (doms !! a)) (default [] (doms !! b)) (x, y).

(** ** Game values *)

(** A value as a pair compared lexicographically: its kind, then its number. *)
Definition tag (v : value) : Z :=
  match v with NegInf => -1 | Fin _ => 0 | PosInf => 1 end.
Definition val (v : value) : Z :=
  match v with Fin z => z | _ => 0 end.

(** [a < b] as a proposition. *)
Definition vlt (a b : value) : Prop :=
  (tag a < tag b ∨ (tag a = tag b ∧ val a < val b))%Z.

(** ** Bounded games *)

Section GameSpec.
Context {State Action : Type}.
Variable game : Game State Action.
Variable player : Z.

(** From [state] the game ends within [fuel] plies: every state met is
    terminal with a utility, or has actions that all lead to such states. *)
Fixpoint bounded_game (fuel : nat) (state : State) : bool :=
  match fuel with
  | 0 => false
  | S fuel =>
      if is_terminal game state then
        match utility game state player with Ret _ => true | Raise _ => false end
      else
        match actions game state with
        | [] => false
        | acts =>
            forallb (λ a, match result game state a with
                          | Ret next => bounded_game fuel next
                          | Raise _ => false
                          end) acts
        end
  end.

(** How the answer of an alpha-beta call with the window [(a, b)] relates to
    the minimax answer [(Fin z, m)] of the same state. *)
Definition window_ok (a b : value) (z : Z) (m : move Action)
    (z' : Z) (m' : move Action) : Prop :=
  (¬ vlt a (Fin z) → ¬ vlt a (Fin z')) ∧
  (vlt a (Fin z) → vlt (Fin z) b → z' = z ∧ m' = m) ∧
  (¬ vlt (Fin z) b → ¬ vlt (Fin z') b).

(** An alpha-beta call [ab] agrees with the minimax answer [mm] for every
    window. *)
Definition ab_ok (mm : res (value * move Action))
    (ab : value → value → res (value * move Action)) : Prop :=
  ∃ z m, mm = Ret (Fin z, m) ∧
         ∀ a b, vlt a b →
                ∃ z' m', ab a b = Ret (Fin z', m') ∧ window_ok a b z m z' m'.

(** Every action of [acts] leads to a state on which the two searches of the
    next level agree. *)
Definition children_ok (child : State → res (value * move Action))
    (child_ab : State → value → value → res (value * move Action))
    (state : State) (acts : list Action) : Prop :=
  Forall (λ a, ∃ next, result game state a = Ret next ∧
                       ab_ok (child next) (child_ab next)) acts.

End GameSpec.

(** ** Instances used as examples *)

(** The identities of a dictionary that gives every key a set of its own. *)
Definition own_set : string → positive := encode.

(** The object a call of the constructor returns; the empty instance stands
    for a call that raised. *)
Definition constructed (r : res CSP) : CSP :=
  match r with Ret c => c | Raise _ => mkCSP [] ∅ own_set 0 0 ∅ end.

(** The identities of a dictionary in which the key [Y] holds the very set
    of the key [X], and every other key a set of its own. *)
Definition shared_set (X Y : string) : string → positive :=
  λ var, if decide (var = Y) then encode X else encode var.

(** Three variables that must pairwise differ, with three values each. *)
Definition three_colouring : CSP :=
  constructed (init ["X"; "Y"; "Z"]
                 {[ "X" := [1; 2; 3]%Z; "Y" := [1; 2; 3]%Z; "Z" := [1; 2; 3]%Z ]}
                 own_set
                 (alldiff ["X"; "Y"; "Z"])).

(** One variable with an edge to itself. *)
Definition self_edge : CSP :=
  constructed (init ["X"] {[ "X" := [1]%Z ]} own_set [("X", "X")]).

(** [A] differs from [B] and from [C]; both edges are declared from [A]. *)
Definition one_way : CSP :=
  constructed (init ["A"; "B"; "C"]
                 {[ "A" := [1; 2]%Z; "B" := [1]%Z; "C" := [1; 2]%Z ]}
                 own_set
                 [("A", "B"); ("A", "C")]).

(** [A] and [B] have the same single value and must differ; [C] depends on
    [A]. *)
Definition dead_end : CSP :=
  constructed (init ["A"; "B"; "C"]
                 {[ "A" := [1]%Z; "B" := [1]%Z; "C" := [1; 2]%Z ]}
                 own_set
                 [("A", "B"); ("C", "A")]).

(** [B] forces the value of [A]. *)
Definition forced : CSP :=
  constructed (init ["A"; "B"] {[ "A" := [1; 2]%Z; "B" := [1]%Z ]} own_set
                 [("A", "B")]).

(** A tic-tac-toe position after four moves, the first player to move. *)
Definition mid_game : TicTacToe.State :=
  (0, ((Some 0, Some 1, None), (None, Some 0, None), (None, None, Some 1)))%Z.

(** ** Instances [revise] can work on *)

(** The first variable of every key has a duplicate-free domain, and the
    second has a domain unless the first one's is empty. *)
Definition revisable (c : CSP) : Prop :=
  ∀ a b, is_Some (binary_constraints c !! (a, b)) →
         ∃ Da, domains c !! a = Some Da ∧ NoDup Da ∧
               (Da ≠ [] → is_Some (domains c !! b)).

(** ** The counters and the order of a search *)

(** What a call of [backtrack] does to the counters: a call that fails was
    counted once by each counter, and so was every call under it; on the
    successful path each call was counted by [backtrack_counter] alone, one
    call for each variable it assigned and the one that found the assignment
    complete. The only exception is that of a variable without domain. *)
Definition backtrack_count (s : search) (out : search * res bool) : Prop :=
  match out with
  | (s', Ret true) =>
      backtrack_counter (self_ s') + fail_counter (self_ s) + size (assignment_ s)
      = backtrack_counter (self_ s) + fail_counter (self_ s')
        + size (assignment_ s') + 1
  | (s', Ret false) =>
      assignment_ s' = assignment_ s ∧
      backtrack_counter (self_ s') + fail_counter (self_ s)
      = backtrack_counter (self_ s) + fail_counter (self_ s')
  | (_, Raise e) =>
      e = KeyError ∧
      ∃ var, var ∈ variables (self_ s) ∧ domains (self_ s) !! var = None
  end.

(** [x] stands in the domain [D] before every occurrence of [y]. *)
Definition earlier (D : list Z) (x y : Z) : Prop :=
  ∃ l1 l2, D = l1 ++ x :: l2 ∧ y ∉ l1 ∧ y ≠ x.

(** [a] comes before [b] in the order of the search: at the first entry of
    [variables] on which they differ, the value of [a] stands earlier in the
    domain. *)
Definition precedes (c : CSP) (a b : gmap string Z) : Prop :=
  ∃ pre var post x y D,
    variables c = pre ++ var :: post ∧
    (∀ v, v ∈ pre → a !! v = b !! v) ∧
    a !! var = Some x ∧ b !! var = Some y ∧
    domains c !! var = Some D ∧ earlier D x y.

(** A variable without domain. *)
Definition no_domain : CSP := constructed (init ["A"] ∅ own_set []).

(** Two solutions, [A = 1, B = 2] and [A = 2, B = 1]. *)
Definition two_ways : CSP :=
  constructed (init ["A"; "B"] {[ "A" := [1; 2]%Z; "B" := [1; 2]%Z ]} own_set
                 [("A", "B")]).

(** Two states of a search that no call of [backtrack] can tell apart: the
    same assignment, variables, domains and counters, and the same answers of
    the test of [is_consistent]. *)
Definition same_search (s1 s2 : search) : Prop :=
  assignment_ s1 = assignment_ s2 ∧
  variables (self_ s1) = variables (self_ s2) ∧
  domains (self_ s1) = domains (self_ s2) ∧
  backtrack_counter (self_ s1) = backtrack_counter (self_ s2) ∧
  fail_counter (self_ s1) = fail_counter (self_ s2) ∧
  ∀ X x Y y, violates (self_ s1) X x Y y = violates (self_ s2) X x Y y.

(** ** The action a search picks *)

Section BestAction.
Context {State Action : Type}.
Variable game : Game State Action.

(** The search [child] of the next level gives the state reached by [a] the
    value [z]. *)
Definition child_value (child : State → res (value * move Action))
    (state : State) (a : Action) (z : Z) : Prop :=
  ∃ next m, result game state a = Ret next ∧ child next = Ret (Fin z, m).

(** [a] is the first action of [acts] whose value [z] is best, where [better]
    compares two values: every action has a value, none better than [z], and
    [z] is better than the value of every action listed before [a]. *)
Definition first_best (better : Z → Z → Prop)
    (child : State → res (value * move Action))
    (state : State) (acts : list Action) (a : Action) (z : Z) : Prop :=
  ∃ pre post,
    acts = pre ++ a :: post ∧ child_value child state a z ∧
    (∀ b, b ∈ pre → ∃ zb, child_value child state b zb ∧ better z zb) ∧
    (∀ b, b ∈ acts → ∃ zb, child_value child state b zb ∧ ¬ better zb z).

End BestAction.

(** ** Tic-tac-toe *)

(** The number of cells still empty: the number of legal actions. *)
Definition empty_cells (state : TicTacToe.State) : nat :=
  length (TicTacToe.actions state).

(** ** The bucket game *)

(** An entry [game.result] accepts: a number, or the name of one of the three
    buckets. *)
Definition valid_entry (a : Bucket.Action) : bool :=
  match a with
  | Bucket.Name s => bool_decide (s ∈ ["A"; "B"; "C"])
  | Bucket.Number _ => true
  end.

(** [B] and [C] hold one set [{1, 2}]; [B] differs from [A], whose only value
    is 1, and [C] differs from [B].  [A = 1, B = 2, C = 1] is a solution. *)
Definition shared_sets : CSP :=
  constructed (init ["A"; "B"; "C"]
                 {[ "A" := [1]%Z; "B" := [1; 2]%Z; "C" := [1; 2]%Z ]}
                 (shared_set "B" "C") [("B", "A"); ("C", "B")]).

(** [A] and [B] hold one set [{1, 2}]; [D] differs from [B], and [A] from
    [C], whose only value is 1. *)
Definition shared_later : CSP :=
  constructed (init ["D"; "A"; "B"; "C"]
                 {[ "D" := [1; 2]%Z; "A" := [1; 2]%Z; "B" := [1; 2]%Z;
                    "C" := [1]%Z ]}
                 (shared_set "A" "B") [("D", "B"); ("A", "C")]).

(** [C] holds the set of [B], and the only pair allowed from [C] to [B] is
    [(1, 2)]: not an instance the constructor builds, whose pairs come in
    both orders. *)
Definition lopsided : CSP :=
  mkCSP ["B"; "C"] {[ "B" := [1; 2]%Z; "C" := [1; 2]%Z ]} (shared_set "B" "C")
        0 0 {[ ("C", "B") := {[ (1, 2)%Z ]} ]}.
(** * Properties of csp.py *)

(** ** Unfolding the monads *)

Ltac munfold :=
  unfold mbind, mret, M_bind, M_ret, res_bind, res_ret, get, modify, raise,
    lift, getitem in *.

Lemma getitem_Ret `{Countable K} {V} (d : gmap K V) k v :
  getitem d k = Ret v ↔ d !! k = Some v.
Proof. unfold getitem. destruct (d !! k); split; congruence. Qed.

Lemma getitem_Raise `{Countable K} {V} (d : gmap K V) k e :
  getitem d k = Raise e → d !! k = None ∧ e = KeyError.
Proof. unfold getitem. destruct (d !! k); [congruence|]. intros [= <-]. done. Qed.

(** ** What a solution of an instance is *)

Lemma violates_false self X x Y y :
  violates self X x Y y = false ↔
  (∀ allowed, binary_constraints self !! (X, Y) = Some allowed → (x, y) ∈ allowed) ∧
  (∀ allowed, binary_constraints self !! (Y, X) = Some allowed → (y, x) ∈ allowed).
Proof.
  unfold violates. rewrite orb_false_iff.
  destruct (binary_constraints self !! (X, Y));
    destruct (binary_constraints self !! (Y, X)); simpl;
    rewrite ?negb_false_iff, ?bool_decide_eq_true; naive_solver.
Qed.

(** The constraints of a solution, key by key. *)
Lemma is_solution_allowed self a X Y x y allowed :
  is_solution self a → binary_constraints self !! (X, Y) = Some allowed →
  a !! X = Some x → a !! Y = Some y → (x, y) ∈ allowed.
Proof.
  intros (_ & _ & Hc) Hbc HX HY.
  specialize (Hc X Y x y HX HY). apply violates_false in Hc. naive_solver.
Qed.

(** ** Removing a value from a set *)

Lemma lookup_discard c Xi x var :
  discard c Xi x !! var
  = (λ D, if decide (domain_id c var = domain_id c Xi)
          then remove_value x D else D) <$> domains c !! var.
Proof. unfold discard. rewrite map_lookup_imap. by destruct (domains c !! var). Qed.

Lemma lookup_discard_eq c Xi x Di :
  domains c !! Xi = Some Di → discard c Xi x !! Xi = Some (remove_value x Di).
Proof. intros H. rewrite lookup_discard, H. simpl. by rewrite decide_True. Qed.

Lemma lookup_discard_ne c Xi x var :
  domain_id c var ≠ domain_id c Xi → discard c Xi x !! var = domains c !! var.
Proof.
  intros H. rewrite lookup_discard. destruct (domains c !! var); [|done].
  simpl. by rewrite decide_False.
Qed.

Lemma dom_discard c Xi x : dom (discard c Xi x) = dom (domains c).
Proof.
  apply set_eq. intros var. by rewrite !elem_of_dom, lookup_discard, fmap_is_Some.
Qed.

Lemma dom_of_discard c Xi x X :
  dom_of (set_domains (discard c Xi x) c) X
  = if decide (domain_id c X = domain_id c Xi)
    then remove_value x (dom_of c X) else dom_of c X.
Proof.
  unfold dom_of. simpl. rewrite lookup_discard.
  destruct (domains c !! X); simpl; by case_decide.
Qed.

(** When no set is shared, only the entry of [Xi] changes. *)
Lemma discard_unshared c Xi x Di :
  unshared c → domains c !! Xi = Some Di →
  discard c Xi x = <[Xi := remove_value x Di]> (domains c).
Proof.
  intros Hun HDi. apply map_eq. intros var. rewrite lookup_discard.
  destruct (decide (var = Xi)) as [->|Hne].
  - rewrite lookup_insert_eq, HDi. simpl. by rewrite decide_True.
  - rewrite lookup_insert_ne by done.
    destruct (domains c !! var) as [D|] eqn:HD; [|done]. simpl.
    rewrite decide_False; [done|]. intros Hid. apply Hne. apply Hun; eauto.
Qed.

Lemma unshared_frame c c' :
  domain_id c' = domain_id c → dom (domains c') = dom (domains c) →
  unshared c → unshared c'.
Proof.
  intros Hid Hdom Hun X Y HX HY. rewrite Hid.
  apply Hun; apply elem_of_dom; rewrite <- Hdom; by apply elem_of_dom.
Qed.

Lemma unshared_coherent c : unshared c → coherent c.
Proof.
  intros Hun X Y DX DY Hid HX HY.
  assert (X = Y) as -> by (apply Hun; eauto). congruence.
Qed.

Lemma own_set_unshared c : domain_id c = own_set → unshared c.
Proof. intros Hid X Y _ _. rewrite Hid. apply (inj encode). Qed.

Lemma coherent_discard c Xi x :
  coherent c → coherent (set_domains (discard c Xi x) c).
Proof.
  intros Hco X Y DX DY Hid. simpl in *. rewrite !lookup_discard.
  destruct (domains c !! X) as [DX0|] eqn:HX; [|done].
  destruct (domains c !! Y) as [DY0|] eqn:HY; [|done]. simpl.
  rewrite (Hco X Y DX0 DY0 Hid HX HY), Hid. congruence.
Qed.

(** ** The steps of arc consistency *)

#[global] Instance same_frame_refl : Reflexive same_frame.
Proof. by intros s. Qed.
#[global] Instance same_frame_trans : Transitive same_frame.
Proof. intros s1 s2 s3 (?&?&?&?) (?&?&?&?). unfold same_frame. repeat split; congruence. Qed.

Lemma prune_frame Xi Xj s s' : prune Xi Xj s s' → same_frame s s'.
Proof. by destruct 1. Qed.

Lemma rtc_prune_frame Xi Xj s s' : rtc (prune Xi Xj) s s' → same_frame s s'.
Proof.
  induction 1 as [|s1 s2 s3 H12 _ IH]; [done|].
  etrans; [by eapply prune_frame|done].
Qed.

Lemma prune_ids Xi Xj s s' : prune Xi Xj s s' → domain_id s' = domain_id s.
Proof. by destruct 1. Qed.

Lemma rtc_prune_ids Xi Xj s s' :
  rtc (prune Xi Xj) s s' → domain_id s' = domain_id s.
Proof.
  induction 1 as [|s1 s2 s3 H12 _ IH]; [done|].
  rewrite IH. by eapply prune_ids.
Qed.

Lemma prune_coherent Xi Xj s s' : prune Xi Xj s s' → coherent s → coherent s'.
Proof. destruct 1. apply coherent_discard. Qed.

(** A removal leaves the variables that hold another set as they are. *)
Lemma prune_others Xi Xj s s' var :
  prune Xi Xj s s' → domain_id s var ≠ domain_id s Xi →
  domains s' !! var = domains s !! var.
Proof. destruct 1. intros Hid. simpl. by apply lookup_discard_ne. Qed.

Lemma rtc_prune_others Xi Xj s s' var :
  rtc (prune Xi Xj) s s' → domain_id s var ≠ domain_id s Xi →
  domains s' !! var = domains s !! var.
Proof.
  induction 1 as [|s1 s2 s3 H12 _ IH]; [done|]. intros Hid.
  rewrite IH; [by eapply prune_others|]. by rewrite (prune_ids _ _ _ _ H12).
Qed.

Lemma supported_frame s s' Xi Xj x Dj :
  binary_constraints s' = binary_constraints s →
  supported s' Xi Xj x Dj = supported s Xi Xj x Dj.
Proof. unfold supported. by intros ->. Qed.

(** The loop of [revise] is a sequence of removals. *)
Lemma revise_loop_steps Xi Xj copy revised s :
  rtc (prune Xi Xj) s (revise_loop Xi Xj copy revised s).1.
Proof.
  revert revised s. induction copy as [|x copy IH]; intros revised s; simpl.
  { done. }
  munfold. destruct (domains s !! Xj) as [Dj|] eqn:HDj; simpl; [|done].
  destruct (supported s Xi Xj x Dj) eqn:Hsup; [apply IH|].
  destruct (domains s !! Xi) as [Di|] eqn:HDi; simpl; [|done].
  destruct (decide (x ∈ Di)) as [Hx|Hx]; [|done].
  eapply rtc_l; [by eapply (prune_intro Xi Xj s x Di Dj)|]. apply IH.
Qed.

Lemma revise_steps Xi Xj s : rtc (prune Xi Xj) s (revise Xi Xj s).1.
Proof.
  unfold revise. munfold.
  destruct (domains s !! Xi); simpl; [apply revise_loop_steps|done].
Qed.

Lemma ac_3_step_frame s s' : ac_3_step s s' → same_frame s s'.
Proof. intros (Xi & Xj & _ & H). by eapply prune_frame. Qed.

Lemma rtc_ac_3_step_frame s s' : rtc ac_3_step s s' → same_frame s s'.
Proof.
  induction 1 as [|s1 s2 s3 H12 _ IH]; [done|].
  etrans; [by eapply ac_3_step_frame|done].
Qed.

Lemma rtc_ac_3_step_ids s s' : rtc ac_3_step s s' → domain_id s' = domain_id s.
Proof.
  induction 1 as [|s1 s2 s3 (Xi & Xj & _ & H12) _ IH]; [done|].
  rewrite IH. by eapply prune_ids.
Qed.

Lemma arc_frame s s' a : same_frame s s' → arc s a → arc s' a.
Proof. intros (Hv & Hbc & _) (?&?&?). unfold arc. by rewrite Hv, Hbc. Qed.

Lemma rtc_prune_ac_3_step Xi Xj s s' :
  arc s (Xi, Xj) → rtc (prune Xi Xj) s s' → rtc ac_3_step s s'.
Proof.
  intros Harc H. induction H as [|s1 s2 s3 H12 _ IH]; [done|].
  eapply rtc_l; [by exists Xi, Xj|].
  apply IH. eapply arc_frame; [by eapply prune_frame|done].
Qed.

Lemma initial_arcs_arc s : Forall (arc s) (initial_arcs s).
Proof.
  apply Forall_forall. intros [Xi Xj] Hin. unfold initial_arcs in Hin.
  apply list_elem_of_bind in Hin as (Xi' & Hin & HXi).
  apply list_elem_of_bind in Hin as (Xj' & Hin & HXj).
  case_decide; [|by apply elem_of_nil in Hin].
  apply list_elem_of_singleton in Hin as [= -> ->]. by repeat split.
Qed.

Lemma arcs_to_arc s Xi Xj : Xi ∈ variables s → Forall (arc s) (arcs_to s Xi Xj).
Proof.
  intros HXi. apply Forall_forall. intros [Xk Xi'] Hin. unfold arcs_to in Hin.
  apply list_elem_of_bind in Hin as (Xk' & Hin & HXk).
  case_decide as Hd; [|by apply elem_of_nil in Hin].
  apply list_elem_of_singleton in Hin as [= -> ->]. destruct Hd. by repeat split.
Qed.

Lemma ac_3_loop_steps fuel queue s :
  Forall (arc s) queue → rtc ac_3_step s (ac_3_loop fuel queue s).1.
Proof.
  revert queue s. induction fuel as [|fuel IH]; intros queue s Hq; simpl; [done|].
  destruct queue as [|[Xi Xj] queue]; [done|].
  apply Forall_cons in Hq as [Harc Hq].
  pose proof (revise_steps Xi Xj s) as Hrev.
  pose proof (rtc_prune_frame _ _ _ _ Hrev) as Hfr.
  apply (rtc_prune_ac_3_step _ _ _ _ Harc) in Hrev.
  unfold mbind at 1, M_bind at 1.
  destruct (revise Xi Xj s) as [s1 [revised|e]]; simpl in *; [|done].
  assert (Forall (arc s1) queue) as Hq1.
  { eapply Forall_impl; [done|]. intros a. by apply arc_frame. }
  destruct revised.
  - munfold. destruct (domains s1 !! Xi) as [Di|]; simpl; [|done].
    case_decide; [done|]. etrans; [done|]. apply IH.
    apply Forall_app. split; [done|]. apply arcs_to_arc.
    destruct Hfr as [-> _]. apply Harc.
  - etrans; [done|]. by apply IH.
Qed.

Lemma ac_3_steps s : rtc ac_3_step s (ac_3 s).1.
Proof. apply ac_3_loop_steps, initial_arcs_arc. Qed.
(** ** Domains only shrink *)

#[global] Instance shrinks_refl : Reflexive shrinks.
Proof. intros s. split; [done|]. intros var D D' H1 H2. by simplify_eq. Qed.

#[global] Instance shrinks_trans : Transitive shrinks.
Proof.
  intros s1 s2 s3 [Hd12 H12] [Hd23 H23]. split; [congruence|].
  intros var D1 D3 H1 H3.
  assert (is_Some (domains s2 !! var)) as [D2 H2].
  { apply elem_of_dom. rewrite Hd12. apply elem_of_dom. eauto. }
  etrans; [by eapply H23|by eapply H12].
Qed.

Lemma prune_shrinks Xi Xj s s' : prune Xi Xj s s' → shrinks s s'.
Proof.
  destruct 1 as [x Di Dj HDi HDj Hx Hsup]. split; simpl.
  - apply dom_discard.
  - intros var D D' HD HD'. rewrite lookup_discard, HD in HD'. simpl in HD'.
    simplify_eq. case_decide; [apply sublist_filter|done].
Qed.

Lemma rtc_ac_3_step_shrinks s s' : rtc ac_3_step s s' → shrinks s s'.
Proof.
  induction 1 as [|s1 s2 s3 (Xi & Xj & _ & H12) _ IH]; [done|].
  etrans; [by eapply prune_shrinks|done].
Qed.

Lemma rtc_prune_shrinks Xi Xj s s' : rtc (prune Xi Xj) s s' → shrinks s s'.
Proof.
  induction 1 as [|s1 s2 s3 H12 _ IH]; [done|].
  etrans; [by eapply prune_shrinks|done].
Qed.

Lemma rtc_prune_unshared Xi Xj s s' :
  rtc (prune Xi Xj) s s' → unshared s → unshared s'.
Proof.
  intros H. apply unshared_frame.
  - by eapply rtc_prune_ids.
  - by destruct (rtc_prune_shrinks _ _ _ _ H).
Qed.

Lemma rtc_ac_3_step_unshared s s' : rtc ac_3_step s s' → unshared s → unshared s'.
Proof.
  intros H. apply unshared_frame.
  - by apply rtc_ac_3_step_ids.
  - by destruct (rtc_ac_3_step_shrinks _ _ H).
Qed.

(** ** Removals keep the solutions *)

Lemma supported_true s Xi Xj x y Dj allowed :
  binary_constraints s !! (Xi, Xj) = Some allowed →
  y ∈ Dj → (x, y) ∈ allowed → supported s Xi Xj x Dj = true.
Proof.
  intros Hbc Hy Hxy. unfold supported. apply existsb_exists.
  exists y. split; [by apply list_elem_of_In|].
  rewrite Hbc. simpl. by apply bool_decide_eq_true.
Qed.

Lemma violates_frame s s' X x Y y :
  binary_constraints s' = binary_constraints s →
  violates s' X x Y y = violates s X x Y y.
Proof. unfold violates. by intros ->. Qed.

Lemma is_solution_variable s a X :
  is_solution s a → X ∈ variables s →
  ∃ x D, a !! X = Some x ∧ domains s !! X = Some D ∧ x ∈ D.
Proof.
  intros (Hdom & Hval & _) HX.
  assert (is_Some (a !! X)) as [x Hx].
  { apply elem_of_dom. rewrite Hdom. by apply elem_of_list_to_set. }
  destruct (Hval X x Hx) as (D & HD & HxD). eauto.
Qed.

(** When no set is shared, a removal takes away a value that no solution
    uses. *)
Lemma ac_3_step_solutions s s' a :
  unshared s → ac_3_step s s' → is_solution s a ↔ is_solution s' a.
Proof.
  intros Hun (Xi & Xj & (HXi & HXj & [allowed Hbc]) & Hpr). simpl in *.
  destruct Hpr as [x Di Dj HDi HDj Hx Hsup].
  rewrite (discard_unshared s Xi x Di Hun HDi). split.
  - intros Hsol. pose proof Hsol as (Hdom & Hval & Hc).
    split; [done|]. split; [|done]. simpl.
    intros var value Hvar. destruct (Hval var value Hvar) as (D & HD & HvD).
    destruct (decide (var = Xi)) as [->|Hne].
    + rewrite lookup_insert_eq. eexists. split; [done|]. simplify_eq.
      apply list_elem_of_filter. split; [|done].
      intros ->.
      destruct (is_solution_variable s a Xj Hsol HXj) as (y & D' & Hy & HD' & HyD).
      simplify_eq.
      assert ((x, y) ∈ allowed) by by eapply is_solution_allowed.
      by erewrite supported_true in Hsup.
    + rewrite lookup_insert_ne by done. eauto.
  - intros (Hdom & Hval & Hc). split; [done|]. split; [|done].
    intros var value Hvar. destruct (Hval var value Hvar) as (D & HD & HvD).
    simpl in HD. destruct (decide (var = Xi)) as [->|Hne].
    + rewrite lookup_insert_eq in HD. simplify_eq. eexists. split; [done|].
      by apply list_elem_of_filter in HvD as [_ ?].
    + rewrite lookup_insert_ne in HD by done. eauto.
Qed.

Lemma rtc_ac_3_step_solutions s s' a :
  unshared s → rtc ac_3_step s s' → is_solution s a ↔ is_solution s' a.
Proof.
  intros Hun H. induction H as [|s1 s2 s3 H12 H23 IH]; [done|].
  rewrite <- IH; [by apply ac_3_step_solutions|].
  eapply rtc_ac_3_step_unshared; [|done]. by apply rtc_once.
Qed.

(** ** The frame of the search *)

#[global] Instance search_frame_refl : Reflexive search_frame.
Proof. intros s. by repeat split. Qed.
#[global] Instance search_frame_trans : Transitive search_frame.
Proof.
  intros s1 s2 s3 (?&?&?&?&?) (?&?&?&?&?).
  unfold search_frame. repeat split; try congruence; lia.
Qed.

Lemma delitem_frame var s : search_frame s (delitem var s).1.
Proof. unfold delitem. munfold. by destruct (assignment_ s !! var). Qed.

Lemma try_values_frame rec var values :
  (∀ s, search_frame s (rec s).1) →
  ∀ s, search_frame s (try_values rec var values s).1.
Proof.
  intros Hrec. induction values as [|value values IH]; intros s; simpl.
  { munfold. simpl. unfold search_frame. simpl. repeat split; lia. }
  munfold. destruct (is_consistent _ _ _ _); [|apply IH].
  set (s1 := on_assignment _ s).
  pose proof (Hrec s1) as H1.
  destruct (rec s1) as [s2 [[]|e]]; simpl in *; [done| |done].
  pose proof (delitem_frame var s2) as H2. unfold delitem in *. munfold.
  destruct (assignment_ s2 !! var); simpl in *; [|done].
  etrans; [exact H1|]. etrans; [exact H2|]. apply IH.
Qed.

Lemma backtrack_frame fuel s : search_frame s (backtrack fuel s).1.
Proof.
  revert s. induction fuel as [|fuel IH]; intros s; simpl; [done|].
  munfold.
  assert (search_frame s (on_self incr_backtrack_counter s)) as H0.
  { unfold search_frame. simpl. repeat split; lia. }
  set (s0 := on_self incr_backtrack_counter s) in *.
  destruct (is_complete _ _); [done|].
  destruct (order_domain_values _ _) as [values|e]; simpl; [|done].
  destruct (select_unassigned_variable _ _) as [var|]; [|done].
  etrans; [exact H0|]. by apply try_values_frame.
Qed.

Lemma backtracking_search_search_frame self :
  search_frame (mkSearch self ∅) (mkSearch (backtracking_search self).1 ∅).
Proof.
  unfold backtracking_search.
  pose proof (backtrack_frame (S (length (variables self))) (mkSearch self ∅)) as H.
  destruct (backtrack _ _) as [s [[]|e]]; exact H.
Qed.
(** ** Backtracking search *)

Lemma search_frame_static s s' : search_frame s s' → static_eq (self_ s) (self_ s').
Proof. intros (?&?&?&_). by repeat split. Qed.

Lemma static_eq_trans c1 c2 c3 : static_eq c1 c2 → static_eq c2 c3 → static_eq c1 c3.
Proof. intros (?&?&?) (?&?&?). unfold static_eq. repeat split; congruence. Qed.

Lemma is_consistent_static c c' value var a :
  static_eq c c' → is_consistent c' value var a = is_consistent c value var a.
Proof.
  destruct c, c'. intros (Hv & Hd & Hb). simpl in *. subst. reflexivity.
Qed.

Lemma is_complete_static c c' a :
  static_eq c c' → is_complete c' a = is_complete c a.
Proof. destruct c, c'. intros (Hv & Hd & Hb). simpl in *. subst. reflexivity. Qed.

Lemma select_static c c' a :
  static_eq c c' → select_unassigned_variable c' a = select_unassigned_variable c a.
Proof. destruct c, c'. intros (Hv & Hd & Hb). simpl in *. subst. reflexivity. Qed.

Lemma order_static c c' var :
  static_eq c c' → order_domain_values c' var = order_domain_values c var.
Proof. destruct c, c'. intros (Hv & Hd & Hb). simpl in *. subst. reflexivity. Qed.

Lemma violates_sym c X x Y y : violates c X x Y y = violates c Y y X x.
Proof. unfold violates. apply orb_comm. Qed.

Lemma violates_self c X x y : no_self_edge c → violates c X x X y = false.
Proof.
  intros Hno. unfold violates.
  destruct (binary_constraints c !! (X, X)) as [allowed|] eqn:Hbc; [|done].
  by destruct (Hno _ _ Hbc).
Qed.

Lemma is_consistent_true c value var a :
  is_consistent c value var a = true ↔
  ∀ neighbor nv, neighbor ∈ variables c → a !! neighbor = Some nv →
                 violates c var value neighbor nv = false.
Proof.
  unfold is_consistent. rewrite forallb_forall. split.
  - intros H neighbor nv Hin Hnv. apply list_elem_of_In, H in Hin.
    rewrite Hnv in Hin. by apply negb_true_iff.
  - intros H neighbor Hin. destruct (a !! neighbor) as [nv|] eqn:Hnv; [|done].
    apply negb_true_iff, H; [by apply list_elem_of_In|done].
Qed.

Lemma is_complete_true c a :
  is_complete c a = true ↔ ∀ var, var ∈ variables c → is_Some (a !! var).
Proof.
  unfold is_complete. rewrite forallb_forall. split.
  - intros H var Hin. by apply list_elem_of_In, H, bool_decide_eq_true in Hin.
  - intros H var Hin. apply bool_decide_eq_true, H. by apply list_elem_of_In.
Qed.

(** When the assignment is not complete, the first unassigned variable is
    found. *)
Lemma select_unassigned_Some c a :
  is_complete c a = false →
  ∃ var, select_unassigned_variable c a = Some var ∧
         var ∈ variables c ∧ a !! var = None.
Proof.
  unfold is_complete, select_unassigned_variable.
  induction (variables c) as [|v vs IH]; simpl; [done|].
  intros H. destruct (decide (a !! v = None)) as [Hn|Hn].
  - rewrite (bool_decide_eq_true_2 _ Hn). exists v. set_solver.
  - rewrite (bool_decide_eq_false_2 _ Hn).
    apply andb_false_iff in H as [H|H].
    + apply bool_decide_eq_false in H. destruct H.
      destruct (a !! v); [eauto|done].
    + destruct (IH H) as (var & ? & ? & ?). exists var. set_solver.
Qed.

Lemma partial_ok_complete c a :
  partial_ok c a → is_complete c a = true → is_solution c a.
Proof.
  intros [Hval Hc] Hcomp. rewrite is_complete_true in Hcomp.
  split; [|split; [|done]].
  - apply set_eq. intros var. rewrite elem_of_dom, elem_of_list_to_set.
    split; [|by apply Hcomp]. intros [x Hx]. by apply Hval in Hx as [? _].
  - intros var value Hx. by apply Hval in Hx as [_ ?].
Qed.

Lemma partial_ok_insert c a var value D :
  no_self_edge c → partial_ok c a →
  var ∈ variables c → domains c !! var = Some D → value ∈ D →
  is_consistent c value var a = true →
  partial_ok c (<[var := value]> a).
Proof.
  intros Hno [Hval Hc] Hvar HD HvD Hcons. rewrite is_consistent_true in Hcons.
  split.
  - intros X x. rewrite lookup_insert. case_decide; [|by apply Hval].
    intros [= <-]. subst. eauto.
  - intros X Y x y. rewrite !lookup_insert.
    case_decide as HX; case_decide as HY; subst; intros HX' HY'; simplify_eq.
    + by apply violates_self.
    + apply Hcons; [|done]. by apply Hval in HY' as [? _].
    + rewrite violates_sym. apply Hcons; [|done]. by apply Hval in HX' as [? _].
    + by eapply Hc.
Qed.

Lemma unassigned_insert c a var value :
  var ∈ variables c → a !! var = None →
  (unassigned c (<[var := value]> a) < unassigned c a)%nat.
Proof.
  intros Hvar Hnone. unfold unassigned.
  assert (filter (λ v, <[var:=value]> a !! v = None) (variables c)
          = filter (λ v, v ≠ var) (filter (λ v, a !! v = None) (variables c))) as ->.
  { rewrite list_filter_filter. apply list_filter_iff. intros v.
    rewrite lookup_insert. case_decide; naive_solver. }
  apply (length_filter_lt _ _ var); [|naive_solver].
  by apply list_elem_of_filter.
Qed.

Lemma unassigned_empty c : (unassigned c ∅ ≤ length (variables c))%nat.
Proof. apply length_filter. Qed.

Section Backtrack.
Variable c : CSP.
Hypothesis Hdom : has_domains c.
Hypothesis Hno : no_self_edge c.

Lemma try_values_spec (rec : M search bool) (fuel : nat) var D :
  (∀ s, search_frame s (rec s).1) →
  (∀ s, static_eq c (self_ s) → partial_ok c (assignment_ s) →
        (unassigned c (assignment_ s) < fuel)%nat → backtrack_post c s (rec s)) →
  var ∈ variables c → domains c !! var = Some D →
  ∀ values s,
    values ⊆ D → static_eq c (self_ s) → partial_ok c (assignment_ s) →
    assignment_ s !! var = None →
    (unassigned c (assignment_ s) ≤ fuel)%nat →
    match try_values rec var values s with
    | (s', Ret true) =>
        assignment_ s ⊆ assignment_ s' ∧ is_solution c (assignment_ s')
    | (s', Ret false) =>
        assignment_ s' = assignment_ s ∧
        (∀ b value, is_solution c b → assignment_ s ⊆ b →
                    b !! var = Some value → value ∉ values) ∧
        (fail_counter (self_ s) < fail_counter (self_ s'))%nat
    | (_, Raise _) => False
    end.
Proof.
  intros Hframe Hrec Hvar HD.
  induction values as [|value values IH]; intros s Hsub Hst Hok Hnone Hfuel; simpl.
  { munfold. simpl. split; [done|]. split; [|lia]. intros. apply not_elem_of_nil. }
  assert (values ⊆ D) as Hsub' by set_solver.
  assert (value ∈ D) as HvD by set_solver.
  munfold. rewrite (is_consistent_static c) by done.
  destruct (is_consistent c value var (assignment_ s)) eqn:Hcons.
  - set (s1 := on_assignment _ s).
    pose proof (Hframe s1) as Hfr1.
    assert (backtrack_post c s1 (rec s1)) as Hpost.
    { apply Hrec; [done| |].
      - by eapply partial_ok_insert.
      - simpl. pose proof (unassigned_insert c (assignment_ s) var value Hvar Hnone). lia. }
    destruct (rec s1) as [s2 [[]|e]]; simpl in *; [| |done].
    + destruct Hpost as [Hsub1 Hsol]. split; [|done].
      etrans; [|exact Hsub1]. by apply insert_subseteq.
    + destruct Hpost as (Ha2 & Hnosol & Hfail).
      unfold delitem. munfold. rewrite Ha2, lookup_insert_eq. simpl.
      set (s3 := on_assignment (delete var) s2).
      assert (assignment_ s3 = assignment_ s) as Ha3.
      { simpl. rewrite Ha2. rewrite delete_insert_eq. by apply delete_id. }
      assert (search_frame s s3) as Hfr3.
      { destruct Hfr1 as (?&?&?&?&?). by repeat split. }
      specialize (IH s3 Hsub'). rewrite !Ha3 in IH.
      specialize (IH (static_eq_trans _ _ _ Hst (search_frame_static _ _ Hfr3))
                     Hok Hnone Hfuel).
      destruct (try_values rec var values s3) as [s4 [[]|e]]; [done| |done].
      destruct IH as (Ha4 & Hnone4 & Hfail4). split; [done|]. split.
      * intros b v Hsol Hab Hbv. apply not_elem_of_cons. split; [|by eapply Hnone4].
        intros ->. apply (Hnosol b Hsol). by apply insert_subseteq_l.
      * simpl in *. lia.
  - specialize (IH s Hsub' Hst Hok Hnone Hfuel).
    destruct (try_values rec var values s) as [s4 [[]|e]]; [done| |done].
    destruct IH as (Ha4 & Hnone4 & Hfail4). split; [done|]. split; [|done].
    intros b v Hsol Hab Hbv. apply not_elem_of_cons. split; [|by eapply Hnone4].
    intros ->. apply not_true_iff_false in Hcons. apply Hcons.
    apply is_consistent_true. intros neighbor nv Hin Hnv.
    destruct Hsol as (_ & _ & Hc). apply Hc; [done|].
    by eapply lookup_weaken.
Qed.

Lemma backtrack_spec fuel s :
  static_eq c (self_ s) → partial_ok c (assignment_ s) →
  (unassigned c (assignment_ s) < fuel)%nat →
  backtrack_post c s (backtrack fuel s).
Proof.
  revert s. induction fuel as [|fuel IH]; intros s Hst Hok Hfuel; [lia|].
  simpl. munfold. simpl.
  rewrite (is_complete_static c) by done.
  destruct (is_complete c (assignment_ s)) eqn:Hcomp.
  { simpl. split; [done|]. by apply partial_ok_complete. }
  rewrite (select_static c), (order_static c) by done.
  destruct (select_unassigned_Some c _ Hcomp) as (var & -> & Hvar & Hnone).
  pose proof Hdom as Hd. unfold has_domains in Hd. rewrite Forall_forall in Hd.
  destruct (Hd var Hvar) as [D HD]. simpl. munfold. rewrite HD.
  set (s0 := on_self incr_backtrack_counter s).
  pose proof (try_values_spec (backtrack fuel) fuel var D
                (backtrack_frame fuel) IH Hvar HD D s0) as Hspec.
  simpl in Hspec. specialize (Hspec ltac:(done) Hst Hok Hnone ltac:(lia)).
  destruct (try_values (backtrack fuel) var D s0) as [s' [[]|e]]; simpl; [done| |done].
  destruct Hspec as (Ha & Hnosol & Hfail). split; [done|]. split; [|done].
  intros b Hsol Hab.
  destruct (is_solution_variable c b var Hsol Hvar) as (x & D' & Hx & HD' & HxD).
  simplify_eq. by eapply Hnosol.
Qed.

Lemma backtracking_search_spec :
  match backtracking_search c with
  | (c', Ret (Some a)) => is_solution c a
  | (c', Ret None) => (∀ b, ¬ is_solution c b) ∧ (0 < fail_counter c')%nat
  | (_, Raise _) => False
  end.
Proof.
  unfold backtracking_search.
  assert (backtrack_post c (mkSearch c ∅)
            (backtrack (S (length (variables c))) (mkSearch c ∅))) as H.
  { apply backtrack_spec.
    - done.
    - split; simpl; intros *; by rewrite lookup_empty.
    - pose proof (unassigned_empty c). simpl. lia. }
  unfold backtrack_post in H.
  destruct (backtrack (S (length (variables c))) _) as [s' [[]|e]]; [| |done].
  - by destruct H.
  - destruct H as (_ & Hnosol & Hfail). simpl in *. split; [|lia].
    intros b Hsol. apply (Hnosol b Hsol), map_empty_subseteq.
Qed.

End Backtrack.
(** ** What [revise] leaves behind *)

Lemma supported_iff c Xi Xj x Dj :
  supported c Xi Xj x Dj = true ↔ ∃ y, y ∈ Dj ∧ (x, y) ∈ allowed c Xi Xj.
Proof.
  unfold supported, allowed. rewrite existsb_exists. split.
  - intros (y & Hin & Hb). exists y. split; [by apply list_elem_of_In|].
    by apply bool_decide_eq_true in Hb.
  - intros (y & Hin & Hb). exists y. split; [by apply list_elem_of_In|].
    by apply bool_decide_eq_true.
Qed.

Lemma supported_false_subseteq c Xi Xj x D D' :
  D' ⊆ D → supported c Xi Xj x D = false → supported c Xi Xj x D' = false.
Proof.
  intros Hsub H. apply not_true_iff_false. intros H'.
  apply not_true_iff_false in H. apply H.
  apply supported_iff in H' as (y & ? & ?). apply supported_iff.
  exists y. split; [by apply Hsub|done].
Qed.

Lemma sym_allowed c a b x y :
  sym_constraints c → is_Some (binary_constraints c !! (b, a)) →
  (x, y) ∈ allowed c a b → (y, x) ∈ allowed c b a.
Proof.
  intros Hsym [Sba Hba]. unfold allowed. rewrite Hba. simpl.
  destruct (binary_constraints c !! (a, b)) as [Sab|] eqn:Hab; simpl.
  - by eapply Hsym.
  - by intros ?%not_elem_of_empty.
Qed.

Lemma allowed_is_Some c a b x y :
  (x, y) ∈ allowed c a b → is_Some (binary_constraints c !! (a, b)).
Proof.
  unfold allowed. destruct (binary_constraints c !! (a, b)); [eauto|].
  by intros ?%not_elem_of_empty.
Qed.

Lemma shrinks_dom_of s s' X : shrinks s s' → dom_of s' X ⊆ dom_of s X.
Proof.
  intros [Hdom Hsub]. unfold dom_of.
  destruct (domains s' !! X) as [D'|] eqn:H'; simpl; [|by intros ? ?%elem_of_nil].
  assert (is_Some (domains s !! X)) as [D H].
  { apply elem_of_dom. rewrite <- Hdom. apply elem_of_dom. eauto. }
  rewrite H. simpl. apply sublist_subseteq. by eapply Hsub.
Qed.

Lemma set_domains_id c Di Xi :
  domains c !! Xi = Some Di → set_domains (<[Xi := Di]> (domains c)) c = c.
Proof. intros H. rewrite insert_id by done. by destruct c. Qed.

Lemma allowed_frame c c' Xi Xj :
  binary_constraints c' = binary_constraints c →
  allowed c' Xi Xj = allowed c Xi Xj.
Proof. unfold allowed. by intros ->. Qed.

(** Once a value was removed the answer is [True]. *)
Lemma revise_loop_true Xi Xj copy :
  ∀ c c' revised', revise_loop Xi Xj copy true c = (c', Ret revised') →
                   revised' = true.
Proof.
  induction copy as [|x copy IH]; intros c c' revised'; simpl.
  { munfold. by intros [= _ <-]. }
  munfold. destruct (domains c !! Xj) as [Dj|]; simpl; [|done].
  destruct (supported c Xi Xj x Dj); [by apply IH|].
  destruct (domains c !! Xi) as [Di|]; simpl; [|done].
  destruct (decide (x ∈ Di)); [|done]. simpl. by apply IH.
Qed.

(** The answer [False] means that nothing was removed. *)
Lemma revise_loop_false Xi Xj copy :
  ∀ revised c c', revise_loop Xi Xj copy revised c = (c', Ret false) →
                  c' = c ∧ revised = false.
Proof.
  induction copy as [|x copy IH]; intros revised c c'; simpl.
  { munfold. by intros [= <- <-]. }
  munfold. destruct (domains c !! Xj) as [Dj|]; simpl; [|done].
  destruct (supported c Xi Xj x Dj); [by apply IH|].
  destruct (domains c !! Xi) as [Di|]; simpl; [|done].
  destruct (decide (x ∈ Di)); [|done]. simpl.
  by intros ?%revise_loop_true.
Qed.

(** The answer [True] means that the domain of [Xi] lost a value. *)
Lemma revise_loop_shorter Xi Xj copy :
  ∀ revised c c' Di,
    domains c !! Xi = Some Di →
    revise_loop Xi Xj copy revised c = (c', Ret true) →
    revised = true ∨
    ∃ Di', domains c' !! Xi = Some Di' ∧ (length Di' < length Di)%nat.
Proof.
  induction copy as [|x copy IH]; intros revised c c' Di HDi; simpl.
  { munfold. intros [= <- <-]. by left. }
  munfold. destruct (domains c !! Xj) as [Dj|]; simpl; [|done].
  destruct (supported c Xi Xj x Dj); [by apply IH|].
  rewrite HDi. simpl. destruct (decide (x ∈ Di)) as [Hx|]; [|done]. simpl.
  set (c1 := set_domains _ c). intros Hloop. right.
  pose proof (revise_loop_steps Xi Xj copy true c1) as Hsteps.
  rewrite Hloop in Hsteps. simpl in Hsteps.
  destruct (rtc_prune_shrinks _ _ _ _ Hsteps) as [Hdom Hsub].
  assert (domains c1 !! Xi = Some (remove_value x Di)) as HD1
    by (by apply lookup_discard_eq).
  assert (is_Some (domains c' !! Xi)) as [Di' HDi'].
  { apply elem_of_dom. rewrite Hdom. apply elem_of_dom. eauto. }
  exists Di'. split; [done|].
  pose proof (sublist_length _ _ (Hsub _ _ _ HD1 HDi')) as Hle.
  pose proof (length_filter_lt (λ y, y ≠ x) Di x Hx) as Hlt.
  unfold remove_value in *. specialize (Hlt ltac:(naive_solver)). lia.
Qed.

(** What a call of [revise] that returns has done. *)
Lemma revise_outcome Xi Xj c c' revised :
  revise Xi Xj c = (c', Ret revised) →
  ∃ Di Di' : list Z,
    domains c !! Xi = Some Di ∧ domains c' !! Xi = Some Di' ∧
    Di' `sublist_of` Di ∧
    if revised then (length Di' < length Di)%nat else c' = c.
Proof.
  intros Hrev. pose proof (revise_steps Xi Xj c) as Hsteps.
  rewrite Hrev in Hsteps. simpl in Hsteps.
  destruct (rtc_prune_shrinks _ _ _ _ Hsteps) as [Hdom Hsub].
  unfold revise in Hrev. munfold.
  destruct (domains c !! Xi) as [Di|] eqn:HDi; simpl in Hrev; [|done].
  assert (is_Some (domains c' !! Xi)) as [Di' HDi'].
  { apply elem_of_dom. rewrite Hdom. apply elem_of_dom. eauto. }
  exists Di, Di'. do 2 (split; [done|]). split; [by eapply Hsub|].
  destruct revised.
  - destruct (revise_loop_shorter _ _ _ _ _ _ _ HDi Hrev) as [?|(D & HD & Hlt)];
      [done|]. by simplify_eq.
  - by destruct (revise_loop_false _ _ _ _ _ _ Hrev).
Qed.

(** The shape of the result when no set is shared: only the domain of [Xi]
    changed, to a sublist, and [revised] tells whether it lost a value. *)
Lemma revise_loop_shape Xi Xj copy :
  ∀ revised c c' revised' Di,
    unshared c →
    domains c !! Xi = Some Di →
    revise_loop Xi Xj copy revised c = (c', Ret revised') →
    ∃ Di', c' = set_domains (<[Xi := Di']> (domains c)) c ∧
           Di' `sublist_of` Di ∧
           (revised' = false → revised = false ∧ Di' = Di) ∧
           (revised' = true → revised = true ∨ (length Di' < length Di)%nat).
Proof.
  induction copy as [|x copy IH]; intros revised c c' revised' Di Hun HDi; simpl.
  { munfold. intros [= <- <-]. exists Di.
    rewrite set_domains_id by done. repeat split; auto. }
  munfold. destruct (domains c !! Xj) as [Dj|]; simpl; [|done].
  destruct (supported c Xi Xj x Dj); [by apply IH|].
  rewrite HDi. simpl. destruct (decide (x ∈ Di)) as [Hx|]; [|done]. simpl.
  rewrite (discard_unshared c Xi x Di Hun HDi).
  intros H. eapply (IH _ _ _ _ (remove_value x Di)) in H.
  2:{ eapply unshared_frame; [| |exact Hun]; [done|]. simpl.
      rewrite dom_insert_L. apply elem_of_dom_2 in HDi. set_solver. }
  2:{ simpl. by rewrite lookup_insert_eq. }
  destruct H as (D' & -> & Hsub & Hf & Ht). exists D'.
  split. { unfold set_domains. simpl. by rewrite insert_insert_eq. }
  split. { etrans; [done|]. apply sublist_filter. }
  split. { intros ->. by destruct (Hf eq_refl). }
  intros _. right. apply sublist_length in Hsub.
  pose proof (length_filter_lt (λ y, y ≠ x) Di x Hx) as Hlt.
  unfold remove_value in *. specialize (Hlt ltac:(naive_solver)). lia.
Qed.

Lemma revise_shape Xi Xj c c' revised :
  unshared c →
  revise Xi Xj c = (c', Ret revised) →
  ∃ Di Di', domains c !! Xi = Some Di ∧
            c' = set_domains (<[Xi := Di']> (domains c)) c ∧
            Di' `sublist_of` Di ∧
            if revised then (length Di' < length Di)%nat else Di' = Di.
Proof.
  intros Hun. unfold revise. munfold.
  destruct (domains c !! Xi) as [Di|] eqn:HDi; simpl; [|done].
  intros H. apply (revise_loop_shape _ _ _ _ _ _ _ Di Hun HDi) in H
    as (Di' & -> & Hsub & Hf & Ht).
  exists Di, Di'. repeat split; [done|].
  destruct revised.
  - by destruct (Ht eq_refl).
  - by destruct (Hf eq_refl).
Qed.

(** The support of the values: [K] are the values of the copy already seen
    and kept.  When [Xj] holds the set of [Xi], a value kept may lose the
    partner it had; the sets of allowed pairs must then be symmetric. *)
Lemma revise_loop_support Xi Xj copy :
  ∀ K revised c c' revised' Di,
    coherent c →
    (domain_id c Xj = domain_id c Xi → is_Some (domains c !! Xj) →
     ∀ x y, (x, y) ∈ allowed c Xi Xj → (y, x) ∈ allowed c Xi Xj) →
    domains c !! Xi = Some Di →
    Di ⊆ (K ++ copy)%list →
    (∀ k, k ∈ K → k ∈ Di → supported c Xi Xj k (dom_of c Xj) = true) →
    revise_loop Xi Xj copy revised c = (c', Ret revised') →
    (∀ x, x ∈ dom_of c' Xi → supported c' Xi Xj x (dom_of c' Xj) = true) ∧
    (∀ x, x ∈ Di → x ∉ dom_of c' Xi →
          supported c' Xi Xj x (dom_of c' Xj) = false).
Proof.
  induction copy as [|x copy IH];
    intros K revised c c' revised' Di Hco Hswap HDi HK Hsup; simpl.
  { munfold. intros [= <- <-]. unfold dom_of at 1 3. rewrite HDi. simpl. split.
    - intros x Hx. apply Hsup; [|done]. apply HK in Hx. by rewrite app_nil_r in Hx.
    - by intros x Hx Hx'. }
  munfold. destruct (domains c !! Xj) as [Dj|] eqn:HDj; simpl; [|done].
  assert (dom_of c Xj = Dj) as HdomXj by (unfold dom_of; by rewrite HDj).
  assert (domain_id c Xj = domain_id c Xi → is_Some (domains c !! Xj) →
          ∀ x y, (x, y) ∈ allowed c Xi Xj → (y, x) ∈ allowed c Xi Xj) as Hswap'
    by (intros ? _; apply Hswap; eauto).
  destruct (supported c Xi Xj x Dj) eqn:Hx.
  { apply (IH (K ++ [x])%list _ c c' _ Di Hco Hswap' HDi).
    - by rewrite <- app_assoc.
    - intros k [Hk|Hk%list_elem_of_singleton]%elem_of_app Hin; [by apply Hsup|].
      subst k. by rewrite HdomXj. }
  rewrite HDi. simpl. destruct (decide (x ∈ Di)) as [HxDi|]; [|done]. simpl.
  set (c1 := set_domains _ c). intros Hloop.
  assert (domains c1 !! Xi = Some (remove_value x Di)) as HD1
    by (by apply lookup_discard_eq).
  assert (binary_constraints c1 = binary_constraints c) as Hbc1 by done.
  assert (dom_of c1 Xj ⊆ Dj) as HsubXj.
  { unfold c1. rewrite dom_of_discard, HdomXj. case_decide; [|done].
    intros y Hy. by apply list_elem_of_filter in Hy as [_ ?]. }
  pose proof (revise_loop_steps Xi Xj copy true c1) as Hsteps.
  rewrite Hloop in Hsteps. simpl in Hsteps.
  pose proof (rtc_prune_frame _ _ _ _ Hsteps) as (_ & Hbc' & _).
  pose proof (rtc_prune_shrinks _ _ _ _ Hsteps) as Hshr.
  apply (IH K) with (Di := remove_value x Di) in Hloop as [HP2 HP1].
  - split; [done|]. intros z Hz Hz'.
    destruct (decide (z = x)) as [->|Hzx].
    + rewrite (supported_frame c).
      2:{ by rewrite Hbc', Hbc1. }
      eapply supported_false_subseteq; [|exact Hx].
      etrans; [by apply shrinks_dom_of|done].
    + apply HP1; [|done]. apply list_elem_of_filter. done.
  - by apply coherent_discard.
  - intros Hid [Dj1 HDj1]. rewrite (allowed_frame c) by done.
    apply Hswap; [done|eauto].
  - done.
  - intros y Hy. apply list_elem_of_filter in Hy as [Hyx Hy].
    apply HK, elem_of_app in Hy as [Hy|Hy]; apply elem_of_app; [by left|].
    apply elem_of_cons in Hy as [->|Hy]; [done|by right].
  - intros k Hk HkD. apply list_elem_of_filter in HkD as [Hkx HkD].
    specialize (Hsup k Hk HkD). rewrite HdomXj in Hsup.
    apply supported_iff in Hsup as (y & Hy & Hky).
    rewrite (supported_frame c) by done. apply supported_iff.
    unfold c1. rewrite dom_of_discard, HdomXj. case_decide as Hid.
    + exists y. split; [|done]. apply list_elem_of_filter. split; [|done].
      intros ->. apply not_true_iff_false in Hx. apply Hx.
      apply supported_iff. exists k. split.
      * by rewrite (Hco Xj Xi Dj Di Hid HDj HDi).
      * apply Hswap; [done|eauto|done].
    + eauto.
Qed.

Lemma revise_post Xi Xj c c' revised :
  coherent c →
  (domain_id c Xj = domain_id c Xi → is_Some (domains c !! Xj) →
   ∀ x y, (x, y) ∈ allowed c Xi Xj → (y, x) ∈ allowed c Xi Xj) →
  revise Xi Xj c = (c', Ret revised) →
  arc_consistent c' (Xi, Xj) ∧
  (∀ x, x ∈ dom_of c Xi → x ∉ dom_of c' Xi →
        supported c' Xi Xj x (dom_of c' Xj) = false).
Proof.
  intros Hco Hswap. unfold revise. munfold.
  destruct (domains c !! Xi) as [Di|] eqn:HDi; simpl; [|done].
  intros H.
  apply (revise_loop_support _ _ _ [] _ _ _ _ Di Hco Hswap HDi) in H.
  - unfold arc_consistent, dom_of at 3. rewrite HDi. simpl. done.
  - done.
  - by intros k ?%elem_of_nil.
Qed.

(** When no set is shared, the symmetry of the constraints is enough. *)
Lemma revise_post_unshared Xi Xj c c' revised :
  sym_constraints c → unshared c → revise Xi Xj c = (c', Ret revised) →
  arc_consistent c' (Xi, Xj) ∧
  (∀ x, x ∈ dom_of c Xi → x ∉ dom_of c' Xi →
        supported c' Xi Xj x (dom_of c' Xj) = false).
Proof.
  intros Hsym Hun Hrev. apply (revise_post Xi Xj c c' revised); [| |done].
  - by apply unshared_coherent.
  - intros Hid HXj x y Hxy.
    pose proof (revise_outcome _ _ _ _ _ Hrev) as (Di & _ & HDi & _).
    assert (Xj = Xi) as -> by (apply Hun; eauto).
    apply sym_allowed; [done| |done]. by eapply allowed_is_Some.
Qed.


(** ** The invariant of the [ac_3] loop *)

Lemma dom_of_set_domains_eq c Xi D :
  dom_of (set_domains (<[Xi := D]> (domains c)) c) Xi = D.
Proof. unfold dom_of. simpl. by rewrite lookup_insert_eq. Qed.

Lemma dom_of_set_domains_ne c Xi D X :
  X ≠ Xi → dom_of (set_domains (<[Xi := D]> (domains c)) c) X = dom_of c X.
Proof. intros. unfold dom_of. simpl. by rewrite lookup_insert_ne. Qed.

Lemma sym_constraints_frame c c' :
  binary_constraints c' = binary_constraints c →
  sym_constraints c → sym_constraints c'.
Proof. unfold sym_constraints. by intros ->. Qed.

(** The queue after a round, when no set is shared: the arcs into [Xi] come
    back, the others are still consistent. *)
Lemma queue_inv_revised Xi Xj queue c c1 :
  sym_constraints c → unshared c → arc c (Xi, Xj) →
  queue_inv ((Xi, Xj) :: queue) c →
  revise Xi Xj c = (c1, Ret true) →
  queue_inv (queue ++ arcs_to c1 Xi Xj) c1.
Proof.
  intros Hsym Hun Harc Hinv Hrev.
  destruct (revise_post_unshared _ _ _ _ _ Hsym Hun Hrev) as [Hcons Hgone].
  destruct (revise_shape _ _ _ _ _ Hun Hrev) as (Di & Di' & HDi & -> & Hsub & Hlen).
  set (c1 := set_domains _ c) in *.
  assert (dom_of c Xi = Di) as HdXi by (unfold dom_of; by rewrite HDi).
  intros [P Q] HPQ.
  destruct (decide ((P, Q) = (Xi, Xj))) as [[= -> ->]|Hne]; [by right|].
  assert (arc c (P, Q)) as HPQ' by exact HPQ.
  destruct (Hinv _ HPQ') as [Hin|Hold].
  { left. apply elem_of_cons in Hin as [?|?]; [done|]. apply elem_of_app. by left. }
  destruct (decide (Q = Xi)) as [->|HQ].
  - destruct (decide (P = Xj)) as [->|HP].
    + right. assert (Xj ≠ Xi) as Hji by congruence.
      intros y Hy. simpl in *. unfold c1 in Hy.
      rewrite dom_of_set_domains_ne in Hy by done.
      specialize (Hold y Hy). simpl in Hold. rewrite HdXi in Hold.
      apply supported_iff in Hold as (x & Hx & Hyx).
      rewrite (supported_frame c) by done. apply supported_iff.
      exists x. split; [|done]. unfold c1. rewrite dom_of_set_domains_eq.
      destruct (decide (x ∈ Di')) as [|Hx']; [done|]. exfalso.
      specialize (Hgone x). rewrite HdXi in Hgone. unfold c1 in Hgone at 1.
      rewrite dom_of_set_domains_eq in Hgone. specialize (Hgone Hx Hx').
      apply not_true_iff_false in Hgone. apply Hgone.
      rewrite (supported_frame c) by done. apply supported_iff.
      exists y. split.
      * unfold c1. by rewrite dom_of_set_domains_ne.
      * apply sym_allowed; [done| |done]. apply Harc.
    + left. apply elem_of_app. right. unfold arcs_to.
      apply list_elem_of_bind. exists P. split; [|apply HPQ].
      rewrite decide_True; [by apply list_elem_of_singleton|].
      split; [done|]. apply HPQ.
  - right. intros x Hx. simpl in *.
    assert (x ∈ dom_of c P) as Hx'.
    { unfold c1 in Hx. destruct (decide (P = Xi)) as [->|HP].
      - rewrite dom_of_set_domains_eq in Hx. rewrite HdXi.
        by eapply sublist_subseteq.
      - by rewrite dom_of_set_domains_ne in Hx. }
    specialize (Hold x Hx'). simpl in Hold.
    rewrite (supported_frame c) by done.
    unfold c1. by rewrite dom_of_set_domains_ne.
Qed.

Lemma ac_3_loop_consistent fuel :
  ∀ queue c c',
    sym_constraints c → unshared c → Forall (arc c) queue → queue_inv queue c →
    ac_3_loop fuel queue c = (c', Ret true) →
    ∀ a, arc c' a → arc_consistent c' a.
Proof.
  induction fuel as [|fuel IH]; intros queue c c' Hsym Hun Hq Hinv; simpl; [done|].
  destruct queue as [|[Xi Xj] queue].
  { munfold. intros [= <-] a Ha. destruct (Hinv a Ha) as [?%elem_of_nil|?]; done. }
  apply Forall_cons in Hq as [Harc Hq].
  unfold mbind at 1, M_bind at 1.
  destruct (revise Xi Xj c) as [c1 [revised|e]] eqn:Hrev; [|done].
  pose proof (revise_steps Xi Xj c) as Hsteps. rewrite Hrev in Hsteps.
  pose proof (rtc_prune_frame _ _ _ _ Hsteps) as Hfr. simpl in Hfr.
  assert (sym_constraints c1) as Hsym1.
  { eapply sym_constraints_frame; [|done]. apply Hfr. }
  assert (unshared c1) as Hun1 by (by eapply rtc_prune_unshared).
  assert (Forall (arc c1) queue) as Hq1.
  { eapply Forall_impl; [done|]. intros a. by apply arc_frame. }
  destruct revised.
  - munfold. destruct (domains c1 !! Xi) as [Di1|]; simpl; [|done].
    case_decide; [intros; congruence|]. intros Hloop.
    apply (IH (queue ++ arcs_to c1 Xi Xj)%list c1 c'); [done|done| | |done].
    + apply Forall_app. split; [exact Hq1|]. apply arcs_to_arc.
      destruct Hfr as [-> _]. apply Harc.
    + exact (queue_inv_revised Xi Xj queue c c1 Hsym Hun Harc Hinv Hrev).
  - intros Hloop. apply (IH queue c1 c'); [done..| |done].
    destruct (revise_post_unshared _ _ _ _ _ Hsym Hun Hrev) as [Hcons _].
    destruct (revise_shape _ _ _ _ _ Hun Hrev) as (Di & Di' & HDi & Hc1 & _ & ->).
    rewrite set_domains_id in Hc1 by done. subst c1.
    intros a Ha. destruct (Hinv a Ha) as [Hin|?]; [|by right].
    apply elem_of_cons in Hin as [->|?]; [by right|by left].
Qed.



Lemma ac_3_consistent c c' :
  sym_constraints c → unshared c → ac_3 c = (c', Ret true) →
  ∀ a, arc c' a → arc_consistent c' a.
Proof.
  intros Hsym Hun. unfold ac_3. intros Hrun.
  apply (ac_3_loop_consistent (ac_3_fuel c) (initial_arcs c) c c' Hsym Hun
           (initial_arcs_arc c)); [|done].
  intros a Ha. left. unfold initial_arcs. destruct a as [Xi Xj].
  destruct Ha as (HXi & HXj & Hbc). simpl in *.
  apply list_elem_of_bind. exists Xi. split; [|done].
  apply list_elem_of_bind. exists Xj. split; [|done].
  rewrite decide_True by done. by apply list_elem_of_singleton.
Qed.


(** ** What the constructor builds *)

Lemma add_pairs_elem value1 D2 acc x y :
  (x, y) ∈ add_pairs value1 D2 acc ↔
  (x, y) ∈ acc ∨ (x ≠ y ∧ ((x = value1 ∧ y ∈ D2) ∨ (y = value1 ∧ x ∈ D2))).
Proof.
  unfold add_pairs. revert acc. induction D2 as [|value2 D2 IH]; intros acc; simpl.
  { split; [by left|]. intros [?|(_ & [[_ H]|[_ H]])]; [done|..];
      by apply elem_of_nil in H. }
  rewrite IH. case_decide as Hne.
  - rewrite !elem_of_union, !elem_of_singleton, !elem_of_cons. naive_solver.
  - rewrite !elem_of_cons. naive_solver.
Qed.

Lemma init_pairs_elem doms variable2 D1 :
  ∀ acc pairs,
    init_pairs doms variable2 D1 acc = Ret pairs →
    ∀ x y, (x, y) ∈ pairs ↔
           (x, y) ∈ acc ∨ neq_pairs D1 (default [] (doms !! variable2)) (x, y).
Proof.
  unfold neq_pairs. induction D1 as [|value1 D1 IH]; intros acc pairs; simpl.
  { intros [= <-] x y. split; [by left|].
    intros [?|(_ & [[H _]|[H _]])]; [done|..]; by apply elem_of_nil in H. }
  munfold. destruct (doms !! variable2) as [D2|] eqn:HD2; simpl; [|done].
  intros H x y. rewrite (IH _ _ H x y), add_pairs_elem, !elem_of_cons. simpl.
  naive_solver.
Qed.

Lemma init_constraints_built doms edges :
  ∀ bc0 bc, built_from doms bc0 →
            init_constraints doms edges bc0 = Ret bc → built_from doms bc.
Proof.
  induction edges as [|[variable1 variable2] edges IH]; intros bc0 bc Hb; simpl.
  { by intros [= <-]. }
  munfold. destruct (doms !! variable1) as [D1|] eqn:HD1; simpl; [|done].
  destruct (init_pairs doms variable2 D1 ∅) as [pairs|] eqn:Hp; [|done].
  apply IH. intros a b pairs'. rewrite lookup_insert. case_decide as Hk.
  - intros [= <-]. injection Hk as <- <-. split; [eauto|].
    intros x y. rewrite (init_pairs_elem _ _ _ _ _ Hp), HD1. simpl.
    split; [|by right]. by intros [?%not_elem_of_empty|?].
  - apply Hb.
Qed.

(** The keys are the declared edges, each in the order it was declared. *)
Lemma init_constraints_keys doms edges :
  ∀ bc0 bc, init_constraints doms edges bc0 = Ret bc →
            ∀ e, is_Some (bc !! e) ↔ e ∈ edges ∨ is_Some (bc0 !! e).
Proof.
  induction edges as [|[variable1 variable2] edges IH]; intros bc0 bc; simpl.
  { intros [= <-] e. split; [by right|]. by intros [?%elem_of_nil|?]. }
  munfold. destruct (doms !! variable1) as [D1|] eqn:HD1; simpl; [|done].
  destruct (init_pairs doms variable2 D1 ∅) as [pairs|] eqn:Hp; [|done].
  intros H e. rewrite (IH _ _ H e), lookup_insert, elem_of_cons.
  case_decide; subst; [|naive_solver].
  split; [intros _; left; by left|eauto].
Qed.

Lemma init_inv variables0 doms ids edges c :
  init variables0 doms ids edges = Ret c →
  variables c = variables0 ∧ domains c = doms ∧
  backtrack_counter c = 0 ∧ fail_counter c = 0 ∧
  built_from doms (binary_constraints c) ∧
  ∀ e, is_Some (binary_constraints c !! e) ↔ e ∈ edges.
Proof.
  unfold init. munfold.
  destruct (init_constraints doms edges ∅) as [bc|] eqn:Hbc; [|done].
  intros [= <-]. simpl. do 4 (split; [done|]). split.
  - eapply init_constraints_built; [|done]. intros a b pairs.
    by rewrite lookup_empty.
  - intros e. rewrite (init_constraints_keys _ _ _ _ Hbc e), lookup_empty.
    split; [|by left]. by intros [?|[? ?]].
Qed.

Lemma init_ids variables0 doms ids edges c :
  init variables0 doms ids edges = Ret c → domain_id c = ids.
Proof.
  unfold init. munfold.
  destruct (init_constraints doms edges ∅) as [bc|]; [|done]. by intros [= <-].
Qed.

(** The pairs the constructor allows do not depend on the order of the two
    values. *)
Lemma built_swap c doms a b x y :
  built_from doms (binary_constraints c) →
  (x, y) ∈ allowed c a b → (y, x) ∈ allowed c a b.
Proof.
  intros Hb. unfold allowed.
  destruct (binary_constraints c !! (a, b)) as [pairs|] eqn:Hab; [|done].
  simpl. destruct (Hb _ _ _ Hab) as [_ Hpairs]. rewrite !Hpairs.
  unfold neq_pairs. simpl. naive_solver.
Qed.

Lemma built_sym c doms :
  built_from doms (binary_constraints c) → sym_constraints c.
Proof.
  intros Hb a b Sab Sba x y Hab Hba Hxy.
  destruct (Hb _ _ _ Hab) as [_ Hab']. destruct (Hb _ _ _ Hba) as [_ Hba'].
  apply Hba'. apply Hab' in Hxy. unfold neq_pairs in *. simpl in *.
  destruct Hxy as [? [[? ?]|[? ?]]]; split; auto.
Qed.

Lemma built_keys c :
  built_from (domains c) (binary_constraints c) → keys_have_domain c.
Proof. intros Hb a b [pairs Hab]. by destruct (Hb _ _ _ Hab). Qed.

Lemma init_sym variables0 doms ids edges c :
  init variables0 doms ids edges = Ret c → sym_constraints c ∧ keys_have_domain c.
Proof.
  intros (_ & Hd & _ & _ & Hb & _)%init_inv. split.
  - by eapply built_sym.
  - apply built_keys. by rewrite Hd.
Qed.

(** ** The loop of [ac_3] ends *)

Lemma arcs_to_length c Xi Xj :
  (length (arcs_to c Xi Xj) ≤ length (variables c))%nat.
Proof.
  unfold arcs_to. induction (variables c) as [|Xk vs IH]; [done|].
  rewrite bind_cons, length_app. case_decide; simpl in *; lia.
Qed.

Lemma revise_loop_raise Xi Xj copy :
  ∀ revised c c' e, revise_loop Xi Xj copy revised c = (c', Raise e) → e = KeyError.
Proof.
  induction copy as [|x copy IH]; intros revised c c' e; simpl; [done|].
  munfold. destruct (domains c !! Xj) as [Dj|]; simpl; [|congruence].
  destruct (supported c Xi Xj x Dj); [by apply IH|].
  destruct (domains c !! Xi) as [Di|]; simpl; [|congruence].
  destruct (decide (x ∈ Di)); [|congruence]. simpl. by apply IH.
Qed.

Lemma revise_raise Xi Xj c c' e : revise Xi Xj c = (c', Raise e) → e = KeyError.
Proof.
  unfold revise. munfold. destruct (domains c !! Xi); simpl; [|congruence].
  apply revise_loop_raise.
Qed.

Lemma total_size_lookup (m : gmap string (list Z)) Xi D :
  m !! Xi = Some D → total_size m = (length D + total_size (delete Xi m))%nat.
Proof.
  intros Hm. unfold total_size.
  by rewrite (map_fold_delete_L _ _ Xi D m); [|intros; simpl; lia|done].
Qed.

(** Domains that only shrink hold fewer values. *)
Lemma total_size_le (m : gmap string (list Z)) :
  ∀ m' : gmap string (list Z),
    dom m' = dom m →
    (∀ k D D', m !! k = Some D → m' !! k = Some D' → length D' ≤ length D) →
    total_size m' ≤ total_size m.
Proof.
  induction m as [|i D m Hi _ IH] using map_first_key_ind; intros m' Hdom Hle.
  { rewrite dom_empty_L in Hdom. apply dom_empty_inv_L in Hdom as ->. done. }
  assert (is_Some (m' !! i)) as [D' HD'].
  { apply elem_of_dom. rewrite Hdom, dom_insert_L. set_solver. }
  rewrite (total_size_lookup m' i D' HD').
  rewrite (total_size_lookup (<[i := D]> m) i D) by apply lookup_insert_eq.
  rewrite delete_insert_eq, (delete_id m i) by done.
  pose proof (Hle i D D' ltac:(apply lookup_insert_eq) HD').
  assert (total_size (delete i m') ≤ total_size m); [|lia].
  apply IH.
  - rewrite dom_delete_L, Hdom, dom_insert_L.
    apply not_elem_of_dom in Hi. set_solver.
  - intros k E E' HE HE'. apply lookup_delete_Some in HE' as [Hne HE'].
    apply (Hle k); [|done]. by rewrite lookup_insert_ne.
Qed.

Lemma total_size_lt (m m' : gmap string (list Z)) Xi D D' :
  dom m' = dom m →
  (∀ k E E', m !! k = Some E → m' !! k = Some E' → length E' ≤ length E) →
  m !! Xi = Some D → m' !! Xi = Some D' → length D' < length D →
  total_size m' < total_size m.
Proof.
  intros Hdom Hle HD HD' Hlt.
  rewrite (total_size_lookup m Xi D HD), (total_size_lookup m' Xi D' HD').
  assert (total_size (delete Xi m') ≤ total_size (delete Xi m)); [|lia].
  apply total_size_le.
  - by rewrite !dom_delete_L, Hdom.
  - intros k E E' [Hne HE]%lookup_delete_Some [_ HE']%lookup_delete_Some.
    by eapply Hle.
Qed.

Lemma ac_3_loop_terminates fuel :
  ∀ queue c,
    (length queue + total_size (domains c) * length (variables c) < fuel)%nat →
    (ac_3_loop fuel queue c).2 ≠ Raise OutOfFuel.
Proof.
  induction fuel as [|fuel IH]; intros queue c Hfuel; [lia|]. simpl.
  destruct queue as [|[Xi Xj] queue]; [done|]. simpl in Hfuel.
  unfold mbind at 1, M_bind at 1.
  destruct (revise Xi Xj c) as [c1 [revised|e]] eqn:Hrev.
  2:{ apply revise_raise in Hrev. by subst e. }
  pose proof (revise_steps Xi Xj c) as Hsteps. rewrite Hrev in Hsteps.
  simpl in Hsteps.
  pose proof (rtc_prune_frame _ _ _ _ Hsteps) as (Hv & _).
  destruct (rtc_prune_shrinks _ _ _ _ Hsteps) as [Hdom Hsub].
  destruct (revise_outcome _ _ _ _ _ Hrev) as (Di & Di' & HDi & HDi' & _ & Hout).
  destruct revised.
  - munfold. simpl. rewrite HDi'. simpl.
    case_decide; [done|]. apply IH.
    assert (total_size (domains c1) < total_size (domains c)) as Hsize.
    { apply (total_size_lt _ _ Xi Di Di'); [done| |done..].
      intros k E E' HE HE'. apply sublist_length. by eapply Hsub. }
    pose proof (arcs_to_length c1 Xi Xj) as Ha.
    rewrite length_app, Hv. rewrite Hv in Ha. nia.
  - subst c1. apply IH. lia.
Qed.

Lemma ac_3_terminates c : (ac_3 c).2 ≠ Raise OutOfFuel.
Proof. unfold ac_3. apply ac_3_loop_terminates. unfold ac_3_fuel. lia. Qed.
(** ** [alldiff] *)

Lemma bind_seq_lookup_total {A B} `{!Inhabited A} (f : A → B) (l : list A) :
  (seq 0 (length l) ≫= λ j, [f (l !!! j)]) = f <$> l.
Proof.
  induction l as [|x l IH]; [done|].
  simpl. rewrite <- fmap_S_seq, list_fmap_bind. f_equal. exact IH.
Qed.

(** The comprehension, read along the list: the head is paired with every
    later variable, then the tail is treated the same way. *)
Lemma alldiff_cons x xs :
  alldiff (x :: xs) = ((λ y, (x, y)) <$> xs) ++ alldiff xs.
Proof.
  unfold alldiff. destruct xs as [|x' xs]; [done|].
  set (n := length xs).
  change (length (x :: x' :: xs)) with (S (S n)).
  change (length (x' :: xs)) with (S n).
  replace (S (S n) - 1) with (S n) by lia.
  replace (S n - 1) with n by lia.
  change (seq 0 (S n)) with (0 :: seq 1 n).
  rewrite bind_cons. f_equal.
  - change (seq (0 + 1) (S (S n) - (0 + 1))) with (seq 1 (length (x' :: xs))).
    rewrite <- fmap_S_seq, list_fmap_bind.
    apply (bind_seq_lookup_total (λ y, (x, y)) (x' :: xs)).
  - rewrite <- fmap_S_seq, list_fmap_bind. apply list_bind_ext; [|done].
    intros i. unfold compose.
    change (seq (S i + 1) (S (S n) - (S i + 1)))
      with (seq (S (i + 1)) (S n - (i + 1))).
    by rewrite <- fmap_S_seq, list_fmap_bind.
Qed.

Lemma alldiff_nil : alldiff [] = [].
Proof. reflexivity. Qed.

Lemma alldiff_length_double vs :
  2 * length (alldiff vs) = length vs * (length vs - 1).
Proof.
  induction vs as [|x xs IH]; [done|].
  rewrite alldiff_cons, length_app, length_fmap. simpl length.
  rewrite Nat.sub_succ, Nat.sub_0_r. nia.
Qed.

Lemma alldiff_elem vs a b :
  (a, b) ∈ alldiff vs ↔ ∃ i j, i < j ∧ vs !! i = Some a ∧ vs !! j = Some b.
Proof.
  induction vs as [|x xs IH].
  { rewrite alldiff_nil. split; [by intros ?%elem_of_nil|].
    by intros (i & j & _ & ? & _). }
  rewrite alldiff_cons, elem_of_app, list_elem_of_fmap, IH. split.
  - intros [(y & [= -> ->] & Hy)|(i & j & Hij & Hi & Hj)].
    + apply list_elem_of_lookup in Hy as [j Hj]. exists 0, (S j).
      split; [lia|done].
    + exists (S i), (S j). split; [lia|done].
  - intros (i & j & Hij & Hi & Hj). destruct j as [|j]; [lia|]. simpl in Hj.
    destruct i as [|i]; simpl in Hi.
    + left. simplify_eq. exists b. split; [done|].
      apply list_elem_of_lookup. eauto.
    + right. exists i, j. split; [lia|done].
Qed.

Lemma alldiff_NoDup vs : NoDup vs → NoDup (alldiff vs).
Proof.
  induction 1 as [|x xs Hx Hxs IH]; [by rewrite alldiff_nil; constructor|].
  rewrite alldiff_cons. apply NoDup_app. split; [|split; [|done]].
  - by apply (NoDup_fmap_2 _).
  - intros [a b] (y & [= -> ->] & Hy)%list_elem_of_fmap
      (i & j & _ & Hi & _)%alldiff_elem.
    apply Hx. apply list_elem_of_lookup. eauto.
Qed.
(** * Properties of the adversarial searches *)

(** ** The order on values *)

Lemma value_ltb_true a b : value_ltb a b = true ↔ vlt a b.
Proof.
  unfold vlt, value_ltb. destruct a, b; simpl; try case_bool_decide;
    split; intros; try done; lia.
Qed.

Lemma value_ltb_false a b : value_ltb a b = false ↔ ¬ vlt a b.
Proof. rewrite <- value_ltb_true. by destruct (value_ltb a b). Qed.

Lemma value_leb_true a b : value_leb a b = true ↔ ¬ vlt b a.
Proof. unfold value_leb. by rewrite negb_true_iff, value_ltb_false. Qed.

Lemma value_leb_false a b : value_leb a b = false ↔ vlt b a.
Proof. unfold value_leb. by rewrite negb_false_iff, value_ltb_true. Qed.

Lemma value_eq a b : a = b ↔ tag a = tag b ∧ val a = val b.
Proof. destruct a, b; simpl; split; intros; try done; try lia; naive_solver. Qed.

Lemma tag_val v :
  (tag v = -1 ∧ val v = 0 ∨ tag v = 0 ∨ tag v = 1 ∧ val v = 0)%Z.
Proof. destruct v; simpl; lia. Qed.

Lemma value_max_tag a b :
  value_max a b = if value_ltb a b then b else a.
Proof. done. Qed.

(** Order facts, by linear arithmetic on kinds and numbers. *)
Ltac vprep :=
  unfold value_max, value_min in *;
  repeat match goal with
         | H : context [value_ltb ?a ?b] |- _ =>
             first [ rewrite value_ltb_true in H | rewrite value_ltb_false in H
                   | destruct (value_ltb a b) eqn:? ]
         | H : context [value_leb ?a ?b] |- _ =>
             first [ rewrite value_leb_true in H | rewrite value_leb_false in H
                   | destruct (value_leb a b) eqn:? ]
         | |- context [value_ltb ?a ?b] =>
             first [ rewrite value_ltb_true | rewrite value_ltb_false
                   | destruct (value_ltb a b) eqn:? ]
         | |- context [value_leb ?a ?b] =>
             first [ rewrite value_leb_true | rewrite value_leb_false
                   | destruct (value_leb a b) eqn:? ]
         end.

Ltac vlia_core :=
  vprep; unfold vlt in *;
  repeat match goal with
         | H : @eq value _ _ |- _ => apply value_eq in H
         | |- @eq value _ _ => apply value_eq
         end;
  simpl tag in *; simpl val in *; lia.

(** [vlia - H1 ... Hn] decides the goal from the listed facts only. *)
Tactic Notation "vlia" := vlia_core.
Tactic Notation "vlia" "-" ne_hyp_list(Hs) := clear - Hs; vlia_core.

Section AlphaBeta.
Context {State Action : Type}.
Variable game : Game State Action.
Variable player : Z.

(** The minimax loops return, with a value on the right side of the one
    they started from. *)
Lemma max_loop_total child child_ab state acts :
  children_ok game child child_ab state acts →
  ∀ v mv, (∃ z, v = Fin z) ∨ (v = NegInf ∧ acts ≠ []) →
          ∃ z m, max_loop game child state acts v mv = Ret (Fin z, m) ∧
                 ¬ vlt (Fin z) v.
Proof.
  induction 1 as [|a acts (next & Hres & (zc & mc & Hc & _)) Hacts IH];
    intros v mv Hv.
  { destruct Hv as [[z ->]|[_ ?]]; [|done]. exists z, mv. split; [done|vlia]. }
  simpl. rewrite Hres. simpl. rewrite Hc. simpl.
  destruct (value_ltb v (Fin zc)) eqn:Hlt.
  - destruct (IH (Fin zc) (Act a)) as (z & m & -> & Hge); [eauto|].
    exists z, m. split; [done|vlia].
  - assert (∃ z0, v = Fin z0) as [z0 ->].
    { destruct Hv as [?|[-> _]]; [done|]. vlia. }
    destruct (IH (Fin z0) mv) as (z & m & -> & Hge); [eauto|].
    exists z, m. by split.
Qed.

Lemma min_loop_total child child_ab state acts :
  children_ok game child child_ab state acts →
  ∀ v mv, (∃ z, v = Fin z) ∨ (v = PosInf ∧ acts ≠ []) →
          ∃ z m, min_loop game child state acts v mv = Ret (Fin z, m) ∧
                 ¬ vlt v (Fin z).
Proof.
  induction 1 as [|a acts (next & Hres & (zc & mc & Hc & _)) Hacts IH];
    intros v mv Hv.
  { destruct Hv as [[z ->]|[_ ?]]; [|done]. exists z, mv. split; [done|vlia]. }
  simpl. rewrite Hres. simpl. rewrite Hc. simpl.
  destruct (value_ltb (Fin zc) v) eqn:Hlt.
  - destruct (IH (Fin zc) (Act a)) as (z & m & -> & Hge); [eauto|].
    exists z, m. split; [done|vlia].
  - assert (∃ z0, v = Fin z0) as [z0 ->].
    { destruct Hv as [?|[-> _]]; [done|]. vlia. }
    destruct (IH (Fin z0) mv) as (z & m & -> & Hge); [eauto|].
    exists z, m. by split.
Qed.

Lemma tag_Fin v : tag v = 0%Z → v = Fin (val v).
Proof. by destruct v. Qed.

(** The loop of [max_value_ab] against the loop of [max_value]: [v] and [w]
    are the best values so far, [α0] the bound the call received. *)
Lemma max_loop_ab_ok child child_ab state α0 β :
  vlt α0 β →
  ∀ acts, children_ok game child child_ab state acts →
  ∀ v mv w mw α,
    α = value_max α0 w →
    vlt w β →
    (¬ vlt α0 v ∧ ¬ vlt α0 w) ∨ (vlt α0 v ∧ w = v ∧ mw = Some mv) →
    (tag w = 0%Z ∧ is_Some mw) ∨ (tag w = (-1)%Z ∧ acts ≠ []) →
    tag v = 0%Z ∨ (tag v = (-1)%Z ∧ acts ≠ []) →
    ∃ z m z' m',
      max_loop game child state acts v mv = Ret (Fin z, m) ∧
      max_loop_ab game child_ab state acts w mw α β = Ret (Fin z', m') ∧
      window_ok α0 β z m z' m'.
Proof.
  intros Hαβ acts Hch.
  induction Hch as [|a acts (next & Hres & (zc & mc & Hc & Hab)) Hacts IH];
    intros v mv w mw α Hα Hwβ Hrel Hw Hv.
  { destruct Hw as [[Hw [m' ->]]|[_ ?]]; [|done].
    destruct Hv as [Hv|[_ ?]]; [|done].
    apply tag_Fin in Hw, Hv. simpl. exists (val v), mv, (val w), m'.
    rewrite <- Hv, <- Hw. split; [done|]. split; [done|].
    unfold window_ok. rewrite <- Hv, <- Hw. clear Hv Hw.
    destruct Hrel as [[Hv0 Hw0]|(Hv0 & -> & ?)].
    - split; [done|]. split; [done|]. intros Hn. exfalso. vlia - Hn Hv0 Hαβ.
    - simplify_eq. split; [done|]. split; [done|]. done. }
  simpl. rewrite Hres. simpl. rewrite Hc. simpl.
  assert (vlt α β) as Hαβ' by (vlia - Hα Hαβ Hwβ).
  destruct (Hab α β Hαβ') as (zc' & mc' & Hcab & Hlow & Hex & Hhigh).
  assert (vlt α (Fin zc) → vlt (Fin zc) β → zc' = zc) as Hexz
    by (intros; by apply Hex).
  clear Hex Hab. rewrite Hcab. simpl.
  destruct (value_ltb α (Fin zc)) eqn:Hαc;
    [destruct (value_ltb (Fin zc) β) eqn:Hcβ|].
  - (* the child's value lies inside the window *)
    assert (zc' = zc) as -> by (apply Hexz; [vlia - Hαc|vlia - Hcβ]).
    clear Hlow Hexz Hhigh.
    assert (value_ltb w (Fin zc) = true) as ->
      by (apply value_ltb_true; vlia - Hα Hαc).
    assert (value_ltb v (Fin zc) = true) as ->.
    { apply value_ltb_true.
      destruct Hrel as [[Hv0 Hw0]|(Hv0 & -> & _)]; [vlia - Hα Hαc Hv0|vlia - Hα Hαc]. }
    assert (value_leb β (Fin zc) = false) as ->
      by (apply value_leb_false; vlia - Hcβ).
    apply IH.
    + vlia - Hα Hαc.
    + vlia - Hcβ.
    + right. split; [vlia - Hα Hαc|done].
    + left. split; [done|eauto].
    + by left.
  - (* the child's value reaches [β]: the loop of [max_value_ab] stops *)
    assert (¬ vlt (Fin zc') β) as Hc'β by (apply Hhigh; vlia - Hcβ).
    clear Hlow Hexz Hhigh.
    assert (value_ltb w (Fin zc') = true) as ->
      by (apply value_ltb_true; vlia - Hwβ Hc'β).
    assert (value_leb β (Fin zc') = true) as ->
      by (by apply value_leb_true).
    assert (value_ltb v (Fin zc) = true) as ->.
    { apply value_ltb_true.
      destruct Hrel as [[Hv0 Hw0]|(Hv0 & -> & _)];
        [vlia - Hαβ Hcβ Hv0|vlia - Hwβ Hcβ]. }
    simpl.
    destruct (max_loop_total child child_ab state acts Hacts (Fin zc) (Act a))
      as (z & m & Hm & Hge); [eauto|].
    rewrite Hm. exists z, m, zc', (Act a). split; [done|]. split; [done|].
    split; [intros Hn; exfalso; vlia - Hn Hge Hcβ Hαβ|].
    split; [intros _ Hn; exfalso; vlia - Hn Hge Hcβ|done].
  - (* the child's value stays below the window *)
    assert (¬ vlt α (Fin zc')) as Hc'α by (apply Hlow; vlia - Hαc).
    clear Hlow Hexz Hhigh.
    destruct Hrel as [[Hv0 Hw0]|(Hv0 & -> & ->)].
    + assert (α = α0) as -> by (vlia - Hα Hw0). clear Hα.
      assert (∀ w', ¬ vlt α0 w' → value_leb β w' = false) as Hcut.
      { intros w' Hw'. apply value_leb_false. vlia - Hw' Hαβ. }
      apply value_ltb_false in Hαc.
      assert (tag w = (-1)%Z → value_ltb w (Fin zc') = true) as Htw.
      { intros Ht. apply value_ltb_true. vlia - Ht. }
      assert (tag v = (-1)%Z → value_ltb v (Fin zc) = true) as Htv.
      { intros Ht. apply value_ltb_true. vlia - Ht. }
      destruct (value_ltb w (Fin zc')) eqn:Hwc;
        destruct (value_ltb v (Fin zc)) eqn:Hvc;
        rewrite Hcut by done; apply IH.
      * done.
      * vlia - Hαβ Hc'α.
      * by left.
      * left. split; [done|eauto].
      * by left.
      * done.
      * vlia - Hαβ Hc'α.
      * by left.
      * left. split; [done|eauto].
      * left. destruct Hv as [?|[Hv _]]; [done|]. by apply Htv in Hv.
      * vlia - Hw0.
      * done.
      * by left.
      * left. destruct Hw as [?|[Hw _]]; [done|]. by apply Htw in Hw.
      * by left.
      * vlia - Hw0.
      * done.
      * by left.
      * left. destruct Hw as [?|[Hw _]]; [done|]. by apply Htw in Hw.
      * left. destruct Hv as [?|[Hv _]]; [done|]. by apply Htv in Hv.
    + assert (α = v) as -> by (vlia - Hα Hv0). clear Hα.
      assert (value_ltb v (Fin zc') = false) as ->
        by (by apply value_ltb_false).
      assert (value_ltb v (Fin zc) = false) as ->
        by (apply value_ltb_false; vlia - Hαc).
      assert (value_leb β v = false) as ->
        by (by apply value_leb_false).
      pose proof (tag_val α0) as Hα0. pose proof (tag_val v) as Hv1.
      apply IH; [vlia - Hv0|done|by right| |].
      * left. destruct Hw as [?|[Hw _]]; [done|]. exfalso. vlia - Hw Hv0 Hα0 Hv1.
      * left. destruct Hv as [?|[Hv _]]; [done|]. exfalso. vlia - Hv Hv0 Hα0 Hv1.
Qed.

(** The same for the loop of [min_value_ab], with the roles of the two
    bounds exchanged. *)
Lemma min_loop_ab_ok child child_ab state α β0 :
  vlt α β0 →
  ∀ acts, children_ok game child child_ab state acts →
  ∀ v mv w mw β,
    β = value_min β0 w →
    vlt α w →
    (¬ vlt v β0 ∧ ¬ vlt w β0) ∨ (vlt v β0 ∧ w = v ∧ mw = Some mv) →
    (tag w = 0%Z ∧ is_Some mw) ∨ (tag w = 1%Z ∧ acts ≠ []) →
    tag v = 0%Z ∨ (tag v = 1%Z ∧ acts ≠ []) →
    ∃ z m z' m',
      min_loop game child state acts v mv = Ret (Fin z, m) ∧
      min_loop_ab game child_ab state acts w mw α β = Ret (Fin z', m') ∧
      window_ok α β0 z m z' m'.
Proof.
  intros Hαβ acts Hch.
  induction Hch as [|a acts (next & Hres & (zc & mc & Hc & Hab)) Hacts IH];
    intros v mv w mw β Hβ Hwα Hrel Hw Hv.
  { destruct Hw as [[Hw [m' ->]]|[_ ?]]; [|done].
    destruct Hv as [Hv|[_ ?]]; [|done].
    apply tag_Fin in Hw, Hv. simpl. exists (val v), mv, (val w), m'.
    rewrite <- Hv, <- Hw. split; [done|]. split; [done|].
    unfold window_ok. rewrite <- Hv, <- Hw. clear Hv Hw.
    destruct Hrel as [[Hv0 Hw0]|(Hv0 & -> & ?)].
    - split; [intros Hn; exfalso; vlia - Hn Hv0 Hαβ|].
      split; [intros _ Hn; by destruct Hv0|done].
    - simplify_eq. split; [done|]. split; [done|]. done. }
  simpl. rewrite Hres. simpl. rewrite Hc. simpl.
  assert (vlt α β) as Hαβ' by (vlia - Hβ Hαβ Hwα).
  destruct (Hab α β Hαβ') as (zc' & mc' & Hcab & Hlow & Hex & Hhigh).
  assert (vlt α (Fin zc) → vlt (Fin zc) β → zc' = zc) as Hexz
    by (intros; by apply Hex).
  clear Hex Hab. rewrite Hcab. simpl.
  destruct (value_ltb (Fin zc) β) eqn:Hcβ;
    [destruct (value_ltb α (Fin zc)) eqn:Hαc|].
  - (* the child's value lies inside the window *)
    assert (zc' = zc) as -> by (apply Hexz; [vlia - Hαc|vlia - Hcβ]).
    clear Hlow Hexz Hhigh.
    assert (value_ltb (Fin zc) w = true) as ->
      by (apply value_ltb_true; vlia - Hβ Hcβ).
    assert (value_ltb (Fin zc) v = true) as ->.
    { apply value_ltb_true.
      destruct Hrel as [[Hv0 Hw0]|(Hv0 & -> & _)]; [vlia - Hβ Hcβ Hv0|vlia - Hβ Hcβ]. }
    assert (value_leb (Fin zc) α = false) as ->
      by (apply value_leb_false; vlia - Hαc).
    apply IH.
    + vlia - Hβ Hcβ.
    + vlia - Hαc.
    + right. split; [vlia - Hβ Hcβ|done].
    + left. split; [done|eauto].
    + by left.
  - (* the child's value falls to [α]: the loop of [min_value_ab] stops *)
    assert (¬ vlt α (Fin zc')) as Hc'α by (apply Hlow; vlia - Hαc).
    clear Hlow Hexz Hhigh.
    assert (value_ltb (Fin zc') w = true) as ->
      by (apply value_ltb_true; vlia - Hwα Hc'α).
    assert (value_leb (Fin zc') α = true) as ->
      by (by apply value_leb_true).
    assert (value_ltb (Fin zc) v = true) as ->.
    { apply value_ltb_true.
      destruct Hrel as [[Hv0 Hw0]|(Hv0 & -> & _)];
        [vlia - Hαβ Hαc Hv0|vlia - Hwα Hαc]. }
    simpl.
    destruct (min_loop_total child child_ab state acts Hacts (Fin zc) (Act a))
      as (z & m & Hm & Hge); [eauto|].
    rewrite Hm. exists z, m, zc', (Act a). split; [done|]. split; [done|].
    split; [done|].
    split; [intros Hn _; exfalso; vlia - Hn Hge Hαc
           |intros Hn; exfalso; vlia - Hn Hge Hαc Hαβ].
  - (* the child's value stays above the window *)
    assert (¬ vlt (Fin zc') β) as Hc'β by (apply Hhigh; vlia - Hcβ).
    clear Hlow Hexz Hhigh.
    destruct Hrel as [[Hv0 Hw0]|(Hv0 & -> & ->)].
    + assert (β = β0) as -> by (vlia - Hβ Hw0). clear Hβ.
      assert (∀ w', ¬ vlt w' β0 → value_leb w' α = false) as Hcut.
      { intros w' Hw'. apply value_leb_false. vlia - Hw' Hαβ. }
      apply value_ltb_false in Hcβ.
      assert (tag w = 1%Z → value_ltb (Fin zc') w = true) as Htw.
      { intros Ht. apply value_ltb_true. vlia - Ht. }
      assert (tag v = 1%Z → value_ltb (Fin zc) v = true) as Htv.
      { intros Ht. apply value_ltb_true. vlia - Ht. }
      destruct (value_ltb (Fin zc') w) eqn:Hwc;
        destruct (value_ltb (Fin zc) v) eqn:Hvc;
        rewrite Hcut by done; apply IH.
      * done.
      * vlia - Hαβ Hc'β.
      * by left.
      * left. split; [done|eauto].
      * by left.
      * done.
      * vlia - Hαβ Hc'β.
      * by left.
      * left. split; [done|eauto].
      * left. destruct Hv as [?|[Hv _]]; [done|]. by apply Htv in Hv.
      * vlia - Hw0.
      * done.
      * by left.
      * left. destruct Hw as [?|[Hw _]]; [done|]. by apply Htw in Hw.
      * by left.
      * vlia - Hw0.
      * done.
      * by left.
      * left. destruct Hw as [?|[Hw _]]; [done|]. by apply Htw in Hw.
      * left. destruct Hv as [?|[Hv _]]; [done|]. by apply Htv in Hv.
    + assert (β = v) as -> by (vlia - Hβ Hv0). clear Hβ.
      assert (value_ltb (Fin zc') v = false) as ->
        by (by apply value_ltb_false).
      assert (value_ltb (Fin zc) v = false) as ->
        by (apply value_ltb_false; vlia - Hcβ).
      assert (value_leb v α = false) as ->
        by (by apply value_leb_false).
      pose proof (tag_val β0) as Hβ0. pose proof (tag_val v) as Hv1.
      apply IH; [vlia - Hv0|done|by right| |].
      * left. destruct Hw as [?|[Hw _]]; [done|]. exfalso. vlia - Hw Hv0 Hβ0 Hv1.
      * left. destruct Hv as [?|[Hv _]]; [done|]. exfalso. vlia - Hv Hv0 Hβ0 Hv1.
Qed.

Lemma bounded_game_S fuel state :
  bounded_game game player (S fuel) state = true →
  (is_terminal game state = true ∧ ∃ u, utility game state player = Ret u) ∨
  (is_terminal game state = false ∧ actions game state ≠ [] ∧
   ∀ a, a ∈ actions game state →
        ∃ next, result game state a = Ret next ∧ bounded_game game player fuel next = true).
Proof.
  simpl. destruct (is_terminal game state).
  { destruct (utility game state player) as [u|]; [|done]. left. eauto. }
  destruct (actions game state) as [|a0 acts]; [done|].
  intros [H0 H]%andb_prop. rewrite forallb_forall in H.
  right. split; [done|]. split; [done|]. intros a [->|Ha]%elem_of_cons.
  - destruct (result game state a0) as [next|]; [eauto|done].
  - apply list_elem_of_In, H in Ha.
    destruct (result game state a) as [next|]; [eauto|done].
Qed.

(** On a bounded game both searches return, and the alpha-beta answer is
    tied to the minimax answer by the window it was called with. *)
Lemma search_ab_ok fuel :
  ∀ state, bounded_game game player fuel state = true →
    ab_ok (max_value game player fuel state) (max_value_ab game player fuel state) ∧
    ab_ok (min_value game player fuel state) (min_value_ab game player fuel state).
Proof.
  induction fuel as [|fuel IH]; intros state Hb; [done|].
  apply bounded_game_S in Hb as [[Hterm [u Hu]]|(Hterm & Hne & Hb)];
    simpl; rewrite Hterm.
  { rewrite Hu. simpl.
    split; exists u, NoMove; (split; [done|]); intros a b _;
      exists u, NoMove; (split; [done|]); by repeat split. }
  assert (children_ok game (min_value game player fuel) (min_value_ab game player fuel)
            state (actions game state) ∧
          children_ok game (max_value game player fuel) (max_value_ab game player fuel)
            state (actions game state)) as [Hmin Hmax].
  { split; apply Forall_forall; intros a Ha;
      destruct (Hb a Ha) as (next & Hres & Hnext);
      exists next; (split; [done|]); by apply IH. }
  split.
  - destruct (max_loop_total _ _ _ _ Hmin NegInf (InfMove false))
      as (z & m & Hm & _); [by right|].
    exists z, m. split; [done|]. intros a b Hab.
    destruct (max_loop_ab_ok _ _ state a b Hab _ Hmin
                NegInf (InfMove false) NegInf None a)
      as (z1 & m1 & z' & m' & Hm1 & Hab1 & Hwin).
    + pose proof (tag_val a). vlia.
    + pose proof (tag_val a). pose proof (tag_val b). vlia.
    + pose proof (tag_val a). left. split; vlia.
    + by right.
    + by right.
    + rewrite Hm in Hm1. simplify_eq. by exists z', m'.
  - destruct (min_loop_total _ _ _ _ Hmax PosInf (InfMove true))
      as (z & m & Hm & _); [by right|].
    exists z, m. split; [done|]. intros a b Hab.
    destruct (min_loop_ab_ok _ _ state a b Hab _ Hmax
                PosInf (InfMove true) PosInf (Some (InfMove true)) b)
      as (z1 & m1 & z' & m' & Hm1 & Hab1 & Hwin).
    + pose proof (tag_val b). vlia.
    + pose proof (tag_val a). pose proof (tag_val b). vlia.
    + pose proof (tag_val b). left. split; vlia.
    + by right.
    + by right.
    + rewrite Hm in Hm1. simplify_eq. by exists z', m'.
Qed.

Lemma alpha_beta_minimax_value fuel state :
  bounded_game game player fuel state = true →
  ∃ z m, max_value game player fuel state = Ret (Fin z, m) ∧
         max_value_ab game player fuel state NegInf PosInf = Ret (Fin z, m).
Proof.
  intros Hb. destruct (search_ab_ok fuel state Hb) as [(z & m & Hm & Hab) _].
  destruct (Hab NegInf PosInf) as (z' & m' & Hab' & _ & Hex & _); [vlia|].
  destruct Hex as [-> ->]; [vlia..|]. eauto.
Qed.

End AlphaBeta.
(** ** More fuel does not change an answer *)

Section Fuel.
Context {State Action : Type}.
Variable game : Game State Action.
Variable player : Z.

Lemma max_loop_mono (child child' : State → res (value * move Action)) state :
  (∀ s r, child s = Ret r → child' s = Ret r) →
  ∀ acts v mv r,
    max_loop game child state acts v mv = Ret r →
    max_loop game child' state acts v mv = Ret r.
Proof.
  intros Hch. induction acts as [|a acts IH]; intros v mv r; simpl; [done|].
  destruct (result game state a) as [next|]; simpl; [|done].
  destruct (child next) as [rc|] eqn:Hc; simpl; [|done].
  rewrite (Hch _ _ Hc). simpl. destruct (value_ltb v rc.1); apply IH.
Qed.

Lemma min_loop_mono (child child' : State → res (value * move Action)) state :
  (∀ s r, child s = Ret r → child' s = Ret r) →
  ∀ acts v mv r,
    min_loop game child state acts v mv = Ret r →
    min_loop game child' state acts v mv = Ret r.
Proof.
  intros Hch. induction acts as [|a acts IH]; intros v mv r; simpl; [done|].
  destruct (result game state a) as [next|]; simpl; [|done].
  destruct (child next) as [rc|] eqn:Hc; simpl; [|done].
  rewrite (Hch _ _ Hc). simpl. destruct (value_ltb rc.1 v); apply IH.
Qed.

Lemma search_mono_S fuel :
  ∀ state r,
    (max_value game player fuel state = Ret r →
     max_value game player (S fuel) state = Ret r) ∧
    (min_value game player fuel state = Ret r →
     min_value game player (S fuel) state = Ret r).
Proof.
  induction fuel as [|fuel IH]; intros state r; [done|].
  split; intros H.
  - change (max_value game player (S fuel) state) with
      (if is_terminal game state
       then u ← utility game state player; Ret (Fin u, NoMove)
       else max_loop game (min_value game player fuel) state
              (actions game state) NegInf (InfMove false)) in H.
    change (max_value game player (S (S fuel)) state) with
      (if is_terminal game state
       then u ← utility game state player; Ret (Fin u, NoMove)
       else max_loop game (min_value game player (S fuel)) state
              (actions game state) NegInf (InfMove false)).
    destruct (is_terminal game state); [done|].
    eapply max_loop_mono; [|done]. intros s r'. apply IH.
  - change (min_value game player (S fuel) state) with
      (if is_terminal game state
       then u ← utility game state player; Ret (Fin u, NoMove)
       else min_loop game (max_value game player fuel) state
              (actions game state) PosInf (InfMove true)) in H.
    change (min_value game player (S (S fuel)) state) with
      (if is_terminal game state
       then u ← utility game state player; Ret (Fin u, NoMove)
       else min_loop game (max_value game player (S fuel)) state
              (actions game state) PosInf (InfMove true)).
    destruct (is_terminal game state); [done|].
    eapply min_loop_mono; [|done]. intros s r'. apply IH.
Qed.

Lemma max_value_mono fuel fuel' state r :
  fuel ≤ fuel' →
  max_value game player fuel state = Ret r →
  max_value game player fuel' state = Ret r.
Proof.
  induction 1 as [|fuel' _ IH]; [done|].
  intros H. by apply search_mono_S, IH.
Qed.

Lemma minimax_search_mono fuel fuel' state m :
  fuel ≤ fuel' →
  minimax_search game player fuel state = Ret m →
  minimax_search game player fuel' state = Ret m.
Proof.
  intros Hle. unfold minimax_search.
  destruct (max_value game player fuel state) as [r|] eqn:Hr; [|done].
  by rewrite (max_value_mono _ _ _ _ Hle Hr).
Qed.

End Fuel.

(** ** The drivers and the assertions of [utility] *)

Lemma halving_play_mono N fuel fuel' rounds :
  fuel ≤ fuel' →
  ∀ rounds' state played r,
    rounds ≤ rounds' →
    Halving.play N fuel rounds state played = Ret r →
    Halving.play N fuel' rounds' state played = Ret r.
Proof.
  intros Hfuel. induction rounds as [|rounds IH]; intros rounds' state played r Hle;
    [done|].
  destruct rounds' as [|rounds']; [lia|]. simpl.
  destruct (Halving.is_terminal state); [done|].
  destruct (minimax_search (Halving.game N) (Halving.to_move state) fuel state)
    as [m|] eqn:Hm; simpl; [|done].
  rewrite (minimax_search_mono _ _ _ _ _ _ Hfuel Hm). simpl.
  destruct m; [done|..]; apply IH; lia.
Qed.

Lemma halving_utility state player :
  Halving.utility state player =
  if Halving.is_terminal state
  then Ret (if decide (Halving.to_move state = player) then 1 else -1)%Z
  else Raise AssertionError.
Proof. unfold Halving.utility. by destruct (Halving.is_terminal state). Qed.

Lemma bucket_utility state player :
  Bucket.utility state player =
  if Bucket.is_terminal state then
    match state.2 with
    | Bucket.Number n :: _ =>
        Ret (if decide (player = Bucket.to_move state) then n else - n)%Z
    | Bucket.Name _ :: _ => Raise AssertionError
    | [] => Raise IndexError
    end
  else Raise AssertionError.
Proof. unfold Bucket.utility. by destruct (Bucket.is_terminal state). Qed.

Lemma tic_tac_toe_utility state player :
  TicTacToe.utility state player =
  if TicTacToe.is_terminal state then
    Ret (if TicTacToe.is_winner state player then 1
         else if TicTacToe.is_winner state ((player + 1) `mod` 2) then -1
         else 0)%Z
  else Raise AssertionError.
Proof.
  unfold TicTacToe.utility. destruct (TicTacToe.is_terminal state); [|done].
  simpl. by repeat case_match.
Qed.
(** * The properties of the specification *)

(** ** Backtracking search *)

(** C1, as stated, fails on an instance with an edge from a variable to
    itself: [is_consistent] only compares a candidate with the values of the
    variables already assigned, so the constraint on [("X", "X")], which no
    value satisfies, is never tested.  The search returns [{"X": 1}] although
    the instance has no consistent complete assignment. *)
Lemma backtracking_search_self_edge :
  init ["X"] {[ "X" := [1]%Z ]} own_set [("X", "X")] = Ret self_edge ∧
  (backtracking_search self_edge).2 = Ret (Some {[ "X" := 1%Z ]}) ∧
  violates self_edge "X" 1 "X" 1 = true ∧
  (∀ a, ¬ is_solution self_edge a).
Proof.
  split; [by vm_compute|]. split; [by vm_compute|]. split; [by vm_compute|].
  intros a Hsol.
  destruct (is_solution_variable self_edge a "X" Hsol) as (x & D & Hx & HD & HxD).
  { vm_compute. by left. }
  assert (D = [1%Z]) as -> by (vm_compute in HD; congruence).
  apply list_elem_of_singleton in HxD as ->.
  destruct Hsol as (_ & _ & Hc). specialize (Hc "X" "X" 1%Z 1%Z Hx Hx).
  by vm_compute in Hc.
Qed.

(** C1 (amended): for every CSP instance in which every variable has a domain
    and every constraint joins two different variables, a result of
    [backtracking_search] other than [None] assigns exactly the variables of
    the instance, each a value of its domain, and violates no binary
    constraint; if the instance has no consistent complete assignment the
    search returns [None] and leaves [fail_counter] greater than 0; and it
    returns [None] only then. *)
Theorem backtracking_search_correct (self : CSP) :
  has_domains self → no_self_edge self →
  (∀ a, (backtracking_search self).2 = Ret (Some a) → is_solution self a) ∧
  ((∀ a, ¬ is_solution self a) →
   (backtracking_search self).2 = Ret None ∧
   0 < fail_counter (backtracking_search self).1) ∧
  ((backtracking_search self).2 = Ret None → ∀ a, ¬ is_solution self a).
Proof.
  intros Hdom Hno. pose proof (backtracking_search_spec self Hdom Hno) as H.
  destruct (backtracking_search self) as [c' [[a|]|e]]; simpl; [| |done].
  - split; [by intros a' [= <-]|]. split; [|done].
    intros Hnone. by destruct (Hnone a).
  - destruct H as [Hnone Hfail]. split; [done|]. by split.
Qed.

(** The three-colouring instance meets the two conditions, and the assignment
    the search finds for it is a solution. *)
Lemma backtracking_search_correct_witness :
  has_domains three_colouring ∧ no_self_edge three_colouring ∧
  is_solution three_colouring {[ "X" := 1%Z; "Y" := 2%Z; "Z" := 3%Z ]}.
Proof.
  assert (has_domains three_colouring) as Hdom by compute_done.
  assert (no_self_edge three_colouring) as Hno by compute_done.
  split; [exact Hdom|]. split; [exact Hno|].
  apply (backtracking_search_correct three_colouring Hdom Hno).
  vm_compute. reflexivity.
Defined.

(** C10: whatever it returns, [backtracking_search] leaves [variables], every
    domain and [binary_constraints] as they were; only the two counters
    change, and they do not decrease. *)
Theorem backtracking_search_frame (self : CSP) :
  variables (backtracking_search self).1 = variables self ∧
  domains (backtracking_search self).1 = domains self ∧
  binary_constraints (backtracking_search self).1 = binary_constraints self ∧
  backtrack_counter self ≤ backtrack_counter (backtracking_search self).1 ∧
  fail_counter self ≤ fail_counter (backtracking_search self).1.
Proof.
  pose proof (backtracking_search_search_frame self) as (Hv & Hd & Hb & Hbc & Hfc).
  simpl in *. by repeat split.
Qed.

(** ** Arc consistency *)

(** C2, as stated, fails when two variables hold one set, which the
    constructor allows since it keeps the sets it is given.  In [shared_sets]
    the variables [B] and [C] hold the same set [{1, 2}]: [revise] removes
    the value 1 from it for [B], then the value 2 for [C], and [ac_3] returns
    [False] with both domains empty, although [A = 1, B = 2, C = 1] is a
    solution. *)
Lemma ac_3_prunes_a_solution_of_shared_sets :
  init ["A"; "B"; "C"] {[ "A" := [1]%Z; "B" := [1; 2]%Z; "C" := [1; 2]%Z ]}
       (shared_set "B" "C") [("B", "A"); ("C", "B")] = Ret shared_sets ∧
  is_solution shared_sets {[ "A" := 1%Z; "B" := 2%Z; "C" := 1%Z ]} ∧
  (ac_3 shared_sets).2 = Ret false ∧
  domains (ac_3 shared_sets).1 !! "B" = Some [] ∧
  domains (ac_3 shared_sets).1 !! "C" = Some [].
Proof.
  split; [by vm_compute|]. split; [|repeat split; by vm_compute].
  split; [by vm_compute|]. split.
  - intros var value
      [[<- <-]|[_ [[<- <-]|[_ [<- <-]%lookup_singleton_Some]]%lookup_insert_Some]]
        %lookup_insert_Some;
      (eexists; split; [by vm_compute|set_solver]).
  - intros X Y x y
      [[<- <-]|[_ [[<- <-]|[_ [<- <-]%lookup_singleton_Some]]%lookup_insert_Some]]
        %lookup_insert_Some
      [[<- <-]|[_ [[<- <-]|[_ [<- <-]%lookup_singleton_Some]]%lookup_insert_Some]]
        %lookup_insert_Some; by vm_compute.
Qed.

(** C2 (amended): when no two variables hold the same set, [ac_3] keeps the
    solutions of the instance, whatever it answers: the complete consistent
    assignments are the same before and after the run, the run ends, and a
    value it removed from a domain belongs to no solution of the original
    instance. *)
Theorem ac_3_sound (self : CSP) :
  unshared self →
  (∀ a, is_solution self a ↔ is_solution (ac_3 self).1 a) ∧
  (ac_3 self).2 ≠ Raise OutOfFuel ∧
  (∀ var D D' x a,
     domains self !! var = Some D → domains (ac_3 self).1 !! var = Some D' →
     x ∈ D → x ∉ D' → is_solution self a → a !! var ≠ Some x).
Proof.
  intros Hun. pose proof (ac_3_steps self) as Hsteps.
  split; [intros a; by apply rtc_ac_3_step_solutions|].
  split; [apply ac_3_terminates|].
  intros var D D' x a HD HD' HxD HxD' Hsol Ha.
  apply (rtc_ac_3_step_solutions _ _ a Hun Hsteps) in Hsol as (_ & Hval & _).
  destruct (Hval var x Ha) as (D'' & HD'' & Hx). by simplify_eq.
Qed.

(** On [forced], where every variable has a set of its own, the run removes
    the value 1 of [A], which no solution uses. *)
Lemma ac_3_sound_witness :
  domains (ac_3 forced).1 !! "A" = Some [2%Z] ∧
  ∀ a, is_solution forced a ↔ is_solution (ac_3 forced).1 a.
Proof.
  split; [vm_compute; reflexivity|].
  refine (proj1 (ac_3_sound forced _)). apply own_set_unshared. reflexivity.
Defined.

(** C5: the domains after [ac_3] are what is left of the domains before it,
    for every variable; the same holds for a single [revise], and
    [backtracking_search] does not touch the domains. *)
Theorem domains_only_shrink (self : CSP) :
  shrinks self (ac_3 self).1 ∧
  (∀ var D D', domains self !! var = Some D →
               domains (ac_3 self).1 !! var = Some D' → D' ⊆ D) ∧
  (∀ Xi Xj, shrinks self (revise Xi Xj self).1) ∧
  domains (backtracking_search self).1 = domains self.
Proof.
  pose proof (rtc_ac_3_step_shrinks _ _ (ac_3_steps self)) as Hshr.
  split; [done|]. split.
  { intros var D D' HD HD'. apply sublist_subseteq. by eapply Hshr. }
  split; [intros Xi Xj; apply rtc_prune_shrinks with Xi Xj, revise_steps|].
  by pose proof (backtracking_search_search_frame self) as (_ & Hd & _).
Qed.

(** C3 fails on the code, which only ever queues an arc in the order its edge
    was declared.  With the edges [("A", "B")] and [("A", "C")] the queue
    starts without [("B", "A")] and [("C", "A")], nothing is queued after the
    domain of [A] shrank, and [ac_3] answers [True] with the value 2 still in
    the domain of [C], where it conflicts with the only value left for [A]. *)
Example ac_3_follows_declared_order :
  init ["A"; "B"; "C"] {[ "A" := [1; 2]%Z; "B" := [1]%Z; "C" := [1; 2]%Z ]}
       own_set [("A", "B"); ("A", "C")] = Ret one_way ∧
  initial_arcs one_way = [("A", "B"); ("A", "C")] ∧
  (revise "A" "B" one_way).2 = Ret true ∧
  arcs_to (revise "A" "B" one_way).1 "A" "B" = [] ∧
  (ac_3 one_way).2 = Ret true ∧
  domains (ac_3 one_way).1 !! "A" = Some [2%Z] ∧
  domains (ac_3 one_way).1 !! "C" = Some [1%Z; 2%Z] ∧
  violates (ac_3 one_way).1 "C" 2 "A" 2 = true.
Proof. repeat split; by vm_compute. Qed.


(** It fails as well after a run that returned [True] when two variables
    hold one set: in [shared_later] the variables [A] and [B] hold the same
    set, the arc from [D] to [B] is revised before [revise] shrinks that set
    for [A], and nothing puts it back in the queue; the second run removes
    the value 2 of [D]. *)
Lemma ac_3_second_run_prunes_shared_set :
  (ac_3 shared_later).2 = Ret true ∧
  domains (ac_3 shared_later).1 !! "B" = Some [2%Z] ∧
  domains (ac_3 shared_later).1 !! "D" = Some [1%Z; 2%Z] ∧
  domains (ac_3 (ac_3 shared_later).1).1 !! "D" = Some [1%Z].
Proof. repeat split; by vm_compute. Qed.



(** ** [alldiff] *)

(** C7: for a list of [n] distinct variables [alldiff] returns [n (n - 1) / 2]
    edges, without repetition; every edge joins two different variables of
    the list, and of the two orders of a pair of different variables exactly
    one is an edge. *)
Theorem alldiff_pairs (vs : list string) :
  NoDup vs →
  length (alldiff vs) = length vs * (length vs - 1) / 2 ∧
  NoDup (alldiff vs) ∧
  (∀ a b, (a, b) ∈ alldiff vs → a ∈ vs ∧ b ∈ vs ∧ a ≠ b) ∧
  (∀ a b, a ∈ vs → b ∈ vs → a ≠ b →
          ((a, b) ∈ alldiff vs ↔ (b, a) ∉ alldiff vs)).
Proof.
  intros Hvs. split.
  { rewrite <- alldiff_length_double, Nat.mul_comm. by rewrite Nat.div_mul. }
  split; [by apply alldiff_NoDup|]. split.
  - intros a b (i & j & Hij & Hi & Hj)%alldiff_elem.
    split; [apply list_elem_of_lookup; eauto|].
    split; [apply list_elem_of_lookup; eauto|].
    intros ->. pose proof (NoDup_lookup _ _ _ _ Hvs Hi Hj). lia.
  - intros a b [i Hi]%list_elem_of_lookup [j Hj]%list_elem_of_lookup Hab.
    rewrite !alldiff_elem. split.
    + intros (i' & j' & Hlt & Hi' & Hj') (j'' & i'' & Hlt' & Hj'' & Hi'').
      pose proof (NoDup_lookup _ _ _ _ Hvs Hi' Hi'').
      pose proof (NoDup_lookup _ _ _ _ Hvs Hj' Hj''). lia.
    + intros Hnot. destruct (decide (i < j)) as [Hlt|Hge]; [by exists i, j|].
      destruct Hnot. exists j, i. split; [|done].
      assert (i ≠ j) by (intros ->; simplify_eq). lia.
Qed.

(** Three distinct variables give three edges. *)
Lemma alldiff_pairs_witness :
  NoDup ["X"; "Y"; "Z"] ∧ length (alldiff ["X"; "Y"; "Z"]) = 3 ∧
  NoDup (alldiff ["X"; "Y"; "Z"]).
Proof.
  assert (NoDup ["X"; "Y"; "Z"]) as Hvs by compute_done.
  split; [exact Hvs|].
  destruct (alldiff_pairs ["X"; "Y"; "Z"] Hvs) as (Hlen & Hnd & _).
  split; [exact Hlen|exact Hnd].
Defined.
(** ** Game search *)

(** C4: on a game that ends within [fuel] plies from [state], where every
    state met is terminal with a utility or has at least one action,
    [alpha_beta_search] computes the value [minimax_search] computes, the
    minimax value of the state, and it returns the same action; in
    particular the two never choose actions of different values. *)
Theorem alpha_beta_search_minimax {State Action : Type}
    (game : Game State Action) (player : Z) (fuel : nat) (state : State) :
  bounded_game game player fuel state = true →
  ∃ z m, max_value game player fuel state = Ret (Fin z, m) ∧
         max_value_ab game player fuel state NegInf PosInf = Ret (Fin z, m) ∧
         minimax_search game player fuel state = Ret m ∧
         alpha_beta_search game player fuel state = Ret m.
Proof.
  intros Hb.
  destruct (alpha_beta_minimax_value game player fuel state Hb)
    as (z & m & Hm & Hab).
  exists z, m. unfold minimax_search, alpha_beta_search.
  rewrite Hm, Hab. by repeat split.
Qed.

(** From the position [mid_game] tic-tac-toe ends within five plies, and both
    searches find the same winning move for the first player. *)
Lemma alpha_beta_search_minimax_witness :
  bounded_game TicTacToe.game 0 10 mid_game = true ∧
  ∃ z m, max_value TicTacToe.game 0 10 mid_game = Ret (Fin z, m) ∧
         max_value_ab TicTacToe.game 0 10 mid_game NegInf PosInf = Ret (Fin z, m) ∧
         minimax_search TicTacToe.game 0 10 mid_game = Ret m ∧
         alpha_beta_search TicTacToe.game 0 10 mid_game = Ret m.
Proof.
  assert (bounded_game TicTacToe.game 0 10 mid_game = true) as Hb
    by (vm_compute; reflexivity).
  split; [exact Hb|].
  exact (alpha_beta_search_minimax TicTacToe.game 0 10 mid_game Hb).
Defined.

(** C8, as stated, fails for the bucket game: the state [(0, ['A'])] is
    terminal, its list having one entry, and [utility] fails on it, at its
    second assertion. *)
Lemma bucket_utility_on_a_name :
  Bucket.is_terminal (0%Z, [Bucket.Name "A"]) = true ∧
  Bucket.utility (0%Z, [Bucket.Name "A"]) 0 = Raise AssertionError.
Proof. split; reflexivity. Qed.

(** C8 (amended): in the three games [utility] fails with an assertion
    failure on every state that is not terminal.  On a terminal state of the
    halving game and of tic-tac-toe it returns a value; on a terminal state
    of the bucket game it returns a value when the entry left in the list is
    a number, and fails with an assertion failure when it is a name. *)
Theorem utility_asserts_terminal :
  (∀ state player,
     if Halving.is_terminal state
     then ∃ u, Halving.utility state player = Ret u
     else Halving.utility state player = Raise AssertionError) ∧
  (∀ state player,
     if TicTacToe.is_terminal state
     then ∃ u, TicTacToe.utility state player = Ret u
     else TicTacToe.utility state player = Raise AssertionError) ∧
  (∀ state player,
     if Bucket.is_terminal state then
       match state.2 with
       | Bucket.Number n :: _ => ∃ u, Bucket.utility state player = Ret u
       | _ => Bucket.utility state player = Raise AssertionError
       end
     else Bucket.utility state player = Raise AssertionError).
Proof.
  split; [|split]; intros state player.
  - rewrite halving_utility. destruct (Halving.is_terminal state); eauto.
  - rewrite tic_tac_toe_utility. destruct (TicTacToe.is_terminal state); eauto.
  - rewrite bucket_utility.
    destruct (Bucket.is_terminal state) eqn:Hterm; [|done].
    destruct state as [p [|[s|n] rest]]; simpl in *; [done|done|eauto].
Qed.

(** C9, as stated, fails on the number of plies: the play has four actions,
    not five (the expected output shows five states, the first one
    included). *)
Lemma halving_play_has_four_plies :
  ∃ played final,
    Halving.main 5 1000 1000 = Ret (played, final) ∧
    length played = 4 ∧ length played ≠ 5.
Proof.
  exists [Act "--"; Act "--"; Act "/2"; Act "--"], (0, 0)%Z.
  split; [by vm_compute|]. split; [done|]. simpl. lia.
Qed.

(** C9 (amended): in the halving game with [N = 5], when every player to move
    plays the action [minimax_search] returns, the play from the initial
    state reaches a terminal state in exactly 4 plies; the actions are
    [--], [--], [/2], [--], the number is then 0 with Player 1 (player 0) to
    move, and Player 1 has won (utility 1). *)
Theorem halving_optimal_play (fuel rounds : nat) :
  6 ≤ fuel → 5 ≤ rounds →
  Halving.main 5 fuel rounds
  = Ret ([Act "--"; Act "--"; Act "/2"; Act "--"], (0, 0)%Z) ∧
  Halving.is_terminal (0, 0)%Z = true ∧
  Halving.to_move (0, 0)%Z = 0%Z ∧
  Halving.utility (0, 0)%Z 0 = Ret 1%Z.
Proof.
  intros Hfuel Hrounds. split; [|by repeat split].
  unfold Halving.main.
  apply (halving_play_mono 5 6 fuel 5 Hfuel rounds); [done|].
  by vm_compute.
Qed.

(** With Python's default recursion limit as the fuel. *)
Lemma halving_optimal_play_witness :
  6 ≤ 1000 ∧ 5 ≤ 1000 ∧
  Halving.main 5 1000 1000
  = Ret ([Act "--"; Act "--"; Act "/2"; Act "--"], (0, 0)%Z).
Proof.
  assert (6 ≤ 1000) as Hfuel by lia.
  assert (5 ≤ 1000) as Hrounds by lia.
  split; [exact Hfuel|]. split; [exact Hrounds|].
  exact (proj1 (halving_optimal_play 1000 1000 Hfuel Hrounds)).
Defined.
(** * Further properties of csp.py *)

(** ** The constructor *)

(** X1: [__init__] stores the arguments as they are, the dictionary of domains
    with the very sets it holds, starts both counters at 0, and builds one
    entry of [binary_constraints] per declared edge, under the declared
    order: the pairs of different values, one from each of the two domains,
    in both orders. *)
Theorem init_builds_constraints variables0 doms ids edges (c : CSP) :
  init variables0 doms ids edges = Ret c →
  variables c = variables0 ∧ domains c = doms ∧ domain_id c = ids ∧
  backtrack_counter c = 0 ∧ fail_counter c = 0 ∧
  (∀ e, is_Some (binary_constraints c !! e) ↔ e ∈ edges) ∧
  (∀ a b pairs x y,
     binary_constraints c !! (a, b) = Some pairs →
     ((x, y) ∈ pairs ↔
      x ≠ y ∧ ((x ∈ dom_of c a ∧ y ∈ dom_of c b) ∨
               (y ∈ dom_of c a ∧ x ∈ dom_of c b)))).
Proof.
  intros Hinit. pose proof (init_ids _ _ _ _ _ Hinit) as Hids.
  apply init_inv in Hinit as (Hv & Hd & Hb & Hf & Hbuilt & Hkeys).
  do 5 (split; [done|]). split; [done|].
  intros a b pairs x y Hab. destruct (Hbuilt _ _ _ Hab) as [_ Hp].
  unfold dom_of. rewrite Hd. apply Hp.
Qed.

Lemma init_builds_constraints_witness :
  init ["A"; "B"] {[ "A" := [1; 2]%Z; "B" := [1]%Z ]} own_set [("A", "B")]
  = Ret forced ∧
  is_Some (binary_constraints forced !! ("A", "B")) ∧
  ¬ is_Some (binary_constraints forced !! ("B", "A")).
Proof.
  assert (init ["A"; "B"] {[ "A" := [1; 2]%Z; "B" := [1]%Z ]} own_set
               [("A", "B")] = Ret forced) as Hinit by (vm_compute; reflexivity).
  destruct (init_builds_constraints _ _ _ _ _ Hinit)
    as (_ & _ & _ & _ & _ & Hkeys & _).
  split; [exact Hinit|]. split.
  - apply Hkeys. compute_done.
  - intros H%Hkeys. revert H. compute_done.
Defined.

Lemma init_pairs_Ret doms variable2 D1 :
  ∀ acc, (∃ pairs, init_pairs doms variable2 D1 acc = Ret pairs) ↔
         D1 = [] ∨ is_Some (doms !! variable2).
Proof.
  induction D1 as [|value1 D1 IH]; intros acc; simpl.
  { split; [by left|eauto]. }
  munfold. destruct (doms !! variable2) as [D2|] eqn:HD2; simpl.
  - rewrite IH. split; [by right; eauto|]. intros _. by right.
  - split; [by intros [? ?]|]. by intros [?|[? ?]].
Qed.

Lemma init_pairs_Raise doms variable2 D1 :
  ∀ acc e, init_pairs doms variable2 D1 acc = Raise e → e = KeyError.
Proof.
  induction D1 as [|value1 D1 IH]; intros acc e; simpl; [done|].
  munfold. destruct (doms !! variable2); simpl; [apply IH|congruence].
Qed.

Lemma init_constraints_Ret doms edges :
  ∀ bc0, (∃ bc, init_constraints doms edges bc0 = Ret bc) ↔
         Forall (λ e : string * string,
                   ∃ D, doms !! e.1 = Some D ∧ (D = [] ∨ is_Some (doms !! e.2)))
                edges.
Proof.
  induction edges as [|[variable1 variable2] edges IH]; intros bc0; simpl.
  { split; [constructor|eauto]. }
  rewrite Forall_cons. simpl. munfold.
  destruct (doms !! variable1) as [D1|] eqn:HD1; simpl.
  - pose proof (init_pairs_Ret doms variable2 D1 ∅) as Hp.
    destruct (init_pairs doms variable2 D1 ∅) as [pairs|e] eqn:Hpairs.
    + rewrite IH. split; [|tauto]. intros H. split; [|done].
      exists D1. split; [done|]. apply Hp. eauto.
    + split; [by intros [? ?]|]. intros [(D & [= <-] & HD) _].
      apply Hp in HD as [? ?]. done.
  - split; [by intros [? ?]|]. by intros [(D & ? & _) _].
Qed.

Lemma init_constraints_Raise doms edges :
  ∀ bc0 e, init_constraints doms edges bc0 = Raise e → e = KeyError.
Proof.
  induction edges as [|[variable1 variable2] edges IH]; intros bc0 e; simpl; [done|].
  munfold. destruct (doms !! variable1) as [D1|]; simpl; [|congruence].
  destruct (init_pairs doms variable2 D1 ∅) as [pairs|e'] eqn:Hp.
  - apply IH.
  - apply init_pairs_Raise in Hp. congruence.
Qed.

Lemma init_raises_domain_lookup variables0 doms ids edges :
  (∃ c, init variables0 doms ids edges = Ret c) →
  Forall (λ e : string * string,
            ∃ D, doms !! e.1 = Some D ∧ (D = [] ∨ is_Some (doms !! e.2)))
         edges.
Proof.
  unfold init. munfold. intros [c Hc].
  apply (init_constraints_Ret doms edges ∅).
  destruct (init_constraints doms edges ∅) as [bc|e]; [eauto|done].
Qed.

(** X2: The constructor returns an instance exactly when, for every edge, the
    first variable has a domain and, unless that domain is empty, the second
    has one too; otherwise it raises [KeyError].  The variables of the list
    [variables] are not looked up. *)
Theorem init_raises_on_missing_domain variables0 doms ids edges :
  ((∃ c, init variables0 doms ids edges = Ret c) ↔
   Forall (λ e : string * string,
             ∃ D, doms !! e.1 = Some D ∧ (D = [] ∨ is_Some (doms !! e.2)))
          edges) ∧
  (∀ e, init variables0 doms ids edges = Raise e → e = KeyError).
Proof.
  unfold init. munfold. split.
  - rewrite <- (init_constraints_Ret doms edges ∅).
    destruct (init_constraints doms edges ∅) as [bc|e]; split.
    + eauto.
    + eauto.
    + by intros [? ?].
    + by intros [? ?].
  - intros e. destruct (init_constraints doms edges ∅) as [bc|e'] eqn:H; [done|].
    apply init_constraints_Raise in H. congruence.
Qed.

(** ** [revise] *)

Lemma shared_set_coherent c X Y :
  domain_id c = shared_set X Y → domains c !! X = domains c !! Y → coherent c.
Proof.
  intros Hid HXY V W DV DW. rewrite Hid. unfold shared_set.
  repeat case_decide; subst; intros Heq%(inj encode); subst; congruence.
Qed.

(** X3: A call of [revise] that returns changes nothing but the set that [Xi]
    holds: the domain of [Xi] becomes a sublist of itself, no domain gains a
    value, and the variables that hold another set keep their domains, so that
    only the entry of [Xi] changes when no set is shared.  It answers [False]
    exactly when it changed nothing, and [True] exactly when the domain of
    [Xi] lost a value. *)
Theorem revise_changes_only_the_set_of_Xi Xi Xj (c c' : CSP) (revised : bool) :
  revise Xi Xj c = (c', Ret revised) →
  ∃ Di Di' : list Z,
    domains c !! Xi = Some Di ∧ domains c' !! Xi = Some Di' ∧
    Di' `sublist_of` Di ∧
    same_frame c c' ∧ domain_id c' = domain_id c ∧ shrinks c c' ∧
    (∀ var, domain_id c var ≠ domain_id c Xi →
            domains c' !! var = domains c !! var) ∧
    (unshared c → c' = set_domains (<[Xi := Di']> (domains c)) c) ∧
    (revised = false ↔ c' = c) ∧
    (revised = true ↔ length Di' < length Di).
Proof.
  intros H. pose proof (revise_steps Xi Xj c) as Hsteps.
  rewrite H in Hsteps. simpl in Hsteps.
  destruct (revise_outcome _ _ _ _ _ H) as (Di & Di' & HDi & HDi' & Hsub & Hr).
  exists Di, Di'. do 3 (split; [done|]).
  split; [by eapply rtc_prune_frame|]. split; [by eapply rtc_prune_ids|].
  split; [by eapply rtc_prune_shrinks|].
  split; [intros var; by eapply rtc_prune_others|]. split.
  { intros Hun.
    destruct (revise_shape _ _ _ _ _ Hun H) as (D & D' & HD & Hc' & _).
    subst c'. simpl in HDi'. rewrite lookup_insert_eq in HDi'. by simplify_eq. }
  destruct revised.
  - split; split; try done.
    intros ->. simplify_eq. lia.
  - subst c'. simplify_eq. split; split; try done. lia.
Qed.

(** In [shared_sets] the value 1 leaves the set of [B], which [C] holds too;
    [A] keeps its domain. *)
Lemma revise_changes_only_the_set_of_Xi_witness :
  (revise "B" "A" shared_sets).2 = Ret true ∧
  domains (revise "B" "A" shared_sets).1 !! "C" = Some [2%Z] ∧
  domains (revise "B" "A" shared_sets).1 !! "A" = domains shared_sets !! "A".
Proof.
  split; [vm_compute; reflexivity|]. split; [vm_compute; reflexivity|].
  destruct (revise_changes_only_the_set_of_Xi "B" "A" shared_sets
              (revise "B" "A" shared_sets).1 true)
    as (Di & Di' & _ & _ & _ & _ & _ & _ & Hothers & _);
    [vm_compute; reflexivity|].
  apply Hothers. vm_compute. discriminate.
Defined.

(** When [Xj] is another variable that holds the set of [Xi], a value that
    was kept can lose its partner: in [lopsided] the value 1 of [C] is kept
    for its partner 2, which is then removed from the one set, and 1 is left
    without partner. *)
Example revise_shared_partner_lost :
  sym_constraints lopsided ∧ coherent lopsided ∧
  (revise "C" "B" lopsided).2 = Ret true ∧
  dom_of (revise "C" "B" lopsided).1 "C" = [1%Z] ∧
  dom_of (revise "C" "B" lopsided).1 "B" = [1%Z] ∧
  supported (revise "C" "B" lopsided).1 "C" "B" 1 [1%Z] = false.
Proof.
  split; [|split; [|repeat split; by vm_compute]].
  - intros a b Sab Sba x y Hab Hba. simpl in Hab, Hba.
    apply lookup_singleton_Some in Hab as [[= <- <-] _].
    by apply lookup_singleton_Some in Hba as [[=] _].
  - apply (shared_set_coherent _ "B" "C"); vm_compute; reflexivity.
Qed.

(** X4: On an instance whose sets of allowed pairs mirror each other, as the
    constructor builds them, a call of [revise Xi Xj] that returns leaves
    every remaining value of [Xi] with an allowed partner in the domain of
    [Xj], and every value it removed has none there.  The variables that hold
    one set are taken to have the same values; when [Xj] is another variable
    that holds the set of [Xi], the pairs allowed between them must not
    depend on the order of the two values, as is the case for the pairs the
    constructor builds. *)
Theorem revise_makes_arc_consistent Xi Xj (c c' : CSP) (revised : bool) :
  sym_constraints c → coherent c →
  (Xi ≠ Xj → domain_id c Xj = domain_id c Xi →
   ∀ x y, (x, y) ∈ allowed c Xi Xj → (y, x) ∈ allowed c Xi Xj) →
  revise Xi Xj c = (c', Ret revised) →
  (∀ x, x ∈ dom_of c' Xi →
        ∃ y, y ∈ dom_of c' Xj ∧ (x, y) ∈ allowed c' Xi Xj) ∧
  (∀ x y, x ∈ dom_of c Xi → x ∉ dom_of c' Xi →
          y ∈ dom_of c' Xj → (x, y) ∉ allowed c' Xi Xj).
Proof.
  intros Hsym Hco Hswap Hrev.
  destruct (revise_post Xi Xj c c' revised Hco) as [Hcons Hgone]; [|done|].
  { intros Hid _ x y Hxy. destruct (decide (Xi = Xj)) as [<-|Hne].
    - apply sym_allowed; [done| |done]. by eapply allowed_is_Some.
    - by apply Hswap. }
  split.
  - intros x Hx. apply supported_iff. by apply Hcons.
  - intros x y Hx Hx' Hy Hxy. specialize (Hgone x Hx Hx').
    apply not_true_iff_false in Hgone. apply Hgone, supported_iff. eauto.
Qed.

(** In [shared_sets], where [C] holds the set of [B], the call
    [revise "B" "A"] removes the value 1 and leaves the value 2, which has
    the partner 1 in the domain of [A]. *)
Lemma revise_makes_arc_consistent_witness :
  sym_constraints shared_sets ∧ coherent shared_sets ∧
  (revise "B" "A" shared_sets).2 = Ret true ∧
  (∀ x, x ∈ dom_of (revise "B" "A" shared_sets).1 "B" →
        ∃ y, y ∈ dom_of (revise "B" "A" shared_sets).1 "A" ∧
             (x, y) ∈ allowed (revise "B" "A" shared_sets).1 "B" "A").
Proof.
  assert (init ["A"; "B"; "C"]
               {[ "A" := [1]%Z; "B" := [1; 2]%Z; "C" := [1; 2]%Z ]}
               (shared_set "B" "C") [("B", "A"); ("C", "B")] = Ret shared_sets)
    as Hinit by (vm_compute; reflexivity).
  assert (sym_constraints shared_sets) as Hsym
    by exact (proj1 (init_sym _ _ _ _ _ Hinit)).
  assert (coherent shared_sets) as Hco.
  { apply (shared_set_coherent _ "B" "C"); vm_compute; reflexivity. }
  split; [exact Hsym|]. split; [exact Hco|]. split; [vm_compute; reflexivity|].
  refine (proj1 (revise_makes_arc_consistent "B" "A" shared_sets _ true Hsym Hco
                   _ _)).
  - intros _ Hid. vm_compute in Hid. discriminate Hid.
  - vm_compute. reflexivity.
Defined.
(** ** [revise] on a pair without constraint *)

Lemma supported_no_key c Xi Xj x Dj :
  binary_constraints c !! (Xi, Xj) = None → supported c Xi Xj x Dj = false.
Proof.
  intros Hbc. apply not_true_iff_false. intros (y & _ & Hy)%supported_iff.
  unfold allowed in Hy. rewrite Hbc in Hy. simpl in Hy. set_solver.
Qed.

Lemma filter_all {A} (P : A → Prop) `{!∀ x, Decision (P x)} (l : list A) :
  (∀ x, x ∈ l → P x) → filter P l = l.
Proof.
  induction l as [|x l IH]; intros Hall; [done|].
  rewrite filter_cons_True by (apply Hall; left).
  f_equal. apply IH. intros y Hy. apply Hall. by right.
Qed.

Lemma filter_none {A} (P : A → Prop) `{!∀ x, Decision (P x)} (l : list A) :
  (∀ x, x ∈ l → ¬ P x) → filter P l = [].
Proof.
  induction l as [|x l IH]; intros Hall; [done|].
  rewrite filter_cons_False by (apply Hall; left).
  apply IH. intros y Hy. apply Hall. by right.
Qed.

Lemma revise_loop_no_key Xi Xj copy :
  ∀ c revised,
    binary_constraints c !! (Xi, Xj) = None →
    is_Some (domains c !! Xj) →
    NoDup copy → copy ⊆ dom_of c Xi →
    ∃ c', revise_loop Xi Xj copy revised c
          = (c', Ret (revised || bool_decide (copy ≠ []))) ∧
          dom_of c' Xi = filter (λ y, y ∉ copy) (dom_of c Xi).
Proof.
  induction copy as [|x copy IH]; intros c revised Hbc [Dj HDj] Hnd Hsub; simpl.
  { munfold. exists c. rewrite orb_false_r. split; [done|].
    by rewrite filter_all by (intros y _; apply not_elem_of_nil). }
  apply NoDup_cons in Hnd as [Hx Hnd].
  munfold. rewrite HDj. simpl. rewrite supported_no_key by done.
  assert (x ∈ dom_of c Xi) as HxD by set_solver. unfold dom_of in HxD.
  destruct (domains c !! Xi) as [Di|] eqn:HDi; simpl in *;
    [|by apply elem_of_nil in HxD].
  rewrite decide_True by done. simpl.
  set (c1 := set_domains (discard c Xi x) c).
  assert (dom_of c1 Xi = remove_value x Di) as HD1.
  { unfold c1. rewrite dom_of_discard, decide_True by done.
    unfold dom_of. by rewrite HDi. }
  destruct (IH c1 true) as (c' & -> & Hdom).
  - done.
  - simpl. rewrite lookup_discard, HDj. eauto.
  - done.
  - rewrite HD1. intros y Hy. apply list_elem_of_filter. split; [by intros ->|].
    assert (y ∈ dom_of c Xi) as Hin by set_solver.
    unfold dom_of in Hin. by rewrite HDi in Hin.
  - exists c'. rewrite orb_true_r. split; [done|].
    rewrite Hdom, HD1. unfold dom_of. rewrite HDi. simpl.
    unfold remove_value. rewrite list_filter_filter. apply list_filter_iff.
    intros y. rewrite not_elem_of_cons. tauto.
Qed.

(** X5: Without an entry for [(Xi, Xj)] in [binary_constraints] no value has a
    partner: [revise Xi Xj] empties the set of [Xi], and answers [True]
    unless that set was empty already.  The variables that hold another set
    keep their domains. *)
Theorem revise_without_constraint Xi Xj (c : CSP) (Di : list Z) :
  binary_constraints c !! (Xi, Xj) = None →
  domains c !! Xi = Some Di → NoDup Di →
  (Di ≠ [] → is_Some (domains c !! Xj)) →
  ∃ c', revise Xi Xj c = (c', Ret (bool_decide (Di ≠ []))) ∧
        domains c' !! Xi = Some [] ∧
        ∀ var, domain_id c var ≠ domain_id c Xi →
               domains c' !! var = domains c !! var.
Proof.
  intros Hbc HDi Hnd HXj.
  assert (∃ c', revise Xi Xj c = (c', Ret (bool_decide (Di ≠ []))) ∧
                dom_of c' Xi = []) as (c' & Hrev & Hdom).
  { unfold revise. munfold. rewrite HDi. simpl.
    destruct Di as [|x Di].
    { exists c. split; [done|]. unfold dom_of. by rewrite HDi. }
    destruct (revise_loop_no_key Xi Xj (x :: Di) c false) as (c' & -> & Hdom);
      [done|by apply HXj|done|unfold dom_of; by rewrite HDi|].
    exists c'. split; [done|]. rewrite Hdom. apply filter_none.
    unfold dom_of. rewrite HDi. by intros y Hy Hn. }
  exists c'. split; [done|].
  pose proof (revise_steps Xi Xj c) as Hsteps. rewrite Hrev in Hsteps.
  simpl in Hsteps. split; [|intros var; by eapply rtc_prune_others].
  destruct (revise_outcome _ _ _ _ _ Hrev) as (D & D' & _ & HD' & _).
  unfold dom_of in Hdom. rewrite HD' in Hdom. simpl in Hdom. by subst D'.
Qed.

(** [forced] has no entry for [("B", "A")]: the domain of [B] is emptied and
    [A] keeps its two values. *)
Lemma revise_without_constraint_witness :
  binary_constraints forced !! ("B", "A") = None ∧
  ∃ c', revise "B" "A" forced = (c', Ret true) ∧
        domains c' !! "B" = Some [] ∧
        domains c' !! "A" = Some [1%Z; 2%Z].
Proof.
  assert (binary_constraints forced !! ("B", "A") = None) as Hbc
    by (vm_compute; reflexivity).
  split; [exact Hbc|].
  destruct (revise_without_constraint "B" "A" forced [1%Z] Hbc)
    as (c' & Hrev & HB & Hothers).
  - vm_compute. reflexivity.
  - compute_done.
  - intros _. compute_done.
  - exists c'. split; [exact Hrev|]. split; [exact HB|].
    rewrite Hothers; [vm_compute; reflexivity|]. vm_compute. discriminate.
Defined.

(** ** The answers of [ac_3] *)

Lemma ac_3_loop_false fuel :
  ∀ queue c c',
    Forall (arc c) queue → ac_3_loop fuel queue c = (c', Ret false) →
    ∃ Xi, Xi ∈ variables c' ∧ domains c' !! Xi = Some [].
Proof.
  induction fuel as [|fuel IH]; intros queue c c' Hq; simpl; [done|].
  destruct queue as [|[Xi Xj] queue]; [done|].
  apply Forall_cons in Hq as [Harc Hq].
  unfold mbind at 1, M_bind at 1.
  destruct (revise Xi Xj c) as [c1 [revised|e]] eqn:Hrev; [|done].
  pose proof (revise_steps Xi Xj c) as Hsteps. rewrite Hrev in Hsteps.
  pose proof (rtc_prune_frame _ _ _ _ Hsteps) as Hfr. simpl in Hfr.
  assert (Forall (arc c1) queue) as Hq1.
  { eapply Forall_impl; [exact Hq|]. intros a. by apply arc_frame. }
  destruct revised.
  - munfold. destruct (domains c1 !! Xi) as [Di1|] eqn:HDi1; simpl; [|done].
    case_decide as Hlen.
    + intros [= <-]. exists Xi. split.
      * destruct Hfr as [-> _]. apply Harc.
      * by apply nil_length_inv in Hlen as ->.
    + apply IH. apply Forall_app. split; [exact Hq1|]. apply arcs_to_arc.
      destruct Hfr as [-> _]. apply Harc.
  - by apply IH.
Qed.

(** X6: When [ac_3] returns [False] it leaves a variable of the instance with an
    empty domain, and, when no two variables hold the same set, the instance
    it was called on has no solution. *)
Theorem ac_3_false_unsatisfiable (c : CSP) :
  (ac_3 c).2 = Ret false →
  (∃ Xi, Xi ∈ variables c ∧ domains (ac_3 c).1 !! Xi = Some []) ∧
  (unshared c → ∀ a, ¬ is_solution c a).
Proof.
  intros Hfalse.
  pose proof (ac_3_steps c) as Hsteps.
  pose proof (rtc_ac_3_step_frame _ _ Hsteps) as [Hvars _].
  destruct (ac_3_loop_false (ac_3_fuel c) (initial_arcs c) c (ac_3 c).1
              (initial_arcs_arc c)) as (Xi & HXi & HD).
  { unfold ac_3 in *. destruct (ac_3_loop _ _ c). simpl in *. by subst. }
  rewrite Hvars in HXi. split; [eauto|].
  intros Hun a Hsol. apply (rtc_ac_3_step_solutions _ _ a Hun Hsteps) in Hsol.
  rewrite <- Hvars in HXi.
  destruct (is_solution_variable _ _ _ Hsol HXi) as (x & D & _ & HD' & Hx).
  simplify_eq. by apply elem_of_nil in Hx.
Qed.

Lemma ac_3_false_unsatisfiable_witness :
  (ac_3 dead_end).2 = Ret false ∧ (∀ a, ¬ is_solution dead_end a).
Proof.
  assert ((ac_3 dead_end).2 = Ret false) as H by (vm_compute; reflexivity).
  split; [exact H|]. apply (proj2 (ac_3_false_unsatisfiable dead_end H)).
  apply own_set_unshared. reflexivity.
Defined.

(** X7: When [ac_3] returns [True] on an instance the constructor built, in
    which no two variables hold the same set, then along every declared edge
    [(a, b)] between variables of the instance every value left for [a] has a
    different value left for [b]. *)
Theorem ac_3_true_arc_consistent variables0 doms ids edges (c c' : CSP) :
  init variables0 doms ids edges = Ret c →
  unshared c →
  ac_3 c = (c', Ret true) →
  ∀ a b x, (a, b) ∈ edges → a ∈ variables0 → b ∈ variables0 →
           x ∈ dom_of c' a → ∃ y, y ∈ dom_of c' b ∧ x ≠ y.
Proof.
  intros Hinit Hun Hrun a b x Hab Ha Hb Hx.
  pose proof (init_sym _ _ _ _ _ Hinit) as [Hsym _].
  apply init_inv in Hinit as (Hv & Hd & _ & _ & Hbuilt & Hkeys).
  pose proof (ac_3_steps c) as Hsteps. rewrite Hrun in Hsteps. simpl in Hsteps.
  pose proof (rtc_ac_3_step_frame _ _ Hsteps) as (Hv' & Hbc' & _).
  assert (arc c' (a, b)) as Harc.
  { unfold arc. simpl. rewrite Hv', Hbc', Hv. by rewrite Hkeys. }
  pose proof (ac_3_consistent c c' Hsym Hun Hrun _ Harc x Hx) as Hsup.
  apply supported_iff in Hsup as (y & Hy & Hxy). exists y. split; [done|].
  unfold allowed in Hxy. rewrite Hbc' in Hxy. simpl in Hxy.
  destruct (binary_constraints c !! (a, b)) as [pairs|] eqn:Hp; simpl in Hxy;
    [|set_solver]. destruct (Hbuilt _ _ _ Hp) as [_ Hpairs].
  apply Hpairs in Hxy as [Hne _]. exact Hne.
Qed.

Lemma ac_3_true_arc_consistent_witness :
  init ["A"; "B"] {[ "A" := [1; 2]%Z; "B" := [1]%Z ]} own_set [("A", "B")]
  = Ret forced ∧
  ∀ x, x ∈ dom_of (ac_3 forced).1 "A" →
       ∃ y, y ∈ dom_of (ac_3 forced).1 "B" ∧ x ≠ y.
Proof.
  assert (init ["A"; "B"] {[ "A" := [1; 2]%Z; "B" := [1]%Z ]} own_set
               [("A", "B")] = Ret forced) as Hinit by (vm_compute; reflexivity).
  split; [exact Hinit|]. intros x.
  refine (ac_3_true_arc_consistent _ _ _ _ forced (ac_3 forced).1 Hinit _ _
            "A" "B" x _ _ _).
  - apply own_set_unshared. reflexivity.
  - vm_compute. reflexivity.
  - compute_done.
  - compute_done.
  - compute_done.
Defined.

(** ** [ac_3] does not raise on a constructed instance *)

Lemma revise_loop_returns Xi Xj copy :
  ∀ c revised,
    NoDup copy → copy ⊆ dom_of c Xi →
    (copy ≠ [] → is_Some (domains c !! Xj)) →
    ∃ c' r, revise_loop Xi Xj copy revised c = (c', Ret r).
Proof.
  induction copy as [|x copy IH]; intros c revised Hnd Hsub HXj; simpl.
  { by exists c, revised. }
  apply NoDup_cons in Hnd as [Hx Hnd].
  destruct HXj as [Dj HDj]; [done|]. munfold. rewrite HDj. simpl.
  destruct (supported c Xi Xj x Dj).
  { apply IH; [done|set_solver|eauto]. }
  assert (x ∈ dom_of c Xi) as HxD by set_solver. unfold dom_of in HxD.
  destruct (domains c !! Xi) as [Di|] eqn:HDi; simpl in *;
    [|by apply elem_of_nil in HxD].
  rewrite decide_True by done. simpl. apply IH; [done| |].
  - rewrite dom_of_discard, decide_True by done.
    intros y Hy. apply list_elem_of_filter. split; [by intros ->|set_solver].
  - intros _. simpl. rewrite lookup_discard, HDj. eauto.
Qed.

Lemma revise_returns Xi Xj c :
  revisable c → is_Some (binary_constraints c !! (Xi, Xj)) →
  ∃ c' r, revise Xi Xj c = (c', Ret r).
Proof.
  intros Hrev Hkey. destruct (Hrev _ _ Hkey) as (Di & HDi & Hnd & HXj).
  unfold revise. munfold. rewrite HDi. simpl.
  apply revise_loop_returns; [done| |].
  - unfold dom_of. by rewrite HDi.
  - done.
Qed.

Lemma revisable_shrinks c c' :
  same_frame c c' → shrinks c c' → revisable c → revisable c'.
Proof.
  intros (_ & Hbc & _) [Hdom Hsub] Hrev a b Hkey. rewrite Hbc in Hkey.
  destruct (Hrev _ _ Hkey) as (Da & HDa & Hnd & Hb).
  assert (is_Some (domains c' !! a)) as [Da' HDa'].
  { apply elem_of_dom. rewrite Hdom. apply elem_of_dom. eauto. }
  pose proof (Hsub _ _ _ HDa HDa') as Hsl.
  exists Da'. split; [done|]. split; [by eapply sublist_NoDup|].
  intros Hne. apply elem_of_dom. rewrite Hdom. apply elem_of_dom, Hb.
  intros ->. by apply sublist_nil_r in Hsl.
Qed.

Lemma ac_3_loop_raises_only_fuel fuel :
  ∀ queue c e,
    revisable c → Forall (arc c) queue →
    (ac_3_loop fuel queue c).2 = Raise e → e = OutOfFuel.
Proof.
  induction fuel as [|fuel IH]; intros queue c e Hrev Hq; simpl.
  { by intros [= <-]. }
  destruct queue as [|[Xi Xj] queue]; [done|].
  apply Forall_cons in Hq as [Harc Hq].
  destruct (revise_returns Xi Xj c Hrev) as (c1 & revised & Hr); [apply Harc|].
  unfold mbind at 1, M_bind at 1. rewrite Hr.
  pose proof (revise_steps Xi Xj c) as Hsteps. rewrite Hr in Hsteps. simpl in Hsteps.
  pose proof (rtc_prune_frame _ _ _ _ Hsteps) as Hfr.
  pose proof (rtc_prune_shrinks _ _ _ _ Hsteps) as Hshr.
  pose proof (revisable_shrinks _ _ Hfr Hshr Hrev) as Hrev1.
  assert (Forall (arc c1) queue) as Hq1.
  { eapply Forall_impl; [exact Hq|]. intros a. by apply arc_frame. }
  destruct revised.
  - munfold. destruct (Hrev1 Xi Xj) as (Di1 & HDi1 & _).
    { destruct Hfr as (_ & -> & _). apply Harc. }
    rewrite HDi1. simpl. case_decide; [done|].
    apply IH; [done|]. apply Forall_app. split; [exact Hq1|]. apply arcs_to_arc.
    destruct Hfr as [-> _]. apply Harc.
  - by apply IH.
Qed.

Lemma init_revisable variables0 doms ids edges c :
  init variables0 doms ids edges = Ret c →
  map_Forall (λ _ D, NoDup D) doms → revisable c.
Proof.
  intros Hinit Hnd.
  assert (∃ c, init variables0 doms ids edges = Ret c) as Hret by eauto.
  apply init_raises_domain_lookup in Hret. rewrite Forall_forall in Hret.
  apply init_inv in Hinit as (_ & Hd & _ & _ & _ & Hkeys).
  intros a b Hkey%Hkeys. destruct (Hret _ Hkey) as (D & HD & HD').
  simpl in *. exists D. rewrite Hd. split; [done|]. split; [by eapply Hnd|].
  intros Hne. by destruct HD'.
Qed.

(** X8: On an instance the constructor built from duplicate-free domains, [ac_3]
    raises nothing: it returns [True] or [False], whether or not variables
    hold the same set. *)
Theorem ac_3_returns variables0 doms ids edges (c : CSP) :
  init variables0 doms ids edges = Ret c →
  map_Forall (λ _ D, NoDup D) doms →
  ∃ answer : bool, (ac_3 c).2 = Ret answer.
Proof.
  intros Hinit Hnd. pose proof (init_revisable _ _ _ _ _ Hinit Hnd) as Hrev.
  pose proof (ac_3_terminates c) as Hfuel.
  pose proof (ac_3_loop_raises_only_fuel (ac_3_fuel c) (initial_arcs c) c) as Hraise.
  unfold ac_3 in *. destruct (ac_3_loop _ _ c) as [c' [answer|e]]; simpl in *.
  - eauto.
  - destruct Hfuel. f_equal. by apply Hraise; [|apply initial_arcs_arc|].
Qed.

Lemma ac_3_returns_witness :
  init ["A"; "B"; "C"] {[ "A" := [1]%Z; "B" := [1; 2]%Z; "C" := [1; 2]%Z ]}
       (shared_set "B" "C") [("B", "A"); ("C", "B")] = Ret shared_sets ∧
  ∃ answer : bool, (ac_3 shared_sets).2 = Ret answer.
Proof.
  assert (init ["A"; "B"; "C"]
               {[ "A" := [1]%Z; "B" := [1; 2]%Z; "C" := [1; 2]%Z ]}
               (shared_set "B" "C") [("B", "A"); ("C", "B")] = Ret shared_sets)
    as Hinit by (vm_compute; reflexivity).
  split; [exact Hinit|].
  refine (ac_3_returns _ _ _ _ shared_sets Hinit _). compute_done.
Defined.

(** ** [ac_3] before [backtracking_search] *)

(** X9: On an instance in which every variable has a domain, no two variables
    hold the same set and no constraint joins a variable to itself, a search
    run after [ac_3] returns; what it finds is a solution of the instance as
    it was before [ac_3], and it returns [None] exactly when that instance
    has no solution. *)
Theorem backtracking_search_after_ac_3 (c : CSP) :
  has_domains c → no_self_edge c → unshared c →
  (∃ r, (backtracking_search (ac_3 c).1).2 = Ret r) ∧
  (∀ a, (backtracking_search (ac_3 c).1).2 = Ret (Some a) → is_solution c a) ∧
  ((backtracking_search (ac_3 c).1).2 = Ret None ↔ ∀ a, ¬ is_solution c a).
Proof.
  intros Hdom Hno Hun.
  pose proof (ac_3_steps c) as Hsteps.
  pose proof (λ a, rtc_ac_3_step_solutions _ _ a Hun Hsteps) as Hsols.
  pose proof (rtc_ac_3_step_frame _ _ Hsteps) as (Hv & Hbc & _).
  pose proof (rtc_ac_3_step_shrinks _ _ Hsteps) as [Hd _].
  assert (has_domains (ac_3 c).1) as Hdom'.
  { unfold has_domains in *. rewrite Hv. eapply Forall_impl; [exact Hdom|].
    intros var Hvar. apply elem_of_dom. rewrite Hd. by apply elem_of_dom. }
  assert (no_self_edge (ac_3 c).1) as Hno'.
  { unfold no_self_edge. by rewrite Hbc. }
  pose proof (backtracking_search_spec _ Hdom' Hno') as H.
  destruct (backtracking_search (ac_3 c).1) as [c' [[a|]|e]]; simpl; [| |done].
  - split; [eauto|]. split.
    + intros a' [= <-]. by apply Hsols.
    + split; [done|]. intros Hnone. destruct (Hnone a). by apply Hsols.
  - destruct H as [Hnone _]. split; [eauto|]. split; [done|]. split; [|done].
    intros _ a Hsol. apply (Hnone a). by apply Hsols.
Qed.

Lemma backtracking_search_after_ac_3_witness :
  has_domains forced ∧ no_self_edge forced ∧
  is_solution forced {[ "A" := 2%Z; "B" := 1%Z ]}.
Proof.
  assert (has_domains forced) as Hdom by compute_done.
  assert (no_self_edge forced) as Hno by compute_done.
  split; [exact Hdom|]. split; [exact Hno|].
  assert (unshared forced) as Hun by (apply own_set_unshared; reflexivity).
  apply (backtracking_search_after_ac_3 forced Hdom Hno Hun).
  vm_compute. reflexivity.
Defined.
(** ** The counters and the exceptions of [backtracking_search] *)

Lemma unassigned_variables c c' a :
  variables c' = variables c → unassigned c' a = unassigned c a.
Proof. unfold unassigned. by intros ->. Qed.

Lemma try_values_count (rec : M search bool) (fuel : nat) var :
  (∀ s, search_frame s (rec s).1) →
  (∀ s, unassigned (self_ s) (assignment_ s) < fuel → backtrack_count s (rec s)) →
  ∀ values s,
    var ∈ variables (self_ s) → assignment_ s !! var = None →
    unassigned (self_ s) (assignment_ s) ≤ fuel →
    match try_values rec var values s with
    | (s', Ret true) =>
        backtrack_counter (self_ s') + fail_counter (self_ s) + size (assignment_ s)
        = backtrack_counter (self_ s) + fail_counter (self_ s')
          + size (assignment_ s')
    | (s', Ret false) =>
        assignment_ s' = assignment_ s ∧
        backtrack_counter (self_ s') + fail_counter (self_ s) + 1
        = backtrack_counter (self_ s) + fail_counter (self_ s')
    | (_, Raise e) =>
        e = KeyError ∧
        ∃ v, v ∈ variables (self_ s) ∧ domains (self_ s) !! v = None
    end.
Proof.
  intros Hframe Hrec.
  induction values as [|value values IH]; intros s Hvar Hnone Hfuel; simpl.
  { munfold. simpl. split; [done|lia]. }
  munfold. destruct (is_consistent _ _ _ _); [|by apply IH].
  set (s1 := on_assignment _ s).
  pose proof (Hframe s1) as Hfr1.
  assert (backtrack_count s1 (rec s1)) as Hpost.
  { apply Hrec. simpl.
    pose proof (unassigned_insert (self_ s) (assignment_ s) var value Hvar Hnone).
    lia. }
  destruct (rec s1) as [s2 [[]|e]]; simpl in *.
  - rewrite map_size_insert_None in Hpost by done. lia.
  - destruct Hpost as [Ha2 Hcnt].
    unfold delitem. munfold. rewrite Ha2, lookup_insert_eq. simpl.
    set (s3 := on_assignment (delete var) s2).
    assert (assignment_ s3 = assignment_ s) as Ha3.
    { simpl. rewrite Ha2. rewrite delete_insert_eq. by apply delete_id. }
    destruct Hfr1 as (Hv & Hd & _).
    specialize (IH s3). simpl in IH. rewrite Ha2 in IH. simpl in Ha3.
    rewrite Ha2 in Ha3. rewrite Ha3 in IH.
    rewrite (unassigned_variables _ _ _ Hv), Hv in IH.
    specialize (IH Hvar Hnone Hfuel).
    destruct (try_values rec var values s3) as [s4 [[]|e]]; simpl in *.
    + lia.
    + destruct IH as [-> ?]. split; [done|lia].
    + rewrite Hd in IH. exact IH.
  - exact Hpost.
Qed.

Lemma backtrack_count_spec fuel :
  ∀ s, unassigned (self_ s) (assignment_ s) < fuel →
       backtrack_count s (backtrack fuel s).
Proof.
  induction fuel as [|fuel IH]; intros s Hfuel; [lia|].
  simpl. munfold. simpl.
  assert (static_eq (self_ s) (incr_backtrack_counter (self_ s))) as Hst
    by (by repeat split).
  rewrite (is_complete_static (self_ s)) by done.
  destruct (is_complete (self_ s) (assignment_ s)) eqn:Hcomp.
  { simpl. lia. }
  rewrite (select_static (self_ s)), (order_static (self_ s)) by done.
  destruct (select_unassigned_Some _ _ Hcomp) as (var & -> & Hvar & Hnone).
  simpl. munfold.
  destruct (domains (self_ s) !! var) as [D|] eqn:HD; simpl; [|eauto].
  set (s0 := on_self incr_backtrack_counter s).
  pose proof (try_values_count (backtrack fuel) fuel var
                (backtrack_frame fuel) IH D s0) as Hspec.
  simpl in Hspec. specialize (Hspec Hvar Hnone).
  rewrite (unassigned_variables (self_ s)) in Hspec by done.
  specialize (Hspec ltac:(lia)).
  destruct (try_values (backtrack fuel) var D s0) as [s' [[]|e]]; simpl.
  - lia.
  - destruct Hspec as [-> ?]. split; [done|lia].
  - exact Hspec.
Qed.

Lemma backtracking_search_count c :
  backtrack_count (mkSearch c ∅)
    (backtrack (S (length (variables c))) (mkSearch c ∅)).
Proof.
  apply backtrack_count_spec. pose proof (unassigned_empty c). simpl. lia.
Qed.

(** X10: The two counters of a search that returns: when it finds no solution,
    every call of [backtrack] is a failed one, so both counters rose by the
    same number; when it returns an assignment, [backtrack_counter] rose by
    the failed calls, one call for every variable assigned and one more. *)
Theorem backtracking_search_counters (c c' : CSP) (r : option (gmap string Z)) :
  backtracking_search c = (c', Ret r) →
  backtrack_counter c' + fail_counter c
  = backtrack_counter c + fail_counter c'
    + match r with Some a => size a + 1 | None => 0 end.
Proof.
  unfold backtracking_search. pose proof (backtracking_search_count c) as H.
  destruct (backtrack _ _) as [s' [[]|e]]; simpl in H; intros [= <- <-].
  - rewrite map_size_empty in H. lia.
  - lia.
Qed.

Lemma backtracking_search_counters_witness :
  (backtracking_search two_ways).2 = Ret (Some {[ "A" := 1%Z; "B" := 2%Z ]}) ∧
  backtrack_counter (backtracking_search two_ways).1 + fail_counter two_ways
  = backtrack_counter two_ways + fail_counter (backtracking_search two_ways).1
    + (size ({[ "A" := 1%Z; "B" := 2%Z ]} : gmap string Z) + 1).
Proof.
  split; [vm_compute; reflexivity|].
  refine (backtracking_search_counters two_ways _
            (Some {[ "A" := 1%Z; "B" := 2%Z ]}) _).
  vm_compute. reflexivity.
Defined.

(** X11: A search raises nothing but the [KeyError] of a variable of the instance
    that has no domain: [del assignment[var]] always finds its key, and the
    calls of [backtrack] are never nested deeper than the number of
    variables plus one. *)
Theorem backtracking_search_raises (c c' : CSP) (e : exn) :
  backtracking_search c = (c', Raise e) →
  e = KeyError ∧ ∃ var, var ∈ variables c ∧ domains c !! var = None.
Proof.
  unfold backtracking_search. pose proof (backtracking_search_count c) as H.
  destruct (backtrack _ _) as [s' [[]|e']]; simpl in H; intros [= <- <-].
  exact H.
Qed.

Lemma backtracking_search_raises_witness :
  (backtracking_search no_domain).2 = Raise KeyError ∧
  ∃ var, var ∈ variables no_domain ∧ domains no_domain !! var = None.
Proof.
  split; [vm_compute; reflexivity|].
  refine (proj2 (backtracking_search_raises no_domain
                   (backtracking_search no_domain).1 KeyError _)).
  vm_compute. reflexivity.
Defined.
(** ** Which solution [backtracking_search] returns *)

Lemma find_split {A} (P : A → bool) (l : list A) (x : A) :
  find P l = Some x →
  ∃ pre post, l = pre ++ x :: post ∧ P x = true ∧ ∀ y, y ∈ pre → P y = false.
Proof.
  induction l as [|y l IH]; simpl; [done|].
  destruct (P y) eqn:Hy.
  - intros [= ->]. exists [], l. split; [done|]. split; [done|].
    intros z Hz. by apply elem_of_nil in Hz.
  - intros (pre & post & -> & Hx & Hpre)%IH. exists (y :: pre), post.
    split; [done|]. split; [done|].
    intros z [->|Hz]%elem_of_cons; [done|by apply Hpre].
Qed.

Lemma select_unassigned_split c a var :
  select_unassigned_variable c a = Some var →
  ∃ pre post, variables c = pre ++ var :: post ∧
              (∀ v, v ∈ pre → is_Some (a !! v)) ∧ a !! var = None.
Proof.
  intros (pre & post & Hv & Hvar & Hpre)%find_split.
  exists pre, post. split; [done|]. split.
  - intros v Hin. apply Hpre in Hin. apply bool_decide_eq_false in Hin.
    by apply not_eq_None_Some.
  - by apply bool_decide_eq_true in Hvar.
Qed.

Lemma complete_subseteq_eq c (a b : gmap string Z) :
  is_complete c a = true → is_solution c b → a ⊆ b → b = a.
Proof.
  intros Hcomp (Hdom & _) Hab. rewrite is_complete_true in Hcomp.
  apply map_eq. intros i. destruct (a !! i) as [x|] eqn:Hx.
  - by eapply lookup_weaken.
  - apply not_elem_of_dom. rewrite Hdom, elem_of_list_to_set.
    intros [y Hy]%Hcomp. congruence.
Qed.

Section First.
Variable c : CSP.
Hypothesis Hdom : has_domains c.
Hypothesis Hno : no_self_edge c.

Lemma try_values_first (rec : M search bool) (fuel : nat) var D pre post :
  (∀ s, search_frame s (rec s).1) →
  (∀ s, static_eq c (self_ s) → partial_ok c (assignment_ s) →
        unassigned c (assignment_ s) < fuel → backtrack_post c s (rec s)) →
  (∀ s, static_eq c (self_ s) → partial_ok c (assignment_ s) →
        unassigned c (assignment_ s) < fuel →
        ∀ s', rec s = (s', Ret true) →
        ∀ b, is_solution c b → assignment_ s ⊆ b →
             b = assignment_ s' ∨ precedes c (assignment_ s') b) →
  variables c = pre ++ var :: post → domains c !! var = Some D →
  ∀ values tried s,
    D = tried ++ values →
    static_eq c (self_ s) → partial_ok c (assignment_ s) →
    assignment_ s !! var = None →
    (∀ v, v ∈ pre → is_Some (assignment_ s !! v)) →
    unassigned c (assignment_ s) ≤ fuel →
    (∀ b y, is_solution c b → assignment_ s ⊆ b → b !! var = Some y → y ∉ tried) →
    ∀ s', try_values rec var values s = (s', Ret true) →
    ∀ b, is_solution c b → assignment_ s ⊆ b →
         b = assignment_ s' ∨ precedes c (assignment_ s') b.
Proof.
  intros Hframe Hrec Hfirst Hvars HD.
  assert (var ∈ variables c) as Hvar by (rewrite Hvars; set_solver).
  induction values as [|value values IH];
    intros tried s HDs Hst Hok Hnone Hpre Hfuel Htried s'; simpl.
  { munfold. done. }
  assert (value ∈ D) as HvD by (rewrite HDs; set_solver).
  assert (D = (tried ++ [value]) ++ values) as HDs'
    by (by rewrite <- app_assoc).
  munfold. rewrite (is_consistent_static c) by done.
  destruct (is_consistent c value var (assignment_ s)) eqn:Hcons.
  - set (s1 := on_assignment _ s).
    pose proof (Hframe s1) as Hfr1.
    assert (partial_ok c (assignment_ s1)) as Hok1
      by (by eapply partial_ok_insert).
    assert (unassigned c (assignment_ s1) < fuel) as Hfuel1.
    { simpl. pose proof (unassigned_insert c (assignment_ s) var value Hvar Hnone).
      lia. }
    pose proof (Hrec s1 Hst Hok1 Hfuel1) as Hpost.
    pose proof (Hfirst s1 Hst Hok1 Hfuel1) as Hfst.
    destruct (rec s1) as [s2 [[]|e]]; simpl in *; [| |done].
    + intros [= <-] b Hsol Hab.
      destruct Hpost as [Hsub1 _].
      destruct (is_solution_variable c b var Hsol Hvar) as (y & D' & Hy & HD' & HyD).
      destruct (decide (y = value)) as [->|Hne].
      * apply (Hfst s2 eq_refl b Hsol). by apply insert_subseteq_l.
      * right. exists pre, var, post, value, y, D.
        split; [done|]. split; [|split; [|split; [done|split; [done|]]]].
        -- intros v [x Hx]%Hpre.
           rewrite (lookup_weaken _ _ _ _ Hx Hab).
           eapply lookup_weaken; [|exact Hsub1].
           rewrite lookup_insert_ne; [done|]. intros ->. congruence.
        -- eapply lookup_weaken; [|exact Hsub1]. by rewrite lookup_insert_eq.
        -- exists tried, values. split; [done|]. split; [|done].
           by eapply Htried.
    + destruct Hpost as (Ha2 & Hnosol & _).
      unfold delitem. munfold. rewrite Ha2, lookup_insert_eq. simpl.
      set (s3 := on_assignment (delete var) s2).
      assert (assignment_ s3 = assignment_ s) as Ha3.
      { simpl. rewrite Ha2. rewrite delete_insert_eq. by apply delete_id. }
      assert (search_frame s s3) as Hfr3.
      { destruct Hfr1 as (?&?&?&?&?). by repeat split. }
      specialize (IH (tried ++ [value]) s3 HDs'). rewrite !Ha3 in IH.
      apply (IH (static_eq_trans _ _ _ Hst (search_frame_static _ _ Hfr3))
                Hok Hnone Hpre Hfuel).
      intros b y Hsol Hab Hy [Hin| ->%list_elem_of_singleton]%elem_of_app.
      * by eapply Htried.
      * apply (Hnosol b Hsol). by apply insert_subseteq_l.
  - apply (IH (tried ++ [value]) s HDs' Hst Hok Hnone Hpre Hfuel).
    intros b y Hsol Hab Hy [Hin| ->%list_elem_of_singleton]%elem_of_app.
    + by eapply Htried.
    + apply not_true_iff_false in Hcons. apply Hcons.
      apply is_consistent_true. intros neighbor nv Hin Hnv.
      destruct Hsol as (_ & _ & Hc). apply Hc; [done|].
      by eapply lookup_weaken.
Qed.

Lemma backtrack_first fuel :
  ∀ s, static_eq c (self_ s) → partial_ok c (assignment_ s) →
       unassigned c (assignment_ s) < fuel →
       ∀ s', backtrack fuel s = (s', Ret true) →
       ∀ b, is_solution c b → assignment_ s ⊆ b →
            b = assignment_ s' ∨ precedes c (assignment_ s') b.
Proof.
  induction fuel as [|fuel IH]; intros s Hst Hok Hfuel s'; [lia|].
  simpl. munfold. simpl.
  rewrite (is_complete_static c) by done.
  destruct (is_complete c (assignment_ s)) eqn:Hcomp.
  { intros [= <-] b Hsol Hab. left. simpl. by eapply complete_subseteq_eq. }
  rewrite (select_static c), (order_static c) by done.
  destruct (select_unassigned_Some c _ Hcomp) as (var & Hsel & Hvar & Hnone).
  destruct (select_unassigned_split c _ _ Hsel) as (pre & post & Hvars & Hpre & _).
  rewrite Hsel.
  pose proof Hdom as Hd. unfold has_domains in Hd. rewrite Forall_forall in Hd.
  destruct (Hd var Hvar) as [D HD]. simpl. munfold. rewrite HD.
  set (s0 := on_self incr_backtrack_counter s).
  intros Hrun.
  refine (try_values_first (backtrack fuel) fuel var D pre post
            (backtrack_frame fuel) _ IH Hvars HD D [] s0 eq_refl Hst Hok Hnone
            Hpre _ _ s' Hrun).
  - intros s1. by apply backtrack_spec.
  - simpl. lia.
  - intros b y _ _ _. apply not_elem_of_nil.
Qed.

Lemma backtracking_search_first_solution c' a :
  backtracking_search c = (c', Ret (Some a)) →
  ∀ b, is_solution c b → b = a ∨ precedes c a b.
Proof.
  unfold backtracking_search.
  destruct (backtrack _ _) as [s' [[]|e]] eqn:Hrun; intros [= <- <-]; [].
  intros b Hsol.
  refine (backtrack_first _ (mkSearch c ∅) _ _ _ s' Hrun b Hsol _).
  - done.
  - split; simpl; intros *; by rewrite lookup_empty.
  - pose proof (unassigned_empty c). simpl. lia.
  - apply map_empty_subseteq.
Qed.

End First.

(** X12: Of all the solutions of an instance in which every variable has a domain
    and no constraint joins a variable to itself, the search returns the
    first one: any other solution differs from it on some variable, and on
    the first such variable of [variables] the returned value stands earlier
    in the domain. *)
Theorem backtracking_search_returns_first (c c' : CSP) (a b : gmap string Z) :
  has_domains c → no_self_edge c →
  backtracking_search c = (c', Ret (Some a)) →
  is_solution c b → b ≠ a → precedes c a b.
Proof.
  intros Hdom Hno Hrun Hsol Hne.
  by destruct (backtracking_search_first_solution c Hdom Hno c' a Hrun b Hsol).
Qed.

Lemma backtracking_search_returns_first_witness :
  is_solution two_ways {[ "A" := 2%Z; "B" := 1%Z ]} ∧
  precedes two_ways {[ "A" := 1%Z; "B" := 2%Z ]} {[ "A" := 2%Z; "B" := 1%Z ]}.
Proof.
  assert (is_solution two_ways {[ "A" := 2%Z; "B" := 1%Z ]}) as Hsol.
  { split; [by vm_compute|]. split.
    - intros var value [[<- <-]|[_ [<- <-]%lookup_singleton_Some]]%lookup_insert_Some;
        (eexists; split; [by vm_compute|set_solver]).
    - intros X Y x y
        [[<- <-]|[_ [<- <-]%lookup_singleton_Some]]%lookup_insert_Some
        [[<- <-]|[_ [<- <-]%lookup_singleton_Some]]%lookup_insert_Some;
        by vm_compute. }
  split; [exact Hsol|].
  refine (backtracking_search_returns_first two_ways
            (backtracking_search two_ways).1 _ _ _ _ _ Hsol _).
  - compute_done.
  - compute_done.
  - vm_compute. reflexivity.
  - intros Heq. assert (({[ "A" := 2%Z; "B" := 1%Z ]} : gmap string Z) !! "A"
                        = Some 1%Z) as H by (by rewrite Heq).
    vm_compute in H. discriminate H.
Defined.
(** ** The constraints of a constructed instance *)

(** On an instance the constructor built, the test of [is_consistent] fails
    for two values exactly when the variables are joined by an edge, declared
    in either order, and the values are not a pair of different values of
    their domains. *)
Lemma violates_built variables0 doms ids edges c X x Y y :
  init variables0 doms ids edges = Ret c →
  violates c X x Y y = false ↔
  ((X, Y) ∈ edges ∨ (Y, X) ∈ edges → neq_pairs (dom_of c X) (dom_of c Y) (x, y)).
Proof.
  intros (_ & Hd & _ & _ & Hbuilt & Hkeys)%init_inv.
  unfold dom_of. rewrite Hd, violates_false. split.
  - intros [HXY HYX] [[pairs Hp]%Hkeys|[pairs Hp]%Hkeys].
    + apply (proj2 (Hbuilt _ _ _ Hp)). by apply HXY.
    + specialize (HYX _ Hp). apply (proj2 (Hbuilt _ _ _ Hp)) in HYX.
      unfold neq_pairs in *. simpl in *. naive_solver.
  - intros H. split; intros pairs Hp.
    + apply (proj2 (Hbuilt _ _ _ Hp)). apply H. left. apply Hkeys. eauto.
    + apply (proj2 (Hbuilt _ _ _ Hp)).
      assert (neq_pairs (default [] (doms !! X)) (default [] (doms !! Y)) (x, y))
        as Hn by (apply H; right; apply Hkeys; eauto).
      unfold neq_pairs in *. simpl in *. naive_solver.
Qed.

(** X13: With the edges of [alldiff] over distinct variables, the solutions of the
    constructed instance are the assignments of its variables that take each
    value from the domain of its variable and give no two variables the same
    value. *)
Theorem alldiff_solutions vs doms ids (c : CSP) (a : gmap string Z) :
  NoDup vs → init vs doms ids (alldiff vs) = Ret c →
  is_solution c a ↔
  dom a = list_to_set vs ∧
  (∀ var value, a !! var = Some value → value ∈ dom_of c var) ∧
  (∀ X Y x y, X ≠ Y → a !! X = Some x → a !! Y = Some y → x ≠ y).
Proof.
  intros Hnd Hinit.
  pose proof (init_inv _ _ _ _ _ Hinit) as (Hv & _).
  assert (∀ X Y, X ∈ vs → Y ∈ vs → X ≠ Y →
                 (X, Y) ∈ alldiff vs ∨ (Y, X) ∈ alldiff vs) as Hedge.
  { intros X Y [i Hi]%list_elem_of_lookup [j Hj]%list_elem_of_lookup Hne.
    rewrite !alldiff_elem.
    destruct (Nat.lt_total i j) as [Hij|[->|Hij]]; [left; eauto| |right; eauto].
    congruence. }
  assert (∀ X Y, (X, Y) ∈ alldiff vs ∨ (Y, X) ∈ alldiff vs → X ≠ Y) as Hdiff.
  { intros X Y [(i & j & Hij & Hi & Hj)%alldiff_elem
               |(i & j & Hij & Hi & Hj)%alldiff_elem] ->;
      pose proof (NoDup_lookup _ _ _ _ Hnd Hi Hj); lia. }
  unfold is_solution. rewrite Hv. split.
  - intros (Hdom & Hval & Hcons). split; [done|]. split.
    + intros var value (D & HD & Hin)%Hval. unfold dom_of. by rewrite HD.
    + intros X Y x y Hne HX HY.
      assert (X ∈ vs ∧ Y ∈ vs) as [HXv HYv].
      { rewrite <- !(elem_of_list_to_set (C := gset string)), <- Hdom,
          !elem_of_dom. eauto. }
      specialize (Hcons X Y x y HX HY).
      rewrite (violates_built _ _ _ _ _ _ _ _ _ Hinit) in Hcons.
      by destruct (Hcons (Hedge X Y HXv HYv Hne)).
  - intros (Hdom & Hval & Hinj). split; [done|]. split.
    + intros var value Hin%Hval. unfold dom_of in Hin.
      destruct (domains c !! var) as [D|]; [eauto|by apply elem_of_nil in Hin].
    + intros X Y x y HX HY.
      apply (violates_built _ _ _ _ _ _ _ _ _ Hinit). intros Hkey.
      split; simpl; [by eapply Hinj; [apply Hdiff| |]|]. left. eauto.
Qed.

Lemma alldiff_solutions_witness :
  NoDup ["X"; "Y"; "Z"] ∧
  is_solution three_colouring {[ "X" := 1%Z; "Y" := 2%Z; "Z" := 3%Z ]}.
Proof.
  assert (NoDup ["X"; "Y"; "Z"]) as Hnd by compute_done.
  split; [exact Hnd|].
  refine (proj2 (alldiff_solutions ["X"; "Y"; "Z"]
            {[ "X" := [1; 2; 3]%Z; "Y" := [1; 2; 3]%Z; "Z" := [1; 2; 3]%Z ]}
            own_set three_colouring _ Hnd _) _); [vm_compute; reflexivity|].
  split; [by vm_compute|]. split.
  - intros var value
      [[<- <-]|[_ [[<- <-]|[_ [<- <-]%lookup_singleton_Some]]%lookup_insert_Some]]
        %lookup_insert_Some; vm_compute; set_solver.
  - intros X Y x y Hne
      [[<- <-]|[_ [[<- <-]|[_ [<- <-]%lookup_singleton_Some]]%lookup_insert_Some]]
        %lookup_insert_Some
      [[<- <-]|[_ [[<- <-]|[_ [<- <-]%lookup_singleton_Some]]%lookup_insert_Some]]
        %lookup_insert_Some; done.
Defined.

(** ** The order in which edges are declared *)

Lemma is_consistent_ext s1 s2 value var :
  same_search s1 s2 →
  is_consistent (self_ s1) value var (assignment_ s1)
  = is_consistent (self_ s2) value var (assignment_ s2).
Proof.
  intros (Ha & Hv & _ & _ & _ & Hviol).
  apply eq_true_iff_eq. rewrite !is_consistent_true, Ha, Hv.
  split; intros H neighbor nv Hin Hnv;
    [rewrite <- Hviol|rewrite Hviol]; by apply H.
Qed.

Lemma same_search_frame s1 s2 s1' s2' :
  same_search s1 s2 → search_frame s1 s1' → search_frame s2 s2' →
  assignment_ s1' = assignment_ s2' →
  backtrack_counter (self_ s1') = backtrack_counter (self_ s2') →
  fail_counter (self_ s1') = fail_counter (self_ s2') →
  same_search s1' s2'.
Proof.
  intros (_ & Hv & Hd & _ & _ & Hviol) (Hv1 & Hd1 & Hb1 & _) (Hv2 & Hd2 & Hb2 & _)
    Ha Hbc Hfc.
  split; [done|]. split; [congruence|]. split; [congruence|].
  split; [done|]. split; [done|].
  intros X x Y y. specialize (Hviol X x Y y). unfold violates in *.
  by rewrite Hb1, Hb2.
Qed.

Lemma try_values_ext (rec1 rec2 : M search bool) var :
  (∀ s, search_frame s (rec1 s).1) → (∀ s, search_frame s (rec2 s).1) →
  (∀ s1 s2, same_search s1 s2 →
            same_search (rec1 s1).1 (rec2 s2).1 ∧ (rec1 s1).2 = (rec2 s2).2) →
  ∀ values s1 s2,
    same_search s1 s2 →
    same_search (try_values rec1 var values s1).1 (try_values rec2 var values s2).1 ∧
    (try_values rec1 var values s1).2 = (try_values rec2 var values s2).2.
Proof.
  intros Hfr1 Hfr2 Hrec.
  induction values as [|value values IH]; intros s1 s2 Hsame; simpl.
  { munfold. simpl. split; [|done].
    destruct Hsame as (Ha & Hv & Hd & Hbc & Hfc & Hviol).
    unfold same_search. simpl. by rewrite Hfc. }
  munfold. rewrite (is_consistent_ext s1 s2) by done.
  destruct (is_consistent _ _ _ _); [|by apply IH].
  set (t1 := on_assignment _ s1). set (t2 := on_assignment _ s2).
  assert (same_search t1 t2) as Hsame1.
  { destruct Hsame as (Ha & Hrest). split; [|exact Hrest]. simpl. by rewrite Ha. }
  destruct (Hrec t1 t2 Hsame1) as [Hs Hr].
  destruct (rec1 t1) as [u1 r1], (rec2 t2) as [u2 r2]. simpl in Hs, Hr. subst r2.
  destruct r1 as [[]|e]; simpl; [done| |done].
  unfold delitem. munfold. destruct Hs as (Ha & Hrest). rewrite Ha.
  destruct (assignment_ u2 !! var); simpl; [|by split].
  apply IH. split; [|exact Hrest]. simpl. by rewrite Ha.
Qed.

Lemma backtrack_ext fuel :
  ∀ s1 s2, same_search s1 s2 →
           same_search (backtrack fuel s1).1 (backtrack fuel s2).1 ∧
           (backtrack fuel s1).2 = (backtrack fuel s2).2.
Proof.
  induction fuel as [|fuel IH]; intros s1 s2 Hsame; simpl; [by munfold|].
  munfold. simpl.
  set (t1 := on_self incr_backtrack_counter s1).
  set (t2 := on_self incr_backtrack_counter s2).
  assert (same_search t1 t2) as Hsame1.
  { destruct Hsame as (Ha & Hv & Hd & Hbc & Hfc & Hviol).
    unfold same_search. simpl. by rewrite Hbc. }
  destruct Hsame as (Ha & Hv & Hd & _).
  unfold is_complete, select_unassigned_variable, order_domain_values. simpl.
  rewrite Ha, Hv, Hd.
  destruct (forallb _ _); [done|].
  destruct (find _ _) as [var|]; simpl; [|done].
  munfold. destruct (domains (self_ s2) !! var) as [D|]; simpl; [|done].
  apply try_values_ext; [apply backtrack_frame..|exact IH|exact Hsame1].
Qed.

(** X14: A search does not depend on how the edges were declared: two instances
    constructed from the same variables and domains, with edge lists that
    join the same pairs of variables in whatever order, direction or number,
    give the same result and the same counters. *)
Theorem backtracking_search_undirected variables0 doms ids1 ids2 edges1 edges2
    (c1 c2 : CSP) :
  init variables0 doms ids1 edges1 = Ret c1 →
  init variables0 doms ids2 edges2 = Ret c2 →
  (∀ a b, (a, b) ∈ edges1 ∨ (b, a) ∈ edges1 ↔ (a, b) ∈ edges2 ∨ (b, a) ∈ edges2) →
  (backtracking_search c1).2 = (backtracking_search c2).2 ∧
  backtrack_counter (backtracking_search c1).1
  = backtrack_counter (backtracking_search c2).1 ∧
  fail_counter (backtracking_search c1).1 = fail_counter (backtracking_search c2).1.
Proof.
  intros Hinit1 Hinit2 Hedges.
  pose proof (init_inv _ _ _ _ _ Hinit1) as (Hv1 & Hd1 & Hbc1 & Hfc1 & _).
  pose proof (init_inv _ _ _ _ _ Hinit2) as (Hv2 & Hd2 & Hbc2 & Hfc2 & _).
  assert (same_search (mkSearch c1 ∅) (mkSearch c2 ∅)) as Hsame.
  { unfold same_search. simpl. do 5 (split; [congruence|]).
    intros X x Y y. apply eq_true_iff_eq. rewrite <- !not_false_iff_true.
    rewrite (violates_built _ _ _ _ _ _ _ _ _ Hinit1),
      (violates_built _ _ _ _ _ _ _ _ _ Hinit2).
    unfold dom_of. rewrite Hd1, Hd2, (Hedges X Y). done. }
  unfold backtracking_search. rewrite Hv1, Hv2.
  destruct (backtrack_ext (S (length variables0)) _ _ Hsame) as [Hs Hr].
  destruct (backtrack _ (mkSearch c1 ∅)) as [u1 r1],
    (backtrack _ (mkSearch c2 ∅)) as [u2 r2].
  simpl in Hs, Hr. subst r2. destruct Hs as (Ha & _ & _ & Hbc & Hfc & _).
  destruct r1 as [[]|e]; simpl; by rewrite ?Ha.
Qed.

Lemma backtracking_search_undirected_witness :
  (backtracking_search forced).2
  = (backtracking_search
       (constructed (init ["A"; "B"] {[ "A" := [1; 2]%Z; "B" := [1]%Z ]} own_set
                          [("B", "A"); ("B", "A")]))).2.
Proof.
  refine (proj1 (backtracking_search_undirected ["A"; "B"]
                   {[ "A" := [1; 2]%Z; "B" := [1]%Z ]} own_set own_set
                   [("A", "B")] [("B", "A"); ("B", "A")] _ _ _ _ _)).
  - vm_compute. reflexivity.
  - vm_compute. reflexivity.
  - intros a b. rewrite !elem_of_cons, !elem_of_nil. naive_solver.
Defined.

(** ** [ac_3] does not change what a search returns *)

Lemma earlier_sublist D x y : earlier D x y → y ∈ D → [x; y] `sublist_of` D.
Proof.
  intros (l1 & l2 & -> & Hy & Hne) Hin.
  apply elem_of_app in Hin as [?|Hin]; [done|].
  apply elem_of_cons in Hin as [?|Hin]; [done|].
  apply list_elem_of_split in Hin as (l3 & l4 & ->).
  apply sublist_inserts_l, sublist_skip, sublist_inserts_l, sublist_skip,
    sublist_nil_l.
Qed.

Lemma NoDup_sublist_swap (D : list Z) x y :
  NoDup D → [x; y] `sublist_of` D → [y; x] `sublist_of` D → False.
Proof.
  induction 1 as [|d D Hd Hnd IH]; [by intros ?%sublist_nil_r|].
  intros [Hxy|(l1 & [= <- <-] & H1)]%sublist_cons_r
         [Hyx|(l2 & [= <- <-] & H2)]%sublist_cons_r.
  - by apply IH.
  - apply Hd. eapply elem_of_sublist; [|exact Hxy]. set_solver.
  - apply Hd. eapply elem_of_sublist; [|exact Hyx]. set_solver.
  - apply Hd. by apply singleton_sublist_l.
Qed.

Lemma first_difference (a b : gmap string Z) pre1 v1 post1 pre2 v2 post2 :
  pre1 ++ v1 :: post1 = pre2 ++ v2 :: post2 →
  (∀ v, v ∈ pre1 → a !! v = b !! v) → a !! v1 ≠ b !! v1 →
  (∀ v, v ∈ pre2 → a !! v = b !! v) → a !! v2 ≠ b !! v2 →
  v1 = v2.
Proof.
  intros [(k & -> & Hk)|(k & -> & Hk)]%app_eq_inv Hpre1 Hv1 Hpre2 Hv2.
  - destruct k as [|v k]; simplify_eq/=; [done|].
    destruct Hv2. apply Hpre1. set_solver.
  - destruct k as [|v k]; simplify_eq/=; [done|].
    destruct Hv1. apply Hpre2. set_solver.
Qed.

Lemma precedes_shrunk c c' a b :
  variables c' = variables c → shrinks c c' →
  map_Forall (λ _ D, NoDup D) (domains c) →
  is_solution c' a → precedes c a b → precedes c' b a → False.
Proof.
  intros Hv [_ Hsub] Hnd Hsol
    (pre1 & v1 & post1 & x & y & D & Hvars1 & Hpre1 & Hax & Hby & HD & He)
    (pre2 & v2 & post2 & y' & x' & D' & Hvars2 & Hpre2 & Hby' & Hax' & HD' & He').
  assert (y ≠ x) as Hne by (by destruct He as (? & ? & _ & _ & ?)).
  assert (x' ≠ y') as Hne' by (by destruct He' as (? & ? & _ & _ & ?)).
  assert (v1 = v2) as <-.
  { apply (first_difference a b pre1 v1 post1 pre2 v2 post2);
      [congruence|done|congruence| |congruence].
    intros v Hin. symmetry. by apply Hpre2. }
  simplify_eq.
  assert (x ∈ D') as HxD'.
  { destruct Hsol as (_ & Hval & _).
    destruct (Hval _ _ Hax) as (D'' & ? & ?). by simplify_eq. }
  pose proof (earlier_sublist _ _ _ He' HxD') as Hyx.
  pose proof (Hsub _ _ _ HD HD') as Hsl.
  assert (y ∈ D) as HyD.
  { eapply elem_of_sublist; [|exact Hsl].
    eapply elem_of_sublist; [|exact Hyx]. set_solver. }
  apply (NoDup_sublist_swap D x y); [by eapply Hnd|by apply earlier_sublist|].
  by etrans.
Qed.

(** X15: Running [ac_3] first does not change what a search returns: on an
    instance in which every variable has a domain, no two variables hold the
    same set, no domain lists a value twice and no constraint joins a
    variable to itself, the search returns on the instance [ac_3] leaves,
    whatever [ac_3] answered, what it returns on the instance as it was. *)
Theorem ac_3_keeps_search_result (c : CSP) :
  has_domains c → no_self_edge c → unshared c →
  map_Forall (λ _ D, NoDup D) (domains c) →
  (backtracking_search (ac_3 c).1).2 = (backtracking_search c).2.
Proof.
  intros Hdom Hno Hun Hnd.
  pose proof (ac_3_steps c) as Hsteps.
  pose proof (rtc_ac_3_step_frame _ _ Hsteps) as (Hv & Hbc & _).
  pose proof (rtc_ac_3_step_shrinks _ _ Hsteps) as Hshr.
  assert (has_domains (ac_3 c).1) as Hdom'.
  { unfold has_domains in *. rewrite Hv. eapply Forall_impl; [exact Hdom|].
    intros var Hvar. apply elem_of_dom. rewrite (proj1 Hshr). by apply elem_of_dom. }
  assert (no_self_edge (ac_3 c).1) as Hno'.
  { unfold no_self_edge. by rewrite Hbc. }
  pose proof (backtracking_search_spec _ Hdom Hno) as H.
  pose proof (backtracking_search_spec _ Hdom' Hno') as H'.
  pose proof (backtracking_search_first_solution _ Hdom Hno) as Hfirst.
  pose proof (backtracking_search_first_solution _ Hdom' Hno') as Hfirst'.
  destruct (backtracking_search c) as [c1 [[a|]|e]]; [| |done];
    destruct (backtracking_search (ac_3 c).1) as [c2 [[a'|]|e']]; simpl;
    try done.
  - f_equal. f_equal.
    apply (rtc_ac_3_step_solutions _ _ a Hun Hsteps) in H.
    destruct (Hfirst' c2 a' eq_refl a H) as [?|Hprec']; [done|].
    apply (rtc_ac_3_step_solutions _ _ a' Hun Hsteps) in H'.
    destruct (Hfirst c1 a eq_refl a' H') as [?|Hprec]; [done|].
    destruct (precedes_shrunk c (ac_3 c).1 a a' Hv Hshr Hnd H Hprec Hprec').
  - destruct H' as [Hnone _]. destruct (Hnone a).
    by apply (rtc_ac_3_step_solutions _ _ a Hun Hsteps).
  - destruct H as [Hnone _]. destruct (Hnone a').
    by apply (rtc_ac_3_step_solutions _ _ a' Hun Hsteps).
Qed.

Lemma ac_3_keeps_search_result_witness :
  domains (ac_3 forced).1 !! "A" = Some [2%Z] ∧
  (backtracking_search (ac_3 forced).1).2 = (backtracking_search forced).2.
Proof.
  split; [vm_compute; reflexivity|].
  apply (ac_3_keeps_search_result forced);
    [compute_done|compute_done|apply own_set_unshared; reflexivity|compute_done].
Defined.
(** ** The action minimax picks *)

Section Minimax.
Context {State Action : Type}.
Variable game : Game State Action.
Variable player : Z.

Lemma max_loop_first_best child state acts :
  Forall (λ a, ∃ z, child_value game child state a z) acts →
  ∀ v mv,
    ∃ v' mv',
      max_loop game child state acts v mv = Ret (v', mv') ∧
      ¬ vlt v' v ∧
      Forall (λ b, ∃ zb, child_value game child state b zb ∧ ¬ vlt v' (Fin zb)) acts ∧
      ((v' = v ∧ mv' = mv) ∨
       (vlt v v' ∧
        ∃ z pre a post,
          v' = Fin z ∧ mv' = Act a ∧ acts = pre ++ a :: post ∧
          child_value game child state a z ∧
          Forall (λ b, ∃ zb, child_value game child state b zb ∧ vlt (Fin zb) v')
                 pre)).
Proof.
  induction 1 as [|a acts (zc & next & mc & Hres & Hc) Hacts IH]; intros v mv.
  { exists v, mv. split; [done|]. split; [vlia|]. split; [constructor|by left]. }
  assert (child_value game child state a zc) as Hcv by (by exists next, mc).
  simpl. rewrite Hres. simpl. rewrite Hc. simpl.
  destruct (value_ltb v (Fin zc)) eqn:Hlt.
  - apply value_ltb_true in Hlt.
    destruct (IH (Fin zc) (Act a)) as (v' & mv' & -> & Hge & Hall & Hbest).
    exists v', mv'. split; [done|]. split; [vlia - Hlt Hge|].
    split; [constructor; [by exists zc|done]|]. right.
    split; [vlia - Hlt Hge|].
    destruct Hbest as [[-> ->]|(Hlt' & z & pre & a' & post & -> & -> & -> & Ha' & Hpre)].
    + exists zc, [], a, acts. by repeat split.
    + exists z, (a :: pre), a', post. repeat split; [done|].
      constructor; [by exists zc|done].
  - apply value_ltb_false in Hlt.
    destruct (IH v mv) as (v' & mv' & -> & Hge & Hall & Hbest).
    exists v', mv'. split; [done|]. split; [done|].
    split; [constructor; [exists zc; split; [done|]|done]|].
    { destruct Hbest as [[-> ->]|[Hlt' _]]; [done|vlia - Hlt Hlt']. }
    destruct Hbest as [?|(Hlt' & z & pre & a' & post & -> & -> & -> & Ha' & Hpre)];
      [by left|right].
    split; [done|]. exists z, (a :: pre), a', post. repeat split; [done|].
    constructor; [|done]. exists zc. split; [done|vlia - Hlt Hlt'].
Qed.

Lemma min_loop_first_best child state acts :
  Forall (λ a, ∃ z, child_value game child state a z) acts →
  ∀ v mv,
    ∃ v' mv',
      min_loop game child state acts v mv = Ret (v', mv') ∧
      ¬ vlt v v' ∧
      Forall (λ b, ∃ zb, child_value game child state b zb ∧ ¬ vlt (Fin zb) v') acts ∧
      ((v' = v ∧ mv' = mv) ∨
       (vlt v' v ∧
        ∃ z pre a post,
          v' = Fin z ∧ mv' = Act a ∧ acts = pre ++ a :: post ∧
          child_value game child state a z ∧
          Forall (λ b, ∃ zb, child_value game child state b zb ∧ vlt v' (Fin zb))
                 pre)).
Proof.
  induction 1 as [|a acts (zc & next & mc & Hres & Hc) Hacts IH]; intros v mv.
  { exists v, mv. split; [done|]. split; [vlia|]. split; [constructor|by left]. }
  assert (child_value game child state a zc) as Hcv by (by exists next, mc).
  simpl. rewrite Hres. simpl. rewrite Hc. simpl.
  destruct (value_ltb (Fin zc) v) eqn:Hlt.
  - apply value_ltb_true in Hlt.
    destruct (IH (Fin zc) (Act a)) as (v' & mv' & -> & Hge & Hall & Hbest).
    exists v', mv'. split; [done|]. split; [vlia - Hlt Hge|].
    split; [constructor; [by exists zc|done]|]. right.
    split; [vlia - Hlt Hge|].
    destruct Hbest as [[-> ->]|(Hlt' & z & pre & a' & post & -> & -> & -> & Ha' & Hpre)].
    + exists zc, [], a, acts. by repeat split.
    + exists z, (a :: pre), a', post. repeat split; [done|].
      constructor; [by exists zc|done].
  - apply value_ltb_false in Hlt.
    destruct (IH v mv) as (v' & mv' & -> & Hge & Hall & Hbest).
    exists v', mv'. split; [done|]. split; [done|].
    split; [constructor; [exists zc; split; [done|]|done]|].
    { destruct Hbest as [[-> ->]|[Hlt' _]]; [done|vlia - Hlt Hlt']. }
    destruct Hbest as [?|(Hlt' & z & pre & a' & post & -> & -> & -> & Ha' & Hpre)];
      [by left|right].
    split; [done|]. exists z, (a :: pre), a', post. repeat split; [done|].
    constructor; [|done]. exists zc. split; [done|vlia - Hlt Hlt'].
Qed.

Lemma bounded_children fuel state :
  bounded_game game player (S fuel) state = true →
  is_terminal game state = false →
  actions game state ≠ [] ∧
  Forall (λ a, ∃ z, child_value game (max_value game player fuel) state a z)
         (actions game state) ∧
  Forall (λ a, ∃ z, child_value game (min_value game player fuel) state a z)
         (actions game state).
Proof.
  intros [[Hterm _]|(_ & Hne & Hb)]%bounded_game_S Hnt; [congruence|].
  split; [done|].
  split; apply Forall_forall; intros a (next & Hres & Hnext)%Hb;
    destruct (search_ab_ok game player fuel next Hnext)
      as [(z1 & m1 & H1 & _) (z2 & m2 & H2 & _)];
    [exists z1, next, m1|exists z2, next, m2]; done.
Qed.

Lemma max_value_first_best fuel state :
  bounded_game game player (S fuel) state = true →
  is_terminal game state = false →
  ∃ z a,
    max_value game player (S fuel) state = Ret (Fin z, Act a) ∧
    first_best game (λ z1 z2, z2 < z1)%Z (min_value game player fuel) state
      (actions game state) a z.
Proof.
  intros Hb Hnt.
  destruct (bounded_children fuel state Hb Hnt) as (Hne & _ & Hmin).
  destruct (max_loop_first_best (min_value game player fuel) state
              (actions game state) Hmin NegInf (InfMove false))
    as (v' & mv' & Hrun & _ & Hall & Hbest).
  destruct Hbest as [[-> _]|(_ & z & pre & a & post & -> & -> & Hacts & Ha & Hpre)].
  { destruct (actions game state) as [|b acts]; [done|].
    apply Forall_cons in Hall as [(zb & _ & Hzb) _]. exfalso. vlia - Hzb. }
  exists z, a. simpl. rewrite Hnt, Hrun.
  split; [done|]. exists pre, post. split; [done|].
  split; [done|]. rewrite Forall_forall in Hall, Hpre. split.
  - intros b (zb & Hb' & Hlt)%Hpre. exists zb. split; [done|vlia - Hlt].
  - intros b (zb & Hb' & Hlt)%Hall. exists zb. split; [done|vlia - Hlt].
Qed.

Lemma min_value_first_best fuel state :
  bounded_game game player (S fuel) state = true →
  is_terminal game state = false →
  ∃ z a,
    min_value game player (S fuel) state = Ret (Fin z, Act a) ∧
    first_best game (λ z1 z2, z1 < z2)%Z (max_value game player fuel) state
      (actions game state) a z.
Proof.
  intros Hb Hnt.
  destruct (bounded_children fuel state Hb Hnt) as (Hne & Hmax & _).
  destruct (min_loop_first_best (max_value game player fuel) state
              (actions game state) Hmax PosInf (InfMove true))
    as (v' & mv' & Hrun & _ & Hall & Hbest).
  destruct Hbest as [[-> _]|(_ & z & pre & a & post & -> & -> & Hacts & Ha & Hpre)].
  { destruct (actions game state) as [|b acts]; [done|].
    apply Forall_cons in Hall as [(zb & _ & Hzb) _]. exfalso. vlia - Hzb. }
  exists z, a. simpl. rewrite Hnt, Hrun.
  split; [done|]. exists pre, post. split; [done|].
  split; [done|]. rewrite Forall_forall in Hall, Hpre. split.
  - intros b (zb & Hb' & Hlt)%Hpre. exists zb. split; [done|vlia - Hlt].
  - intros b (zb & Hb' & Hlt)%Hall. exists zb. split; [done|vlia - Hlt].
Qed.

Lemma minimax_search_action fuel state :
  bounded_game game player (S fuel) state = true →
  is_terminal game state = false →
  ∃ a, minimax_search game player (S fuel) state = Ret (Act a) ∧
       a ∈ actions game state.
Proof.
  intros Hb Hnt.
  destruct (max_value_first_best fuel state Hb Hnt)
    as (z & a & Hrun & pre & post & Hacts & _).
  exists a. unfold minimax_search. rewrite Hrun. split; [done|].
  rewrite Hacts. set_solver.
Qed.

Lemma bounded_game_intro fuel state :
  (is_terminal game state = true ∧ ∃ u, utility game state player = Ret u) ∨
  (is_terminal game state = false ∧ actions game state ≠ [] ∧
   ∀ a, a ∈ actions game state →
        ∃ next, result game state a = Ret next ∧
                bounded_game game player fuel next = true) →
  bounded_game game player (S fuel) state = true.
Proof.
  simpl. intros [[-> [u ->]]|(-> & Hne & Hall)]; [done|].
  destruct (actions game state) as [|a acts] eqn:Hacts; [done|].
  apply andb_true_intro. split.
  - destruct (Hall a) as (next & -> & ->); [left|done].
  - apply forallb_forall. intros b Hb%list_elem_of_In.
    destruct (Hall b) as (next & -> & ->); [by right|done].
Qed.

End Minimax.

(** X16: On a state that is not terminal, of a game that ends within the depth
    searched, [max_value] returns an action of [game.actions(state)] and the
    value [min_value] gives the state it leads to; no action has a greater
    value, and every action listed before it has a smaller one.  [min_value]
    returns in the same way the first action of least value, and
    [minimax_search] the action of [max_value]. *)
Theorem minimax_picks_first_best {State Action : Type}
    (game : Game State Action) (player : Z) (fuel : nat) (state : State) :
  bounded_game game player (S fuel) state = true →
  is_terminal game state = false →
  (∃ z a,
     max_value game player (S fuel) state = Ret (Fin z, Act a) ∧
     minimax_search game player (S fuel) state = Ret (Act a) ∧
     first_best game (λ z1 z2, z2 < z1)%Z (min_value game player fuel) state
       (actions game state) a z) ∧
  (∃ z a,
     min_value game player (S fuel) state = Ret (Fin z, Act a) ∧
     first_best game (λ z1 z2, z1 < z2)%Z (max_value game player fuel) state
       (actions game state) a z).
Proof.
  intros Hb Hnt. split.
  - destruct (max_value_first_best game player fuel state Hb Hnt)
      as (z & a & Hrun & Hbest).
    exists z, a. unfold minimax_search. rewrite Hrun. by repeat split.
  - by apply min_value_first_best.
Qed.

Lemma minimax_picks_first_best_witness :
  bounded_game TicTacToe.game 0 (S 9) mid_game = true ∧
  ∃ z a, minimax_search TicTacToe.game 0 (S 9) mid_game = Ret (Act a) ∧
         first_best TicTacToe.game (λ z1 z2, z2 < z1)%Z
           (min_value TicTacToe.game 0 9) mid_game
           (actions TicTacToe.game mid_game) a z.
Proof.
  assert (bounded_game TicTacToe.game 0 (S 9) mid_game = true) as Hb
    by (vm_compute; reflexivity).
  split; [exact Hb|].
  destruct (minimax_picks_first_best TicTacToe.game 0 9 mid_game Hb)
    as [(z & a & _ & Hs & Hf) _]; [vm_compute; reflexivity|].
  exists z, a. split; [exact Hs|exact Hf].
Defined.

(** ** Tic-tac-toe *)

Lemma actions_elem state a :
  a ∈ TicTacToe.actions state ↔
  ∃ r c, a = (Z.of_nat r, Z.of_nat c) ∧ r < 3 ∧ c < 3 ∧
         TicTacToe.at_ state.2 r c = None.
Proof.
  unfold TicTacToe.actions. rewrite list_elem_of_bind. split.
  - intros (r & (c & Hc & Hin)%list_elem_of_bind & Hr).
    case_decide; [|by apply elem_of_nil in Hc].
    apply list_elem_of_singleton in Hc as ->. exists r, c.
    unfold TicTacToe.range3 in *.
    repeat split; [| |done].
    + set_solver by lia.
    + set_solver by lia.
  - intros (r & c & -> & Hr & Hc & Hnone). exists r. split.
    + apply list_elem_of_bind. exists c. rewrite decide_True by done.
      split; [set_solver|]. unfold TicTacToe.range3.
      destruct c as [|[|[|]]]; set_solver by lia.
    + unfold TicTacToe.range3. destruct r as [|[|[|]]]; set_solver by lia.
Qed.

Lemma index3_of_nat i : i < 3 → TicTacToe.index3 (Z.of_nat i) = Ret i.
Proof.
  intros Hi. unfold TicTacToe.index3. rewrite decide_True by lia.
  by rewrite Nat2Z.id.
Qed.

Lemma at_set3 (b : TicTacToe.board) r c x r' c' :
  r < 3 → c < 3 → r' < 3 → c' < 3 →
  TicTacToe.at_ (TicTacToe.set3 b r (TicTacToe.set3 (TicTacToe.get3 b r) c x)) r' c'
  = if decide ((r', c') = (r, c)) then x else TicTacToe.at_ b r' c'.
Proof.
  intros Hr Hc Hr' Hc'.
  destruct r as [|[|[|]]]; [| | |lia]; destruct c as [|[|[|]]]; try lia;
    destruct r' as [|[|[|]]]; try lia; destruct c' as [|[|[|]]]; try lia;
    done.
Qed.

Lemma empty_cells_set3 p (b : TicTacToe.board) r c :
  r < 3 → c < 3 → TicTacToe.at_ b r c = None →
  ∀ p' q,
    S (empty_cells
         (p', TicTacToe.set3 b r (TicTacToe.set3 (TicTacToe.get3 b r) c (Some q))))
    = empty_cells (p, b).
Proof.
  intros Hr Hc Hnone p' q. unfold empty_cells.
  destruct b as [[[[c00 c01] c02] [[c10 c11] c12]] [[c20 c21] c22]].
  destruct r as [|[|[|]]]; [| | |lia]; destruct c as [|[|[|]]]; try lia;
    unfold TicTacToe.at_ in Hnone; simpl in Hnone; subst;
    unfold TicTacToe.actions, TicTacToe.range3, TicTacToe.at_; simpl;
    rewrite ?length_app; simpl; rewrite ?length_app; simpl; lia.
Qed.

Lemma result_of_action state a :
  a ∈ TicTacToe.actions state →
  ∃ r c,
    a = (Z.of_nat r, Z.of_nat c) ∧ r < 3 ∧ c < 3 ∧
    TicTacToe.at_ state.2 r c = None ∧
    TicTacToe.result state a
    = Ret (((TicTacToe.to_move state + 1) `mod` 2)%Z,
           TicTacToe.set3 state.2 r
             (TicTacToe.set3 (TicTacToe.get3 state.2 r) c
                (Some (TicTacToe.to_move state)))).
Proof.
  intros (r & c & -> & Hr & Hc & Hnone)%actions_elem.
  exists r, c. do 4 (split; [done|]).
  unfold TicTacToe.result. simpl. by rewrite !index3_of_nat.
Qed.

(** X17: An action of [game.actions(state)] names an empty cell by its row and
    column; [game.result] returns a state in which that cell holds the player
    who moved, every other cell is as before, the other player is to move,
    and one cell less is empty. *)
Theorem result_fills_cell (state : TicTacToe.State) (a : TicTacToe.Action) :
  a ∈ TicTacToe.actions state →
  ∃ r c next,
    a = (Z.of_nat r, Z.of_nat c) ∧ r < 3 ∧ c < 3 ∧
    TicTacToe.at_ state.2 r c = None ∧
    TicTacToe.result state a = Ret next ∧
    TicTacToe.to_move next = ((TicTacToe.to_move state + 1) `mod` 2)%Z ∧
    (∀ r' c', r' < 3 → c' < 3 →
              TicTacToe.at_ next.2 r' c'
              = if decide ((r', c') = (r, c)) then Some (TicTacToe.to_move state)
                else TicTacToe.at_ state.2 r' c') ∧
    S (empty_cells next) = empty_cells state.
Proof.
  intros (r & c & -> & Hr & Hc & Hnone & Hres)%result_of_action.
  eexists r, c, _. do 4 (split; [done|]). split; [exact Hres|].
  split; [done|]. split.
  - intros r' c' Hr' Hc'. by apply at_set3.
  - destruct state as [p b]. by apply empty_cells_set3.
Qed.

Lemma result_fills_cell_witness :
  (0, 2)%Z ∈ TicTacToe.actions mid_game ∧
  ∃ next, TicTacToe.result mid_game (0, 2)%Z = Ret next ∧
          S (empty_cells next) = empty_cells mid_game.
Proof.
  assert ((0, 2)%Z ∈ TicTacToe.actions mid_game) as Hin by compute_done.
  split; [exact Hin|].
  destruct (result_fills_cell mid_game (0, 2)%Z Hin)
    as (r & c & next & _ & _ & _ & _ & Hres & _ & _ & Hcells).
  exists next. split; [exact Hres|exact Hcells].
Defined.

Lemma range3_lt i : In i TicTacToe.range3 → i < 3.
Proof. simpl. intros [<-|[<-|[<-|[]]]]; lia. Qed.

Lemma not_terminal_actions state :
  TicTacToe.is_terminal state = false → TicTacToe.actions state ≠ [].
Proof.
  intros Hnt Hempty.
  assert (∀ r c, r < 3 → c < 3 → TicTacToe.at_ state.2 r c ≠ None) as Hfull.
  { intros r c Hr Hc Hn.
    assert ((Z.of_nat r, Z.of_nat c) ∈ TicTacToe.actions state) as Hin
      by (apply actions_elem; eauto 10).
    rewrite Hempty in Hin. by apply elem_of_nil in Hin. }
  unfold TicTacToe.is_terminal in Hnt.
  destruct (TicTacToe.is_winner _ _); [done|].
  apply not_true_iff_false in Hnt. apply Hnt.
  apply forallb_forall. intros r Hr%range3_lt.
  apply forallb_forall. intros c Hc%range3_lt.
  apply bool_decide_eq_true. by apply Hfull.
Qed.

Lemma tic_tac_toe_bounded player fuel :
  ∀ state, empty_cells state < fuel →
           bounded_game TicTacToe.game player fuel state = true.
Proof.
  induction fuel as [|fuel IH]; intros state Hfuel; [lia|].
  apply bounded_game_intro.
  change (is_terminal TicTacToe.game state) with (TicTacToe.is_terminal state).
  change (utility TicTacToe.game state player)
    with (TicTacToe.utility state player).
  change (actions TicTacToe.game state) with (TicTacToe.actions state).
  destruct (TicTacToe.is_terminal state) eqn:Hterm.
  { left. split; [done|]. rewrite tic_tac_toe_utility, Hterm. eauto. }
  right. split; [done|]. split; [by apply not_terminal_actions|].
  intros a Ha.
  change (result TicTacToe.game state a) with (TicTacToe.result state a).
  destruct (result_of_action state a Ha) as (r & c & _ & Hr & Hc & Hnone & ->).
  eexists. split; [done|]. apply IH.
  destruct state as [p b].
  pose proof (empty_cells_set3 p b r c Hr Hc Hnone
                ((TicTacToe.to_move (p, b) + 1) `mod` 2)%Z
                (TicTacToe.to_move (p, b))) as Hcells.
  simpl in *. lia.
Qed.

(** X18: On every tic-tac-toe state, whatever the board and whatever [player]
    holds, the searches raise nothing and are never nested deeper than the
    number of empty cells plus one; [alpha_beta_search] returns what
    [minimax_search] returns, with the same value. *)
Theorem tic_tac_toe_searches_agree (player : Z) (fuel : nat)
    (state : TicTacToe.State) :
  empty_cells state < fuel →
  ∃ z m,
    max_value TicTacToe.game player fuel state = Ret (Fin z, m) ∧
    max_value_ab TicTacToe.game player fuel state NegInf PosInf = Ret (Fin z, m) ∧
    minimax_search TicTacToe.game player fuel state = Ret m ∧
    alpha_beta_search TicTacToe.game player fuel state = Ret m.
Proof.
  intros Hfuel.
  destruct (alpha_beta_minimax_value TicTacToe.game player fuel state)
    as (z & m & Hm & Hab); [by apply tic_tac_toe_bounded|].
  exists z, m. unfold minimax_search, alpha_beta_search.
  rewrite Hm, Hab. by repeat split.
Qed.

Lemma tic_tac_toe_searches_agree_witness :
  empty_cells (initial_state TicTacToe.game) < 10 ∧
  ∃ m, minimax_search TicTacToe.game 0 10 (initial_state TicTacToe.game) = Ret m ∧
       alpha_beta_search TicTacToe.game 0 10 (initial_state TicTacToe.game) = Ret m.
Proof.
  assert (empty_cells (initial_state TicTacToe.game) < 10) as Hfuel
    by (vm_compute; lia).
  split; [exact Hfuel|].
  destruct (tic_tac_toe_searches_agree 0 10 (initial_state TicTacToe.game) Hfuel)
    as (z & m & _ & _ & Hmm & Hab).
  exists m. split; [exact Hmm|exact Hab].
Defined.

(** ** The halving game *)

Lemma halving_result_bounds p n a :
  (0 < n)%Z →
  ∃ p' n', Halving.result (p, n) a = (p', n') ∧ (0 ≤ n' < n)%Z.
Proof.
  intros Hn. unfold Halving.result. simpl.
  case_decide; eexists _, _; (split; [done|]); [lia|].
  split; [by apply Z.div_pos; lia|by apply Z.div_lt; lia].
Qed.

Lemma halving_bounded N player fuel :
  ∀ p n, (0 ≤ n)%Z → Z.to_nat n < fuel →
         bounded_game (Halving.game N) player fuel (p, n) = true.
Proof.
  induction fuel as [|fuel IH]; intros p n Hn Hfuel; [lia|].
  apply bounded_game_intro.
  change (is_terminal (Halving.game N) (p, n)) with (Halving.is_terminal (p, n)).
  change (utility (Halving.game N) (p, n) player)
    with (Halving.utility (p, n) player).
  destruct (Halving.is_terminal (p, n)) eqn:Hterm.
  { left. split; [done|]. rewrite halving_utility, Hterm. eauto. }
  right. split; [done|]. split; [done|]. intros a _.
  apply bool_decide_eq_false in Hterm. simpl in Hterm.
  destruct (halving_result_bounds p n a) as (p' & n' & Hres & Hn'); [lia|].
  exists (p', n'). split; [simpl; by rewrite Hres|]. apply IH; lia.
Qed.

Lemma halving_play_returns N fuel :
  ∀ rounds p n played,
    (0 ≤ n)%Z → Z.to_nat n < rounds → Z.to_nat n < fuel →
    ∃ played' final,
      Halving.play N fuel rounds (p, n) played = Ret (played ++ played', final) ∧
      Halving.is_terminal final = true ∧
      length played' ≤ Z.to_nat n ∧
      Forall (λ m, m = Act "--" ∨ m = Act "/2") played'.
Proof.
  induction rounds as [|rounds IH]; intros p n played Hn Hrounds Hfuel; [lia|].
  simpl. destruct (Halving.is_terminal (p, n)) eqn:Hterm.
  { exists [], (p, n). rewrite app_nil_r. repeat split; [done|simpl; lia|constructor]. }
  destruct fuel as [|fuel]; [lia|].
  destruct (minimax_search_action (Halving.game N) p fuel (p, n))
    as (a & -> & Ha); [by apply halving_bounded|done|].
  simpl.
  pose proof Hterm as Hn0. apply bool_decide_eq_false in Hn0. simpl in Hn0.
  destruct (halving_result_bounds p n a) as (p' & n' & -> & Hn'); [lia|].
  destruct (IH p' n' (played ++ [Act a])) as (played' & final & -> & Hfin & Hlen & Hall);
    [lia..|].
  exists (Act a :: played'), final. rewrite <- app_assoc. split; [done|].
  split; [done|]. split; [simpl; lia|]. constructor; [|done].
  simpl in Ha. unfold Halving.actions in Ha. set_solver.
Qed.

(** X19: For a number [N] that is not negative the loop at the end of
    halving_game.py ends: every search returns one of the two actions, the
    loop plays at most [N] of them and stops in a terminal state.  No search
    is nested deeper than [N + 1]. *)
Theorem halving_game_ends (N : Z) (fuel rounds : nat) :
  (0 ≤ N)%Z → Z.to_nat N < fuel → Z.to_nat N < rounds →
  ∃ played final,
    Halving.main N fuel rounds = Ret (played, final) ∧
    Halving.is_terminal final = true ∧
    length played ≤ Z.to_nat N ∧
    Forall (λ m, m = Act "--" ∨ m = Act "/2") played.
Proof.
  intros HN Hfuel Hrounds. unfold Halving.main. simpl.
  destruct (halving_play_returns N fuel rounds 0%Z N [] HN Hrounds Hfuel)
    as (played & final & Hrun & Hrest).
  exists played, final. by split.
Qed.

Lemma halving_game_ends_witness :
  ∃ played final,
    Halving.main 5 6 6 = Ret (played, final) ∧
    Halving.is_terminal final = true ∧
    length played ≤ Z.to_nat 5 ∧
    Forall (λ m, m = Act "--" ∨ m = Act "/2") played.
Proof. apply (halving_game_ends 5 6 6); [lia|simpl; lia|simpl; lia]. Defined.

Lemma halving_negative_search N player fuel :
  ∀ p n, (n < 0)%Z →
         max_value (Halving.game N) player fuel (p, n) = Raise RecursionError ∧
         min_value (Halving.game N) player fuel (p, n) = Raise RecursionError.
Proof.
  induction fuel as [|fuel IH]; intros p n Hn; [done|].
  assert (Halving.is_terminal (p, n) = false) as Hterm
    by (apply bool_decide_eq_false; simpl; lia).
  simpl max_value. simpl min_value. rewrite Hterm.
  change (Halving.result (p, n) "--") with (((p + 1) `mod` 2)%Z, (n - 1)%Z).
  destruct (IH ((p + 1) `mod` 2)%Z (n - 1)%Z) as [-> ->]; [lia|done].
Qed.

(** X20: For a negative number the game never reaches 0: every search recurses
    until the recursion limit, however high it is, and the first turn of the
    loop ends in [RecursionError]. *)
Theorem halving_negative_number (N : Z) (fuel rounds : nat) :
  (N < 0)%Z → Halving.main N fuel (S rounds) = Raise RecursionError.
Proof.
  intros HN. unfold Halving.main. simpl.
  assert (Halving.is_terminal (0%Z, N) = false) as ->
    by (apply bool_decide_eq_false; simpl; lia).
  unfold minimax_search.
  by destruct (halving_negative_search N 0%Z fuel 0%Z N HN) as [-> _].
Qed.

Lemma halving_negative_number_witness :
  Halving.main (-1) 1000 1 = Raise RecursionError.
Proof. apply (halving_negative_number (-1) 1000 0). lia. Defined.

(** ** The bucket game *)

Lemma bucket_result_bounded player p a :
  valid_entry a = true →
  ∃ next, Bucket.result p a = Ret next ∧
          bounded_game Bucket.game player 2 next = true.
Proof.
  destruct a as [s|n]; simpl.
  - intros Hs%bool_decide_eq_true.
    repeat (apply elem_of_cons in Hs as [->|Hs]; [eexists; split; [done|done]|]).
    by apply elem_of_nil in Hs.
  - intros _. eexists. split; [done|done].
Qed.

Lemma bucket_bounded player p entries :
  2 ≤ length entries → forallb valid_entry entries = true →
  bounded_game Bucket.game player 3 (p, entries) = true.
Proof.
  intros Hlen Hvalid. apply bounded_game_intro. right.
  split; [apply bool_decide_eq_false; simpl; lia|].
  split; [simpl; unfold Bucket.actions; simpl; intros ->; simpl in Hlen; lia|].
  intros a Ha. rewrite forallb_forall in Hvalid.
  apply (bucket_result_bounded player (p, entries)), Hvalid.
  apply list_elem_of_In. exact Ha.
Qed.

(** X21: On a state that lists two or more entries, each a number or the name of
    one of the three buckets, a search on the bucket game raises nothing and
    returns one of the entries; three nested calls are enough. *)
Theorem bucket_search_returns (player : Z) (fuel : nat) (p : Z)
    (entries : list Bucket.Action) :
  2 ≤ length entries → forallb valid_entry entries = true → 3 ≤ fuel →
  ∃ a, minimax_search Bucket.game player fuel (p, entries) = Ret (Act a) ∧
       a ∈ entries.
Proof.
  intros Hlen Hvalid Hfuel.
  destruct (minimax_search_action Bucket.game player 2 (p, entries))
    as (a & Hrun & Ha).
  - by apply bucket_bounded.
  - apply bool_decide_eq_false. simpl. lia.
  - exists a. split; [|done]. by eapply minimax_search_mono.
Qed.

Lemma bucket_search_returns_witness :
  ∃ a, minimax_search Bucket.game 0 3 (initial_state Bucket.game) = Ret (Act a) ∧
       a ∈ [Bucket.Name "A"; Bucket.Name "B"; Bucket.Name "C"].
Proof.
  apply (bucket_search_returns 0 3 0%Z
           [Bucket.Name "A"; Bucket.Name "B"; Bucket.Name "C"]);
    [simpl; lia|reflexivity|lia].
Defined.
